(** * Python-Markdown: serializers and the CodeHilite extension

    A shallow embedding of [markdown/serializers.py] and
    [markdown/extensions/codehilite.py], and the properties of the two
    modules: those that the specification states, and further ones read
    off the code.

    Conventions of the embedding.
    - A Python [str] is a [string]; a character is a code point below 256
      (Latin-1), the range of [ascii].  The character classes of [re] and
      of the [str] methods are written out for that range.
    - An operation that can raise returns [exn + A] ([inl] raises, [inr]
      returns); code that mutates an object threads the object as state.
    - Dynamically typed values (keyword options) are [pyval]s. *)

From Stdlib Require Import ZArith NArith String Ascii List Bool Lia DecimalString
  DecimalPos.
From stdpp Require Import base option list gmap strings sorting.

Local Open Scope string_scope.
Local Open Scope bool_scope.

#[local] Arguments String.append !s1 s2 : simpl nomatch.

(** ** Python strings *)

Module PyStr.

Definition code (c : ascii) : N := N_of_ascii c.

Definition in_range (lo hi : N) (c : ascii) : bool :=
  (lo <=? code c)%N && (code c <=? hi)%N.

(** [c in text] for a one-character [c]. *)
Fixpoint contains (c : ascii) (s : string) : bool :=
  match s with
  | "" => false
  | String a r => Ascii.eqb a c || contains c r
  end.

(** Number of occurrences of a character, [text.count(c)]. *)
Fixpoint count (c : ascii) (s : string) : nat :=
  match s with
  | "" => 0
  | String a r => (if Ascii.eqb a c then 1 else 0) + count c r
  end.

(** [str.replace(old, new)]: the occurrences of [old] are replaced from the
    left and do not overlap.  [skip] counts the characters of a replaced
    occurrence that are still to be dropped. *)
Fixpoint replace_go (old new : string) (skip : nat) (s : string) : string :=
  match s with
  | "" => ""
  | String c r =>
      match skip with
      | S k => replace_go old new k r
      | O =>
          if String.prefix old s
          then new +:+ replace_go old new (String.length old - 1) r
          else String c (replace_go old new 0 r)
      end
  end.

(** With an empty [old], Python puts [new] before every character and at
    the end. *)
Fixpoint intersperse (new s : string) : string :=
  match s with
  | "" => new
  | String c r => new +:+ String c (intersperse new r)
  end.

Definition replace (old new s : string) : string :=
  match old with
  | "" => intersperse new s
  | _ => replace_go old new 0 s
  end.

(** [s.lstrip(chars)], [s.rstrip(chars)] and [s.strip(chars)]; [chars] is
    the set of the characters to drop. *)
Fixpoint lstrip (chars : ascii -> bool) (s : string) : string :=
  match s with
  | "" => ""
  | String a r => if chars a then lstrip chars r else s
  end.

Fixpoint rstrip (chars : ascii -> bool) (s : string) : string :=
  match s with
  | "" => ""
  | String a r =>
      match rstrip chars r with
      | "" => if chars a then "" else String a ""
      | r' => String a r'
      end
  end.

Definition strip (chars : ascii -> bool) (s : string) : string :=
  rstrip chars (lstrip chars s).

(** The newline, and the set that holds only it. *)
Definition nl : ascii := "010".
Definition is_nl (c : ascii) : bool := Ascii.eqb c nl.

(** [s.split(sep)] for a one-character separator: never the empty list. *)
Fixpoint split (sep : ascii) (s : string) : list string :=
  match s with
  | "" => [""]
  | String a r =>
      if Ascii.eqb a sep then "" :: split sep r
      else match split sep r with
           | x :: xs => String a x :: xs
           | [] => [String a ""]
           end
  end.

(** [s.split(sep, 1)]: split at the first separator only. *)
Fixpoint split1 (sep : ascii) (s : string) : list string :=
  match s with
  | "" => [""]
  | String a r =>
      if Ascii.eqb a sep then [""; r]
      else match split1 sep r with
           | x :: xs => String a x :: xs
           | [] => [String a ""]
           end
  end.

(** [sep.join(parts)]. *)
Fixpoint join (sep : string) (parts : list string) : string :=
  match parts with
  | [] => ""
  | [x] => x
  | x :: rest => x +:+ sep +:+ join sep rest
  end.

(** [str.isspace] of one character: the white space of [str.split()],
    and of [\s] in a [str] pattern. *)
Definition isspace (c : ascii) : bool :=
  in_range 9 13 c || in_range 28 32 c
  || (code c =? 133)%N || (code c =? 160)%N.

(** [s.split()]: the maximal runs of characters that are not white space.
    [cur] is the run being read, if one was started. *)
Fixpoint words_go (s : string) : option string * list string :=
  match s with
  | "" => (None, [])
  | String a r =>
      let '(cur, ws) := words_go r in
      if isspace a then (None, (option_list cur ++ ws)%list)
      else (Some (String a (default "" cur)), ws)
  end.

Definition words (s : string) : list string :=
  let '(cur, ws) := words_go s in (option_list cur ++ ws)%list.

(** [str.lower] of one character: A-Z, and in Latin-1 U+00C0-U+00DE
    without the multiplication sign U+00D7. *)
Definition lower_char (c : ascii) : ascii :=
  if in_range 65 90 c || in_range 192 214 c || in_range 216 222 c
  then ascii_of_N (code c + 32)
  else c.

Fixpoint lower (s : string) : string :=
  match s with
  | "" => ""
  | String a r => String (lower_char a) (lower r)
  end.

(** [s[:1]] and [s[1:]]. *)
Definition first1 (s : string) : string :=
  match s with "" => "" | String a _ => String a "" end.

Definition drop1 (s : string) : string :=
  match s with "" => "" | String _ r => r end.

(** Order of [str]: by code point, a proper prefix first. *)
Definition ltb (s1 s2 : string) : bool := String.ltb s1 s2.

End PyStr.

(** ** Exceptions, results and dynamically typed values *)

Module Py.

(** The exceptions the two modules can meet.  [ClassNotFound] is pygments'
    subclass of [ValueError]. *)
Inductive exn : Type :=
| TypeError
| ValueError
| AttributeError
| IndexError
| KeyError
| ClassNotFound
| OtherError (name : string).

(** [except ValueError] catches [ValueError] and its subclasses. *)
Definition is_ValueError (e : exn) : bool :=
  match e with
  | ValueError | ClassNotFound => true
  | _ => false
  end.

Definition result (A : Type) : Type := exn + A.

Definition ret {A} (a : A) : result A := inr a.
Definition raise {A} (e : exn) : result A := inl e.

Definition bind {A B} (m : result A) (k : A -> result B) : result B :=
  match m with
  | inl e => inl e
  | inr a => k a
  end.

(** [try: m  except E: h], where [E] is the class of the exceptions that
    [catches] holds of. *)
Definition try_except {A} (m : result A) (catches : exn -> bool) (h : result A)
  : result A :=
  match m with
  | inl e => if catches e then h else inl e
  | inr a => inr a
  end.

(** A computation on a mutable object of type [S]: the object after it, and
    its result.  The object keeps what was done to it before a raise. *)
Definition M (S A : Type) : Type := S -> S * result A.

Definition mret {S A} (a : A) : M S A := fun s => (s, inr a).
Definition mraise {S A} (e : exn) : M S A := fun s => (s, inl e).
Definition lift {S A} (r : result A) : M S A := fun s => (s, r).
Definition get {S} : M S S := fun s => (s, inr s).
Definition modify {S} (f : S -> S) : M S unit := fun s => (f s, inr tt).

Definition mbind {S A B} (m : M S A) (k : A -> M S B) : M S B :=
  fun s =>
    match m s with
    | (s', inl e) => (s', inl e)
    | (s', inr a) => k a s'
    end.

(** [try: m  except E: h] on a mutable object. *)
Definition mtry {S A} (m : M S A) (catches : exn -> bool) (h : M S A) : M S A :=
  fun s =>
    match m s with
    | (s', inl e) => if catches e then h s' else (s', inl e)
    | (s', inr a) => (s', inr a)
    end.

(** A value of a keyword option: [None], a [bool], an [int], a [str], a
    list of [int]s, or another object (a formatter class, say), known by
    what [str] gives for it. *)
Inductive pyval : Type :=
| PNone
| PBool (b : bool)
| PInt (z : Z)
| PStr (s : string)
| PInts (l : list Z)
| PObj (repr : string).

(** Truth value of a value, as [if v:] tests it. *)
Definition truthy (v : pyval) : bool :=
  match v with
  | PNone => false
  | PBool b => b
  | PInt z => negb (z =? 0)%Z
  | PStr s => negb (String.eqb s "")
  | PInts l => match l with [] => false | _ => true end
  | PObj _ => true
  end.

Definition is_None (v : pyval) : bool :=
  match v with PNone => true | _ => false end.

Definition str_of_int (z : Z) : string := NilZero.string_of_int (Z.to_int z).

(** [str(v)], what [format] puts in place of [{}]. *)
Definition str (v : pyval) : string :=
  match v with
  | PNone => "None"
  | PBool true => "True"
  | PBool false => "False"
  | PInt z => str_of_int z
  | PStr s => s
  | PInts l => "[" +:+ PyStr.join ", " (map str_of_int l) +:+ "]"
  | PObj repr => repr
  end.

(** Truth value of an optional [str], as [if text:] tests it. *)
Definition nonempty (o : option string) : bool :=
  match o with
  | Some (String _ _) => true
  | _ => false
  end.

End Py.

Notation "x <- m ;; k" := (Py.bind m (fun x => k))
  (at level 100, m at next level, right associativity).
Notation "x <~ m ;; k" := (Py.mbind m (fun x => k))
  (at level 100, m at next level, right associativity).
Notation "m ;;; k" := (Py.mbind m (fun _ => k))
  (at level 100, right associativity).

(** ** The two regular expressions

    Each pattern is embedded as the function its backtracking search
    computes; the comments say why the first successful path is the one taken. *)

Module Re.

Import PyStr.

Definition is_digit (c : ascii) : bool := in_range 48 57 c.

(** [[0-9a-f]] under [re.I]. *)
Definition is_hex_i (c : ascii) : bool :=
  is_digit c || in_range 65 70 c || in_range 97 102 c.

(** [[0-9a-z]] under [re.I]: below 256 only the ASCII letters fold. *)
Definition is_alnum_i (c : ascii) : bool :=
  is_digit c || in_range 65 90 c || in_range 97 122 c.

(** [\w] of a [str] pattern: alphanumeric code points and the underscore.
    Beyond ASCII, Latin-1 has the letters U+00AA, U+00B5, U+00BA,
    U+00C0-U+00FF without U+00D7 and U+00F7, and the numeric U+00B2, U+00B3,
    U+00B9, U+00BC-U+00BE. *)
Definition is_word (c : ascii) : bool :=
  is_alnum_i c || (code c =? 95)%N
  || (code c =? 170)%N || (code c =? 178)%N || (code c =? 179)%N
  || (code c =? 181)%N || (code c =? 185)%N || (code c =? 186)%N
  || in_range 188 190 c
  || in_range 192 214 c || in_range 216 246 c || in_range 248 255 c.

(** [cls+;] at the head of [s], for a class that does not hold [;]: the run
    of [cls] is maximal, so giving characters back never helps. *)
Fixpoint run_semi (cls : ascii -> bool) (s : string) : bool :=
  match s with
  | "" => false
  | String c r =>
      cls c && match r with
               | String ";" _ => true
               | _ => run_semi cls r
               end
  end.

Definition is_x_i (c : ascii) : bool := Ascii.eqb c "x" || Ascii.eqb c "X".

(** [(?:\#[0-9]+|\#x[0-9a-f]+|[0-9a-z]+);] at the head of [s]: the body of a
    character reference and its semicolon. *)
Definition reference_at (s : string) : bool :=
  match s with
  | String "#" r =>
      run_semi is_digit r
      || match r with
         | String x r' => is_x_i x && run_semi is_hex_i r'
         | "" => false
         end
  | _ => run_semi is_alnum_i s
  end.

(** [RE_AMP.sub(repl, s)] for a literal [repl]: the pattern matches one [&]
    that the negative lookahead does not see followed by a reference. *)
Fixpoint RE_AMP_sub (repl : string) (s : string) : string :=
  match s with
  | "" => ""
  | String c r =>
      if Ascii.eqb c "&" && negb (reference_at r)
      then repl +:+ RE_AMP_sub repl r
      else String c (RE_AMP_sub repl r)
  end.

(** [span p s]: the longest prefix of [s] in the class [p], and the rest. *)
Fixpoint span (p : ascii -> bool) (s : string) : string * string :=
  match s with
  | "" => ("", "")
  | String c r =>
      if p c then let '(a, b) := span p r in (String c a, b)
      else ("", s)
  end.

(** The groups of a match of the header pattern of [_parseHeader]. *)
Record header_match : Type := {
  g_shebang : option string;
  g_path : option string;
  g_lang : string;
  g_hl_lines : option string
}.

(** [(?:/\w+)*[/ ]] at the head of [s], greedy: one more [/\w+] and the rest,
    and when that fails, [[/ ]] here.  The word is taken whole: after a
    shorter one comes a word character, which starts no group and is not in
    [[/ ]].  An iteration takes two characters or more, so [fuel] above the
    length of [s] is never used up. *)
Fixpoint path_at (fuel : nat) (s : string) : option (string * string) :=
  match fuel with
  | O => None
  | S fuel' =>
      let iteration :=
        match s with
        | String "/" s1 =>
            match span is_word s1 with
            | (String a w, s2) =>
                match path_at fuel' s2 with
                | Some (p, rest) => Some (String "/" (String a w) +:+ p, rest)
                | None => None
                end
            | _ => None
            end
        | _ => None
        end in
      match iteration with
      | Some m => Some m
      | None =>
          match s with
          | String c r =>
              if Ascii.eqb c "/" || Ascii.eqb c " " then Some (String c "", r)
              else None
          | "" => None
          end
      end
  end.

(** [[\w#.+-]], the characters of a language name. *)
Definition is_lang_char (c : ascii) : bool :=
  is_word c || Ascii.eqb c "#" || Ascii.eqb c "." || Ascii.eqb c "+"
  || Ascii.eqb c "-".

(** [(.*?)q] at the head of [s], lazy: up to the first [q]; [.] takes no
    newline. *)
Fixpoint until_quote (q : ascii) (s : string) : option string :=
  match s with
  | "" => None
  | String c r =>
      if Ascii.eqb c q then Some ""
      else if Ascii.eqb c "010" then None
      else match until_quote q r with
           | Some t => Some (String c t)
           | None => None
           end
  end.

(** [hl_lines=(?P<quot>QUOTE)(?P<hl_lines>.*?)(?P=quot)] at the head of [s],
    where QUOTE is a double or a single quote. *)
Definition hl_lines_at (s : string) : option string :=
  if String.prefix "hl_lines=" s then
    match substring 9 (String.length s - 9) s with
    | String q r =>
        if Ascii.eqb q "034" || Ascii.eqb q "'" then until_quote q r else None
    | "" => None
    end
  else None.

(** What follows the shebang or the colons: the optional path, the
    language, white space, the optional [hl_lines].  Every part can match
    the empty string, so the first choice of each greedy part stands. *)
Definition header_rest (shebang : option string) (s : string) : header_match :=
  let '(path, s1) :=
    match path_at (S (String.length s)) s with
    | Some (p, r) => (Some p, r)
    | None => (None, s)
    end in
  let '(lang, s2) := span is_lang_char s1 in
  let '(_, s3) := span isspace s2 in
  {| g_shebang := shebang; g_path := path; g_lang := lang;
     g_hl_lines := hl_lines_at s3 |}.

(** [c.search(fl)] for the header pattern [c]: both alternatives start with
    [^], so only the start of [fl] can match.  The first alternative,
    [::+], is tried first and takes every colon. *)
Definition header_search (fl : string) : option header_match :=
  match fl with
  | String ":" (String ":" r) =>
      Some (header_rest None (lstrip (Ascii.eqb ":") r))
  | String "#" (String "!" r) => Some (header_rest (Some "#!") r)
  | _ => None
  end.

End Re.

(** ** Element trees *)

Module ETree.

(** [elem.tag]: the [Comment] and [ProcessingInstruction] factories, [None],
    a [str] or a [QName]. *)
Inductive tag_t : Type :=
| Comment
| ProcessingInstruction
| TagNone
| TagStr (s : string)
| TagQName (text : string).

(** An attribute key or value: a [str] or a [QName]. *)
Inductive name_t : Type :=
| Str (s : string)
| QName (text : string).

Definition name_text (n : name_t) : string :=
  match n with Str s => s | QName t => t end.

(** [xml.etree.ElementTree.Element]; [attrib] keeps the order of insertion
    of the dictionary. *)
#[warnings="-register-all"]
Inductive Element : Type :=
  mkElement {
    tag : tag_t;
    attrib : list (name_t * name_t);
    text : option string;
    tail : option string;
    children : list Element
  }.

End ETree.

(** ** [markdown/serializers.py] *)

Module Serializers.

Import PyStr Py ETree.

(** The double quote, as a string. *)
Definition dq : string := String "034" "".

Inductive format_t : Type := html | xhtml.

Definition is_html (f : format_t) : bool :=
  match f with html => true | xhtml => false end.

(** [_escape_cdata(text)]: [text] may be [None] (a comment without text);
    the [in] test then raises [TypeError], which the handler raises again
    as the [TypeError] of [_raise_serialization_error]. *)
Definition _escape_cdata (text : option string) : result string :=
  match text with
  | None => raise TypeError
  | Some text =>
      let text := if contains "&" text then Re.RE_AMP_sub "&amp;" text else text in
      let text := if contains "<" text then replace "<" "&lt;" text else text in
      ret text
  end.

Definition _escape_attrib (text : string) : result string :=
  let text := if contains "&" text then Re.RE_AMP_sub "&amp;" text else text in
  let text := if contains "<" text then replace "<" "&lt;" text else text in
  let text := if contains ">" text then replace ">" "&gt;" text else text in
  let text := if contains "034" text then replace dq "&quot;" text else text in
  let text := if contains "010" text then replace (String "010" "") "&#10;" text else text in
  ret text.

Definition _escape_attrib_html (text : string) : result string :=
  let text := if contains "&" text then Re.RE_AMP_sub "&amp;" text else text in
  let text := if contains "<" text then replace "<" "&lt;" text else text in
  let text := if contains ">" text then replace ">" "&gt;" text else text in
  let text := if contains "034" text then replace dq "&quot;" text else text in
  ret text.

(** [(k1, v1) < (k2, v2)] on tuples: the first components that differ
    decide.  A [QName] compares as its text. *)
Definition item_ltb (a b : name_t * name_t) : bool :=
  if String.eqb (name_text (fst a)) (name_text (fst b))
  then ltb (name_text (snd a)) (name_text (snd b))
  else ltb (name_text (fst a)) (name_text (fst b)).

(** [sorted(items)]: a stable sort. *)
Fixpoint insert_item (x : name_t * name_t) (l : list (name_t * name_t))
  : list (name_t * name_t) :=
  match l with
  | [] => [x]
  | y :: ys => if item_ltb y x then y :: insert_item x ys else x :: l
  end.

Definition sorted (l : list (name_t * name_t)) : list (name_t * name_t) :=
  fold_right insert_item [] l.

(** The body of the loop over the sorted items: what one attribute writes. *)
Definition write_attr (format : format_t) (item : name_t * name_t) : result string :=
  let k := name_text (fst item) in
  v <- match snd item with
       | QName t => ret t
       | Str s => _escape_attrib_html s
       end ;;
  if String.eqb k v && is_html format
  then ret (" " +:+ v)
  else ret (" " +:+ k +:+ "=" +:+ dq +:+ v +:+ dq).

Fixpoint write_attrs (format : format_t) (items : list (name_t * name_t))
  : result (list string) :=
  match items with
  | [] => ret []
  | item :: rest =>
      w <- write_attr format item ;;
      ws <- write_attrs format rest ;;
      ret (w :: ws)
  end.

(** A [QName] tag stores [{uri}tag]: the namespace and the local tag. *)
Definition split_qname (t : string) : result (option string * string) :=
  if String.eqb (first1 t) "{" then
    match split1 "}" (drop1 t) with
    | [uri; local] => ret (Some uri, local)
    | _ => raise ValueError
    end
  else raise ValueError.

Section Serialize.

(** [xml.etree.ElementTree.HTML_EMPTY], the set of the void elements. *)
Variable HTML_EMPTY : gset string.

Definition is_empty_tag (t : string) : bool := bool_decide (lower t ∈ HTML_EMPTY).

Definition is_raw_text_tag (t : string) : bool :=
  let l := lower t in String.eqb l "script" || String.eqb l "style".

(** [_serialize_html(write, elem, format)]: the result is the list of the
    strings written, in order; nothing is written when it raises. *)
Fixpoint _serialize_html (elem : Element) (format : format_t) {struct elem}
  : result (list string) :=
  let serialize_children :=
    (fix go (es : list Element) : result (list string) :=
       match es with
       | [] => ret []
       | e :: es' =>
           w <- _serialize_html e format ;;
           ws <- go es' ;;
           ret (w ++ ws)%list
       end) in
  let ordinary := fun (namespace_uri : option string) (tag : string) =>
    let w_open := ["<" +:+ tag] in
    w_items <- match attrib elem with
               | [] => ret []
               | items => write_attrs format (sorted items)
               end ;;
    w_xmlns <- (if nonempty namespace_uri
                then u <- _escape_attrib (default "" namespace_uri) ;;
                     ret [" xmlns=" +:+ dq +:+ u +:+ dq]
                else ret []) ;;
    w_rest <-
      (if negb (is_html format) && is_empty_tag tag
       then ret [" />"]
       else
         w_text <- (if nonempty (text elem)
                    then if is_raw_text_tag tag
                         then ret [default "" (text elem)]
                         else t <- _escape_cdata (text elem) ;; ret [t]
                    else ret []) ;;
         w_children <- serialize_children (children elem) ;;
         let w_close := if negb (is_empty_tag tag)
                        then ["</" +:+ tag +:+ ">"] else [] in
         ret ([">"] ++ w_text ++ w_children ++ w_close)%list) ;;
    ret (w_open ++ w_items ++ w_xmlns ++ w_rest)%list in
  body <-
    match tag elem with
    | Comment =>
        t <- _escape_cdata (text elem) ;;
        ret ["<!--" +:+ t +:+ "-->"]
    | ProcessingInstruction =>
        t <- _escape_cdata (text elem) ;;
        ret ["<?" +:+ t +:+ "?>"]
    | TagNone =>
        w_text <- (if nonempty (text elem)
                   then t <- _escape_cdata (text elem) ;; ret [t]
                   else ret []) ;;
        w_children <- serialize_children (children elem) ;;
        ret (w_text ++ w_children)%list
    | TagStr s => ordinary None s
    | TagQName t =>
        ns_tag <- split_qname t ;;
        ordinary (fst ns_tag) (snd ns_tag)
    end ;;
  w_tail <- (if nonempty (tail elem)
             then t <- _escape_cdata (tail elem) ;; ret [t]
             else ret []) ;;
  ret (body ++ w_tail)%list.

(** [_write_html(root, format)]: [data] collects the strings written and is
    joined at the end. *)
Definition _write_html (root : Element) (format : format_t) : result string :=
  data <- _serialize_html root format ;;
  ret (join "" data).

Definition to_html_string (element : Element) : result string :=
  _write_html element html.

Definition to_xhtml_string (element : Element) : result string :=
  _write_html element xhtml.

End Serialize.

End Serializers.

(** ** [markdown/extensions/codehilite.py] *)

Module CodeHilite.

Import PyStr Py ETree.

(** *** [int] of a [str], and [parse_hl_lines] *)

(** The white space [int] drops at both ends: that of C's [isspace], and the
    Unicode spaces beyond ASCII, which are first turned into blanks. *)
Definition int_space (c : ascii) : bool :=
  in_range 9 13 c || (code c =? 32)%N || (code c =? 133)%N || (code c =? 160)%N.

Definition digit_value (c : ascii) : Z := Z.of_N (code c) - 48.

(** The digits after a first digit: a digit, or an underscore and a digit,
    any number of times, to the end of the string. *)
Fixpoint digits_after (s : string) : option (list Z) :=
  match s with
  | "" => Some []
  | String c r =>
      if Re.is_digit c then
        match digits_after r with
        | Some ds => Some (digit_value c :: ds)
        | None => None
        end
      else if Ascii.eqb c "_" then
        match r with
        | String d r' =>
            if Re.is_digit d then
              match digits_after r' with
              | Some ds => Some (digit_value d :: ds)
              | None => None
              end
            else None
        | "" => None
        end
      else None
  end.

Definition decimal (ds : list Z) : Z := fold_left (fun acc d => 10 * acc + d)%Z ds 0%Z.

(** The interpreter: [sys.get_int_max_str_digits()]; 0 stands for no
    limit. *)
Class Interpreter : Type := {
  int_max_str_digits : nat
}.

(** The names the module imports from pygments; [pygments] is false when the
    import failed, and the others are then never called. *)
Class Pygments : Type := {
  pygments : bool;
  lexer : Type;
  formatter : Type;
  get_lexer_by_name : pyval -> gmap string pyval -> result lexer;
  guess_lexer : string -> gmap string pyval -> result lexer;
  aliases : lexer -> list string;
  get_formatter_by_name : string -> gmap string pyval -> result formatter;
  call_formatter : pyval -> string -> gmap string pyval -> result formatter;
  highlight : string -> lexer -> formatter -> result string
}.

(** A call into pygments, with its arguments. *)
Inductive ext_call : Type :=
| Call_get_lexer_by_name (alias : pyval) (opts : gmap string pyval)
| Call_guess_lexer (text : string) (opts : gmap string pyval)
| Call_get_formatter_by_name (name : string) (opts : gmap string pyval)
| Call_formatter (f : pyval) (lang_str : string) (opts : gmap string pyval)
| Call_highlight (code : string).

Section Env.

Context {interp : Interpreter} {pyg : Pygments}.

(** [int(s)] for a [str]: a sign, then digits in base ten with single
    underscores between them.  It raises [ValueError] on anything else, and
    on more digits than the limit. *)
Definition int (s : string) : result Z :=
  let s := strip int_space s in
  let '(negative, body) :=
    match s with
    | String "-" r => (true, r)
    | String "+" r => (false, r)
    | _ => (false, s)
    end in
  match body with
  | String c r =>
      if Re.is_digit c then
        match digits_after r with
        | Some ds =>
            if ((0 <? int_max_str_digits) && (int_max_str_digits <? S (length ds)))%nat
            then raise ValueError
            else let v := decimal (digit_value c :: ds) in
                 ret (if negative then (- v)%Z else v)
        | None => raise ValueError
        end
      else raise ValueError
  | "" => raise ValueError
  end.

(** [list(map(int, tokens))]: the first token that is no integer raises. *)
Fixpoint map_int (tokens : list string) : result (list Z) :=
  match tokens with
  | [] => ret []
  | t :: rest =>
      v <- int t ;;
      vs <- map_int rest ;;
      ret (v :: vs)
  end.

(** [parse_hl_lines(expr)]; [expr] is [None] when the group [hl_lines] took
    no part in the match. *)
Definition parse_hl_lines (expr : option string) : result (list Z) :=
  if negb (nonempty expr) then ret []
  else try_except (map_int (words (default "" expr))) is_ValueError (ret []).

(** *** The class [CodeHilite] *)

(** The attributes of a [CodeHilite] object. *)
Record CodeHilite : Type := mkCodeHilite {
  src : string;
  lang : pyval;
  guess_lang : pyval;
  use_pygments : pyval;
  lang_prefix : pyval;
  pygments_formatter : pyval;
  options : gmap string pyval
}.

Definition set_src (v : string) (self : CodeHilite) : CodeHilite :=
  mkCodeHilite v (lang self) (guess_lang self) (use_pygments self)
    (lang_prefix self) (pygments_formatter self) (options self).

Definition set_lang (v : pyval) (self : CodeHilite) : CodeHilite :=
  mkCodeHilite (src self) v (guess_lang self) (use_pygments self)
    (lang_prefix self) (pygments_formatter self) (options self).

Definition set_option (k : string) (v : pyval) (self : CodeHilite) : CodeHilite :=
  mkCodeHilite (src self) (lang self) (guess_lang self) (use_pygments self)
    (lang_prefix self) (pygments_formatter self) (<[k := v]> (options self)).

(** [d.pop(k, default)]: the value, and the dictionary without the key. *)
Definition pop (k : string) (dflt : pyval) (d : gmap string pyval)
  : pyval * gmap string pyval :=
  (default dflt (d !! k), delete k d).

(** [CodeHilite.__init__(self, src, **options)]. *)
Definition __init__ (src : string) (options : gmap string pyval) : CodeHilite :=
  let '(lang, options) := pop "lang" PNone options in
  let '(guess_lang, options) := pop "guess_lang" (PBool true) options in
  let '(use_pygments, options) := pop "use_pygments" (PBool true) options in
  let '(lang_prefix, options) := pop "lang_prefix" (PStr "language-") options in
  let '(pygments_formatter, options) := pop "pygments_formatter" (PStr "html") options in
  let options :=
    match options !! "linenos" with
    | Some _ => options
    | None => let '(v, options) := pop "linenums" PNone options in
              <["linenos" := v]> options
    end in
  let options :=
    match options !! "cssclass" with
    | Some _ => options
    | None => let '(v, options) := pop "css_class" (PStr "codehilite") options in
              <["cssclass" := v]> options
    end in
  let options :=
    match options !! "wrapcode" with
    | Some _ => options
    | None => <["wrapcode" := PBool true]> options
    end in
  let options := <["full" := PBool false]> options in
  mkCodeHilite src lang guess_lang use_pygments lang_prefix pygments_formatter options.

(** The call [CodeHilite(src, **options)]: the keywords are bound to the
    parameters of [__init__(self, src, **options)]; one named [self] or
    [src] is a second value for a parameter that was given by position, a
    [TypeError]. *)
Definition CodeHilite_call (src : string) (options : gmap string pyval)
  : result CodeHilite :=
  match options !! "self", options !! "src" with
  | None, None => ret (__init__ src options)
  | _, _ => raise TypeError
  end.

(** [self.options[k]]. *)
Definition option_of (k : string) (self : CodeHilite) : result pyval :=
  match options self !! k with
  | Some v => ret v
  | None => raise KeyError
  end.

(** [CodeHilite._parseHeader(self)]. *)
Definition _parseHeader : M CodeHilite unit :=
  self <~ get ;;
  let lines := split nl (src self) in
  match lines with
  | [] => mraise IndexError
  | fl :: lines =>
      lines <~
        match Re.header_search fl with
        | Some m =>
            modify (set_lang (PStr (lower (Re.g_lang m)))) ;;;
            let lines := if nonempty (Re.g_path m) then fl :: lines else lines in
            self <~ get ;;
            linenos <~ lift (option_of "linenos" self) ;;
            (if is_None linenos && nonempty (Re.g_shebang m)
             then modify (set_option "linenos" (PBool true))
             else mret tt) ;;;
            hl <~ lift (parse_hl_lines (Re.g_hl_lines m)) ;;
            modify (set_option "hl_lines" (PInts hl)) ;;;
            mret lines
        | None => mret (fl :: lines)
        end ;;
      modify (set_src (strip is_nl (join (String nl "") lines)))
  end.

(** A step on the object alone, in a computation that also records the
    calls into pygments. *)
Definition on_self {A} (m : M CodeHilite A) : M (CodeHilite * list ext_call) A :=
  fun st => let '(self', r) := m (fst st) in ((self', snd st), r).

(** A call into pygments: recorded, then its result. *)
Definition call {A} (c : ext_call) (r : result A) : M (CodeHilite * list ext_call) A :=
  fun st => ((fst st, (snd st ++ [c])%list), r).

Definition is_ClassNotFound (e : exn) : bool :=
  match e with ClassNotFound => true | _ => false end.

Definition dq : string := Serializers.dq.

(** The branch of [hilite] that calls pygments. *)
Definition hilite_pygments : M (CodeHilite * list ext_call) string :=
  st <~ get ;;
  let self := fst st in
  lexer <~
    mtry (call (Call_get_lexer_by_name (lang self) (options self))
            (get_lexer_by_name (lang self) (options self)))
      is_ValueError
      (mtry (if truthy (guess_lang self)
             then call (Call_guess_lexer (src self) (options self))
                    (guess_lexer (src self) (options self))
             else call (Call_get_lexer_by_name (PStr "text") (options self))
                    (get_lexer_by_name (PStr "text") (options self)))
         is_ValueError
         (call (Call_get_lexer_by_name (PStr "text") (options self))
            (get_lexer_by_name (PStr "text") (options self)))) ;;
  st <~ get ;;
  (if negb (truthy (lang (fst st)))
   then match aliases lexer with
        | a :: _ => on_self (modify (set_lang (PStr a)))
        | [] => mraise IndexError
        end
   else mret tt) ;;;
  st <~ get ;;
  let self := fst st in
  let lang_str := str (lang_prefix self) +:+ str (lang self) in
  formatter <~
    match pygments_formatter self with
    | PStr name =>
        mtry (call (Call_get_formatter_by_name name (options self))
                (get_formatter_by_name name (options self)))
          is_ClassNotFound
          (call (Call_get_formatter_by_name "html" (options self))
             (get_formatter_by_name "html" (options self)))
    | f => call (Call_formatter f lang_str (options self))
             (call_formatter f lang_str (options self))
    end ;;
  call (Call_highlight (src self)) (highlight (src self) lexer formatter).

(** The other branch: escape, and build markup for a highlighter in
    JavaScript. *)
Definition hilite_plain : M (CodeHilite * list ext_call) string :=
  st <~ get ;;
  let self := fst st in
  let txt := replace "&" "&amp;" (src self) in
  let txt := replace "<" "&lt;" txt in
  let txt := replace ">" "&gt;" txt in
  let txt := replace dq "&quot;" txt in
  let classes := [] in
  let classes := if truthy (lang self)
                 then (classes ++ [str (lang_prefix self) +:+ str (lang self)])%list
                 else classes in
  linenos <~ lift (option_of "linenos" self) ;;
  let classes := if truthy linenos then (classes ++ ["linenums"])%list else classes in
  let class_str := match classes with
                   | [] => ""
                   | _ => " class=" +:+ dq +:+ join " " classes +:+ dq
                   end in
  cssclass <~ lift (option_of "cssclass" self) ;;
  mret ("<pre class=" +:+ dq +:+ str cssclass +:+ dq +:+ "><code" +:+ class_str
        +:+ ">" +:+ txt +:+ String nl "</code></pre>" +:+ String nl "").

(** [CodeHilite.hilite(self, shebang)]. *)
Definition hilite (shebang : bool) : M (CodeHilite * list ext_call) string :=
  on_self (self <~ get ;; modify (set_src (strip is_nl (src self)))) ;;;
  st <~ get ;;
  (if is_None (lang (fst st)) && shebang then on_self _parseHeader else mret tt) ;;;
  st <~ get ;;
  if pygments && truthy (use_pygments (fst st))
  then hilite_pygments
  else hilite_plain.

(** *** The tree processor *)

(** [HiliteTreeprocessor.code_unescape(self, text)]; a [text] that is [None]
    has no [replace]. *)
Definition code_unescape (text : option string) : result string :=
  match text with
  | None => raise AttributeError
  | Some text =>
      let text := replace "&lt;" "<" text in
      let text := replace "&gt;" ">" text in
      let text := replace "&amp;" "&" text in
      ret text
  end.

(** The elements are objects that the tree processor changes in place: an
    element is known by its reference, and [children] holds references. *)
Definition loc : Type := nat.

Record node : Type := mkNode {
  n_tag : tag_t;
  n_attrib : list (name_t * name_t);
  n_text : option string;
  n_tail : option string;
  n_children : list loc
}.

Definition heap : Type := loc -> node.

Definition update (h : heap) (l : loc) (nd : node) : heap :=
  fun l' => if Nat.eqb l' l then nd else h l'.

(** [elem.tag == name]: a [QName] is equal to its text. *)
Definition tag_eqb (t : tag_t) (name : string) : bool :=
  match t with
  | TagStr s => String.eqb s name
  | TagQName s => String.eqb s name
  | _ => false
  end.

(** What [run] can change: the elements, the blocks of [md.htmlStash], and
    the record of the calls into pygments. *)
Record world : Type := mkWorld {
  elems : heap;
  rawHtmlBlocks : list string;
  calls : list ext_call
}.

(** The [Markdown] instance [self.md], as far as [run] reads it. *)
Class Markdown : Type := {
  tab_length : Z;
  get_placeholder : nat -> string
}.

Context {md : Markdown}.

(** Modelled from the spec: [md.htmlStash.store], of [markdown/util.py].
    It appends the fragment and returns the placeholder token that embeds
    the index of the fragment, its place in the order of insertion. *)
Definition store (html : string) : M world string :=
  fun w =>
    (mkWorld (elems w) (rawHtmlBlocks w ++ [html])%list (calls w),
     inr (get_placeholder (length (rawHtmlBlocks w)))).

(** The keyword arguments of a call [f(k1=v1, ..., **d)]: a key given twice
    is a [TypeError]. *)
Fixpoint keywords (given : list (string * pyval)) (d : gmap string pyval)
  : result (gmap string pyval) :=
  match given with
  | [] => ret d
  | (k, v) :: rest =>
      d' <- keywords rest d ;;
      match d' !! k with
      | Some _ => raise TypeError
      | None => ret (<[k := v]> d')
      end
  end.

(** [code.hilite()] on a fresh object; the calls are added to the record. *)
Definition hilite_in_world (code : CodeHilite) : M world string :=
  fun w =>
    let '((_, calls'), r) := hilite true (code, calls w) in
    (mkWorld (elems w) (rawHtmlBlocks w) calls', r).

Definition set_elem (l : loc) (nd : node) : M world unit :=
  modify (fun w => mkWorld (update (elems w) l nd) (rawHtmlBlocks w) (calls w)).

(** [for c in cs: yield from visit(c)], until one raises. *)
Fixpoint for_each (visit : loc -> world -> option (world * result unit))
  (cs : list loc) (w : world) : option (world * result unit) :=
  match cs with
  | [] => Some (w, inr tt)
  | c :: cs' =>
      match visit c w with
      | Some (w', inr _) => for_each visit cs' w'
      | other => other
      end
  end.

Section Run.

(** [self.config]. *)
Variable config : gmap string pyval.

(** The body of the loop of [run], for the element [block]. *)
Definition loop_body (block : loc) : M world unit :=
  w <~ get ;;
  match n_children (elems w block) with
  | [child] =>
      if tag_eqb (n_tag (elems w child)) "code" then
        let local_config := config in
        text <~ lift (code_unescape (n_text (elems w child))) ;;
        let '(style, local_config) := pop "pygments_style" (PStr "default") local_config in
        kwargs <~ lift (keywords [("tab_length", PInt tab_length); ("style", style)]
                          local_config) ;;
        code <~ lift (CodeHilite_call text kwargs) ;;
        html <~ hilite_in_world code ;;
        placeholder <~ store html ;;
        set_elem block (mkNode (TagStr "p") [] (Some placeholder) None [])
      else mret tt
  | _ => mret tt
  end.

(** [for block in e.iter('pre'): body].  The generator yields [e] when its
    tag is [pre], the body of the loop runs, and only then does the
    generator read the children of [e] and go on into each of them, in
    order.  [None]: the fuel did not reach the leaves. *)
Fixpoint iter_pre (fuel : nat) (e : loc) (w : world) : option (world * result unit) :=
  match fuel with
  | O => None
  | S fuel' =>
      let '(w1, r) :=
        (if tag_eqb (n_tag (elems w e)) "pre" then loop_body e else mret tt) w in
      match r with
      | inl ex => Some (w1, inl ex)
      | inr _ => for_each (iter_pre fuel') (n_children (elems w1 e)) w1
      end
  end.

(** [HiliteTreeprocessor.run(self, root)]. *)
Definition run (fuel : nat) (root : loc) (w : world) : option (world * result unit) :=
  iter_pre fuel root w.

End Run.

End Env.

End CodeHilite.

(** ** Concrete surroundings, for the examples *)

Module Examples.

Import Py CodeHilite.

(** The default limit of CPython on the digits of an [int]. *)
Definition interp_default : Interpreter := {| int_max_str_digits := 4300 |}.

(** The import of pygments failed. *)
Definition pygments_missing : Pygments :=
  {| pygments := false;
     lexer := unit;
     formatter := unit;
     get_lexer_by_name := fun _ _ => inl ClassNotFound;
     guess_lexer := fun _ _ => inl ClassNotFound;
     aliases := fun _ => [];
     get_formatter_by_name := fun _ _ => inl ClassNotFound;
     call_formatter := fun _ _ _ => inl TypeError;
     highlight := fun _ _ _ => inl TypeError |}.

(** A pygments that knows every alias but [None] and wraps the code in a
    [div]. *)
Definition pygments_stub : Pygments :=
  {| pygments := true;
     lexer := string;
     formatter := string;
     get_lexer_by_name := fun alias _ =>
       match alias with PStr a => inr a | _ => inl ClassNotFound end;
     guess_lexer := fun _ _ => inr "text";
     aliases := fun l => [l];
     get_formatter_by_name := fun name _ => inr name;
     call_formatter := fun _ _ _ => inl TypeError;
     highlight := fun code l f => inr ("<div>" +:+ code +:+ "</div>") |}.

(** A [Markdown] with the tab length 4 and placeholders that show the
    index. *)
Definition md_default : Markdown :=
  {| tab_length := 4;
     get_placeholder := fun i => "wzxhzdk:" +:+ str_of_int (Z.of_nat i) |}.

(** [HTML_EMPTY] as CPython 3.11 has it. *)
Definition HTML_EMPTY : gset string :=
  list_to_set ["area"; "base"; "basefont"; "br"; "col"; "embed"; "frame"; "hr";
               "img"; "input"; "isindex"; "link"; "meta"; "param"; "source";
               "track"; "wbr"].

End Examples.

(** * Properties *)

(** ** Strings *)

Module Spec.

Import PyStr.

(** [flat f s]: every character [c] of [s] replaced by the string [f c]. *)
Fixpoint flat (f : ascii -> string) (s : string) : string :=
  match s with
  | "" => ""
  | String c r => f c +:+ flat f r
  end.

(** The keys that [CodeHilite.__init__] always sets in [options]. *)
Definition has_keys (self : CodeHilite.CodeHilite) : Prop :=
  is_Some (CodeHilite.options self !! "linenos")
  /\ is_Some (CodeHilite.options self !! "cssclass").

(** The escaping of the fallback of [hilite]: [&], [<], [>] and the double
    quote, in that order. *)
Definition escape_code (s : string) : string :=
  PyStr.replace Serializers.dq "&quot;"
    (PyStr.replace ">" "&gt;" (PyStr.replace "<" "&lt;" (PyStr.replace "&" "&amp;" s))).

(** The classes of the [code] element: the prefix and the language when a
    language is known, [linenums] when line numbering is on. *)
Definition code_classes (self : CodeHilite.CodeHilite) (linenos : Py.pyval) : list string :=
  ((if Py.truthy (CodeHilite.lang self)
    then [Py.str (CodeHilite.lang_prefix self) +:+ Py.str (CodeHilite.lang self)]
    else [])
   ++ (if Py.truthy linenos then ["linenums"] else []))%list.

(** The markup of the fallback: a [pre] with the class [cssclass] around a
    [code] with the classes [classes], if any, around [txt] and a newline. *)
Definition fallback_markup (cssclass : string) (classes : list string) (txt : string)
  : string :=
  "<pre class=" +:+ Serializers.dq +:+ cssclass +:+ Serializers.dq +:+ "><code"
  +:+ match classes with
      | [] => ""
      | _ => " class=" +:+ Serializers.dq +:+ PyStr.join " " classes +:+ Serializers.dq
      end
  +:+ ">" +:+ txt +:+ String PyStr.nl "</code></pre>" +:+ String PyStr.nl "".

(** What a step of [hilite] may do to the object: it keeps the source and
    the options, and a language that is known. *)
Definition settles (a b : CodeHilite.CodeHilite) : Prop :=
  CodeHilite.src b = CodeHilite.src a
  /\ CodeHilite.options b = CodeHilite.options a
  /\ (Py.truthy (CodeHilite.lang a) = true -> CodeHilite.lang b = CodeHilite.lang a).

Definition settling {A} (m : Py.M (CodeHilite.CodeHilite * list CodeHilite.ext_call) A)
  (st : CodeHilite.CodeHilite * list CodeHilite.ext_call) : Prop :=
  settles (fst st) (fst (fst (m st))).

(** Every [&] of [s] starts a character reference: [&#NNN;], [&#xHHH;] or
    [&name;]. *)
Fixpoint amp_ok (s : string) : bool :=
  match s with
  | "" => true
  | String c r => (if Ascii.eqb c "&" then Re.reference_at r else true) && amp_ok r
  end.

(** A character that can stand in the body of a reference, or end it. *)
Definition is_reference_char (c : ascii) : bool :=
  Re.is_alnum_i c || Ascii.eqb c "#" || Ascii.eqb c ";".

Definition starts_semi (s : string) : bool :=
  match s with String d _ => Ascii.eqb d ";" | "" => false end.

(** A rewriting of strings that keeps the characters of references where
    they are. *)
Definition keeps_references (T : string -> string) : Prop :=
  forall c r, is_reference_char c = true -> T (String c r) = String c (T r).

(** The escaping of [_escape_cdata], without its tests for the characters. *)
Definition escape_cdata (s : string) : string :=
  PyStr.replace "<" "&lt;" (Re.RE_AMP_sub "&amp;" s).

(** The escaping of [_escape_attrib_html], without its tests. *)
Definition escape_attrib_html (s : string) : string :=
  PyStr.replace Serializers.dq "&quot;"
    (PyStr.replace ">" "&gt;" (PyStr.replace "<" "&lt;" (Re.RE_AMP_sub "&amp;" s))).

(** The escaping of [_escape_attrib], without its tests. *)
Definition escape_attrib (s : string) : string :=
  PyStr.replace (String PyStr.nl "") "&#10;" (escape_attrib_html s).

(** What one attribute writes, and what the attributes of an element
    write: sorted, one string each. *)
Definition attr_str (format : Serializers.format_t) (item : ETree.name_t * ETree.name_t)
  : string :=
  let k := ETree.name_text (fst item) in
  let v := match snd item with
           | ETree.QName t => t
           | ETree.Str s => escape_attrib_html s
           end in
  if String.eqb k v && Serializers.is_html format
  then " " +:+ v
  else " " +:+ k +:+ "=" +:+ Serializers.dq +:+ v +:+ Serializers.dq.

Definition attrs_str (format : Serializers.format_t)
  (items : list (ETree.name_t * ETree.name_t)) : list string :=
  map (attr_str format) (Serializers.sorted items).

(** What a text or a tail writes: nothing when it is [None] or empty. *)
Definition text_str (raw : bool) (text : option string) : list string :=
  match text with
  | Some (String c r) => [if raw then String c r else escape_cdata (String c r)]
  | _ => []
  end.

(** What the namespace of a [QName] tag writes. *)
Definition xmlns_str (namespace_uri : option string) : list string :=
  match namespace_uri with
  | Some (String c r) =>
      [" xmlns=" +:+ Serializers.dq +:+ escape_attrib (String c r) +:+ Serializers.dq]
  | _ => []
  end.

(** The tag of an ordinary element: a [str], or a [QName] that holds a
    namespace and a local tag. *)
Definition ordinary_tag (tg : ETree.tag_t) (namespace_uri : option string) (t : string)
  : Prop :=
  (tg = ETree.TagStr t /\ namespace_uri = None)
  \/ (exists q, tg = ETree.TagQName q /\ Serializers.split_qname q = inr (namespace_uri, t)).

Section SerializeAll.

Variable HTML_EMPTY : gset string.
Variable format : Serializers.format_t.

(** The children, serialized one after the other. *)
Fixpoint serialize_all (es : list ETree.Element) : Py.result (list string) :=
  match es with
  | [] => Py.ret []
  | e :: es' =>
      w <- Serializers._serialize_html HTML_EMPTY e format ;;
      ws <- serialize_all es' ;;
      Py.ret (w ++ ws)%list
  end.

End SerializeAll.



(** The namespace and the local tag of an ordinary element, when its tag
    holds them. *)
Definition tag_name (tg : ETree.tag_t) : option (option string * string) :=
  match tg with
  | ETree.TagStr s => Some (None, s)
  | ETree.TagQName q =>
      match Serializers.split_qname q with
      | inr p => Some p
      | inl _ => None
      end
  | _ => None
  end.

Section Markup.

Variable HTML_EMPTY : gset string.
Variable format : Serializers.format_t.




End Markup.

(** How many times the characters [<], [>] and the double quote occur. *)
Definition count_lt (s : string) : nat := PyStr.count "<" s.
Definition count_gt (s : string) : nat := PyStr.count ">" s.
Definition count_dq (s : string) : nat := PyStr.count "034" s.


(** Replace the character [c] by [new], keep the others. *)
Definition subst1 (c : ascii) (new : string) (a : ascii) : string :=
  if Ascii.eqb a c then new else String a "".

(** The three entities of the fallback of [hilite], character by
    character, and what is left of them after [&lt;] and after [&gt;] were
    decoded. *)
Definition enc_amp_lt_gt (c : ascii) : string :=
  if Ascii.eqb c "&" then "&amp;"
  else if Ascii.eqb c "<" then "&lt;"
  else if Ascii.eqb c ">" then "&gt;"
  else String c "".

Definition enc_amp_gt (c : ascii) : string :=
  if Ascii.eqb c "&" then "&amp;"
  else if Ascii.eqb c ">" then "&gt;"
  else String c "".

Definition enc_amp (c : ascii) : string :=
  if Ascii.eqb c "&" then "&amp;" else String c "".

Section Processor.

Import CodeHilite.

Context {interp : Interpreter} {pyg : Pygments} {md : Markdown}.

Variable config : gmap string Py.pyval.

(** The test of [run] on a block: it has one child, and the tag of the
    child is [code]. *)
Definition is_single_code (h : heap) (e : loc) : bool :=
  match n_children (h e) with
  | [c] => tag_eqb (n_tag (h c)) "code"
  | _ => false
  end.

(** The elements [run] looks for: the tag is [pre], and the only child has
    the tag [code]. *)
Definition is_code_block (h : heap) (x : loc) : bool :=
  tag_eqb (n_tag (h x)) "pre" && is_single_code h x.

(** What a code block is turned into: a [p] without attributes, tail and
    children, whose text is the placeholder. *)
Definition stub (placeholder : string) : node :=
  mkNode (ETree.TagStr "p") [] (Some placeholder) None [].

(** [html] is the highlighted fragment of the code block [x] of [h]: what
    [hilite] returns for the unescaped text of its child, with the
    configuration of the tree processor. *)
Definition fragment_of (h : heap) (x : loc) (html : string) : Prop :=
  exists c text kwargs code st st',
    n_children (h x) = [c]
    /\ code_unescape (n_text (h c)) = inr text
    /\ keywords [("tab_length", Py.PInt tab_length);
                 ("style", fst (pop "pygments_style" (Py.PStr "default") config))]
         (snd (pop "pygments_style" (Py.PStr "default") config)) = inr kwargs
    /\ CodeHilite_call text kwargs = inr code
    /\ hilite true (code, st) = (st', inr html).

(** The code block [x] of [w0] is, in [w'], the stub of a fragment that the
    stash holds. *)
Definition stashed (w0 w' : world) (x : loc) : Prop :=
  exists i html,
    elems w' x = stub (get_placeholder i)
    /\ rawHtmlBlocks w' !! i = Some html
    /\ fragment_of (elems w0) x html.

(** From [w0] to [w']: an element is as it was, or it was a code block and
    is now stashed; the stash has only grown. *)
Definition evolves (w0 w' : world) : Prop :=
  (forall x, elems w' x = elems w0 x
             \/ (is_code_block (elems w0) x = true /\ stashed w0 w' x))
  /\ exists more, rawHtmlBlocks w' = (rawHtmlBlocks w0 ++ more)%list.

(** The elements the iteration from [e] comes to: [e], and what is below
    it, but not what is below a code block. *)
Inductive visited (h : heap) : loc -> loc -> Prop :=
| visited_here (e : loc) : visited h e e
| visited_below (e c x : loc) :
    is_code_block h e = false ->
    In c (n_children (h e)) ->
    visited h c x ->
    visited h e x.

(** The tree below [e] has at most [n] levels. *)
Inductive shallow (h : heap) : nat -> loc -> Prop :=
| shallow_node (n : nat) (e : loc) :
    (forall c, In c (n_children (h e)) -> shallow h n c) ->
    shallow h (S n) e.

(** Every child that [run] unescapes has a text. *)
Definition texts_present (h : heap) : Prop :=
  forall x c, is_code_block h x = true -> n_children (h x) = [c] -> n_text (h c) <> None.

(** The element [l] after a run that returned. *)
Definition after (r : option (world * Py.result unit)) (l : loc) : option node :=
  match r with
  | Some (w, inr _) => Some (elems w l)
  | _ => None
  end.

End Processor.

(** A tree for the examples: a [div] over a code block with a tail and over
    a [pre] with two children; the [code] of the block holds another code
    block. *)
Definition heap_example : CodeHilite.heap :=
  fun l =>
    match l with
    | 0 => CodeHilite.mkNode (ETree.TagStr "div") [] None None [1; 4]
    | 1 => CodeHilite.mkNode (ETree.TagStr "pre") [(ETree.Str "id", ETree.Str "a")]
             None (Some "tail") [2]
    | 2 => CodeHilite.mkNode (ETree.TagStr "code") [] (Some "a &lt; b") None [3]
    | 3 => CodeHilite.mkNode (ETree.TagStr "pre") [] None None [5]
    | 4 => CodeHilite.mkNode (ETree.TagStr "pre") [] None None [6; 7]
    | 5 => CodeHilite.mkNode (ETree.TagStr "code") [] (Some "x") None []
    | _ => CodeHilite.mkNode (ETree.TagStr "code") [] None None []
    end.

Definition world_example : CodeHilite.world :=
  CodeHilite.mkWorld heap_example [] [].

(** The same tree after [run] without pygments: the outer code block is a
    stub, and its fragment is in the stash. *)
Definition world_after : CodeHilite.world :=
  CodeHilite.mkWorld
    (CodeHilite.update heap_example 1 (stub "wzxhzdk:0"))
    [fallback_markup "codehilite" [] "a &lt; b"]
    [].

End Spec.

(** ** Further notions, for the properties beyond the specification *)

Module More.

(** Every character of [s] is in the class [p]. *)
Fixpoint all_in (p : ascii -> bool) (s : string) : bool :=
  match s with
  | "" => true
  | String c r => p c && all_in p r
  end.

(** A language name as the header pattern reads it: not empty, of word
    characters and [#.+-]. *)
Definition is_lang_name (name : string) : bool :=
  negb (String.eqb name "") && all_in Re.is_lang_char name.

(** A value between quotes [q]: it holds no [q] and no newline. *)
Definition is_quotable (q : ascii) (v : string) : bool :=
  all_in (fun c => negb (Ascii.eqb c q) && negb (Ascii.eqb c "010")) v.

(** A header line without a path: [#!] or two colons and [colons] more, the
    language name, and [hl_lines] between quotes [q] when [hl] gives a
    value. *)
Definition header_line (colons : option string) (name : string)
  (hl : option (ascii * string)) : string :=
  match colons with
  | None => "#!"
  | Some cs => "::" +:+ cs
  end
  +:+ name
  +:+ match hl with
      | None => ""
      | Some (q, v) => " hl_lines=" +:+ String q (v +:+ String q "")
      end.

(** The parts of a header line are what the pattern expects them to be. *)
Definition is_header_line (colons : option string) (name : string)
  (hl : option (ascii * string)) : bool :=
  match colons with
  | None => true
  | Some cs => all_in (Ascii.eqb ":") cs
  end
  && is_lang_name name
  && match hl with
     | None => true
     | Some (q, v) => (Ascii.eqb q "034" || Ascii.eqb q "'") && is_quotable q v
     end.

(** A directory of a path, the word after a [/]: not empty, of word
    characters. *)
Definition is_dir (d : string) : bool :=
  negb (String.eqb d "") && all_in Re.is_word d.

(** A path as the header pattern reads it: the directories, a [/] before
    each, and a last [/] or a blank. *)
Definition path_of (dirs : list string) (sep : ascii) : string :=
  fold_right (fun d p => "/" +:+ d +:+ p) (String sep "") dirs.

Definition is_path (dirs : list string) (sep : ascii) : bool :=
  forallb is_dir dirs && (Ascii.eqb sep "/" || Ascii.eqb sep " ").

(** A call into pygments that was given the source and the options of the
    object [self], where it takes them. *)
Definition call_of (self : CodeHilite.CodeHilite) (c : CodeHilite.ext_call) : Prop :=
  match c with
  | CodeHilite.Call_get_lexer_by_name _ opts => opts = CodeHilite.options self
  | CodeHilite.Call_guess_lexer text opts =>
      text = CodeHilite.src self /\ opts = CodeHilite.options self
  | CodeHilite.Call_get_formatter_by_name _ opts => opts = CodeHilite.options self
  | CodeHilite.Call_formatter _ _ opts => opts = CodeHilite.options self
  | CodeHilite.Call_highlight code => code = CodeHilite.src self
  end.

(** A step of [hilite] that keeps the source and the options, and only adds
    calls that were given them. *)
Definition passes {A} (m : Py.M (CodeHilite.CodeHilite * list CodeHilite.ext_call) A)
  (st : CodeHilite.CodeHilite * list CodeHilite.ext_call) : Prop :=
  Spec.settles (fst st) (fst (fst (m st)))
  /\ exists more, snd (fst (m st)) = (snd st ++ more)%list
                  /\ Forall (call_of (fst st)) more.

(** The value of an attribute as it is written, and the test for a boolean
    attribute: the key is equal to that value. *)
Definition written_value (item : ETree.name_t * ETree.name_t) : string :=
  match snd item with
  | ETree.QName t => t
  | ETree.Str s => Spec.escape_attrib_html s
  end.

Definition is_boolean (item : ETree.name_t * ETree.name_t) : bool :=
  String.eqb (ETree.name_text (fst item)) (written_value item).

Section Formats.

Variable HTML_EMPTY : gset string.

(** A tree without what the two formats write differently: no void element
    and no boolean attribute. *)
Fixpoint format_free (e : ETree.Element) : bool :=
  match e with
  | ETree.mkElement tg attrs _ _ kids =>
      match Spec.tag_name tg with
      | Some (_, t) =>
          negb (Serializers.is_empty_tag HTML_EMPTY t)
          && forallb (fun item => negb (is_boolean item)) attrs
      | None => true
      end
      && forallb format_free kids
  end.

End Formats.

Section Returns.

Variable HTML_EMPTY : gset string.
Variable format : Serializers.format_t.

(** What the serializer returns on: a comment or a processing instruction
    has a text, a [QName] tag holds a namespace and a local tag, and so
    for the children that are written: those of a void element are not, in
    XHTML mode, and neither are those of a comment or a processing
    instruction. *)
Fixpoint returns_on (e : ETree.Element) : bool :=
  match e with
  | ETree.mkElement tg _ text _ kids =>
      match tg with
      | ETree.Comment | ETree.ProcessingInstruction =>
          match text with Some _ => true | None => false end
      | ETree.TagNone => forallb returns_on kids
      | _ =>
          match Spec.tag_name tg with
          | Some (_, t) =>
              negb (Serializers.is_html format) && Serializers.is_empty_tag HTML_EMPTY t
              || forallb returns_on kids
          | None => false
          end
      end
  end.

End Returns.

(** A tree without a code block: a [div] over a [pre] without children and
    over a [code]. *)
Definition heap_plain : CodeHilite.heap :=
  fun l =>
    match l with
    | 0 => CodeHilite.mkNode (ETree.TagStr "div") [] None None [1; 2]
    | 1 => CodeHilite.mkNode (ETree.TagStr "pre") [] (Some "x") None []
    | _ => CodeHilite.mkNode (ETree.TagStr "code") [] (Some "y") None []
    end.

Definition world_plain : CodeHilite.world :=
  CodeHilite.mkWorld heap_plain ["<b>kept</b>"] [].

(** The configuration holds a key that [run] gives itself in the call of
    [CodeHilite], by keyword ([tab_length], [style]) or by position
    ([self], [src]). *)
Definition given_twice (config : gmap string Py.pyval) : Prop :=
  is_Some (config !! "tab_length") \/ is_Some (config !! "style")
  \/ is_Some (config !! "src") \/ is_Some (config !! "self").

(** A [div] over two code blocks; the [code] of the second has no text. *)
Definition heap_textless : CodeHilite.heap :=
  fun l =>
    match l with
    | 0 => CodeHilite.mkNode (ETree.TagStr "div") [] None None [1; 3]
    | 1 => CodeHilite.mkNode (ETree.TagStr "pre") [] None None [2]
    | 2 => CodeHilite.mkNode (ETree.TagStr "code") [] (Some "ok") None []
    | 3 => CodeHilite.mkNode (ETree.TagStr "pre") [] None None [4]
    | _ => CodeHilite.mkNode (ETree.TagStr "code") [] None None []
    end.

Definition world_textless : CodeHilite.world :=
  CodeHilite.mkWorld heap_textless [] [].

(** The same tree when [run] has raised at the second block: the first is
    a stub, and its fragment is in the stash. *)
Definition world_textless_after : CodeHilite.world :=
  CodeHilite.mkWorld
    (CodeHilite.update heap_textless 1 (Spec.stub "wzxhzdk:0"))
    [Spec.fallback_markup "codehilite" [] "ok"]
    [].

End More.

Import PyStr Py.

Lemma append_nil_r (s : string) : s +:+ "" = s.
Proof. induction s as [|a s IH]; simpl; [reflexivity | now rewrite IH]. Qed.

Lemma append_assoc (a b c : string) : (a +:+ b) +:+ c = a +:+ (b +:+ c).
Proof. induction a as [|x a IH]; simpl; [reflexivity | now rewrite IH]. Qed.

Lemma append_cons (a : ascii) (s t : string) : String a s +:+ t = String a (s +:+ t).
Proof. reflexivity. Qed.

Lemma count_app (c : ascii) (a b : string) : count c (a +:+ b) = count c a + count c b.
Proof. induction a as [|x a IH]; simpl; [reflexivity | rewrite IH; lia]. Qed.

Lemma contains_count (c : ascii) (s : string) : contains c s = false <-> count c s = 0.
Proof.
  induction s as [|a s IH]; simpl; [tauto|].
  destruct (Ascii.eqb a c); simpl; [split; [discriminate | lia] | exact IH].
Qed.

Lemma flat_app (f : ascii -> string) (a b : string) :
  Spec.flat f (a +:+ b) = Spec.flat f a +:+ Spec.flat f b.
Proof.
  induction a as [|x a IH]; simpl; [reflexivity|].
  now rewrite IH, append_assoc.
Qed.

Lemma flat_id (s : string) : Spec.flat (fun a => String a "") s = s.
Proof. induction s as [|a s IH]; simpl; [reflexivity | now rewrite IH]. Qed.

Lemma prefix_single (c a : ascii) (r : string) :
  String.prefix (String c "") (String a r) = Ascii.eqb a c.
Proof.
  simpl. destruct (ascii_dec c a) as [->|Hne].
  - rewrite Ascii.eqb_refl. now destruct r.
  - symmetry. apply Ascii.eqb_neq. congruence.
Qed.

(** Replacing a one-character string works character by character. *)
Lemma replace_char (c : ascii) (new s : string) :
  replace (String c "") new s = Spec.flat (Spec.subst1 c new) s.
Proof.
  unfold replace.
  induction s as [|a s IH]; [reflexivity|].
  cbn [replace_go Spec.flat]. rewrite prefix_single. unfold Spec.subst1 at 1.
  destruct (Ascii.eqb a c); cbn [String.length Nat.sub]; rewrite IH; reflexivity.
Qed.

(** Characters that are dropped: the replaced occurrence. *)
Lemma replace_go_skip (old new p s : string) :
  replace_go old new (String.length p) (p +:+ s) = replace_go old new 0 s.
Proof. induction p as [|a p IH]; simpl; [now destruct s | exact IH]. Qed.

(** A first character that does not start [old] is kept. *)
Lemma replace_go_other (o : ascii) (old new : string) (a : ascii) (s : string) :
  a <> o ->
  replace_go (String o old) new 0 (String a s) = String a (replace_go (String o old) new 0 s).
Proof.
  intros Hne. cbn [replace_go String.prefix].
  destruct (ascii_dec o a) as [->|_]; [congruence | reflexivity].
Qed.

Lemma flat_ext (f g : ascii -> string) (s : string) :
  (forall c, f c = g c) -> Spec.flat f s = Spec.flat g s.
Proof. intros H. induction s as [|a s IH]; simpl; [reflexivity | now rewrite H, IH]. Qed.

Lemma flat_flat (f g : ascii -> string) (s : string) :
  Spec.flat f (Spec.flat g s) = Spec.flat (fun c => Spec.flat f (g c)) s.
Proof.
  induction s as [|a s IH]; simpl; [reflexivity|].
  now rewrite flat_app, IH.
Qed.

(** Replacing in a string that was built character by character: it is
    enough to know what happens at the image of one character. *)
Lemma replace_go_flat (old new : string) (enc enc' : ascii -> string) :
  (forall c t, replace_go old new 0 (enc c +:+ t) = enc' c +:+ replace_go old new 0 t) ->
  forall s, replace_go old new 0 (Spec.flat enc s) = Spec.flat enc' s.
Proof.
  intros H s. induction s as [|a s IH]; [reflexivity|].
  cbn [Spec.flat]. now rewrite H, IH.
Qed.

Ltac case_char c x :=
  destruct (Ascii.eqb_spec c x) as [->|?].

Lemma escape_is_flat (s : string) :
  replace ">" "&gt;" (replace "<" "&lt;" (replace "&" "&amp;" s))
  = Spec.flat Spec.enc_amp_lt_gt s.
Proof.
  rewrite !replace_char, !flat_flat. apply flat_ext. intros c.
  unfold Spec.subst1, Spec.enc_amp_lt_gt.
  case_char c "&"%char; [reflexivity|].
  cbn [Spec.flat]. case_char c "<"%char; [reflexivity|].
  cbn [Spec.flat String.append]. case_char c ">"%char; reflexivity.
Qed.


Lemma prefix_nil (t : string) : String.prefix "" t = true.
Proof. now destruct t. Qed.

(** One character of the encoded string, under a decoding step: computed
    when the character is known, kept when it does not start an entity. *)
Ltac decode_char :=
  first [ reflexivity
        | simpl; rewrite ?prefix_nil; reflexivity
        | cbn [String.append]; rewrite replace_go_other by assumption; reflexivity ].

Lemma unescape_lt (s : string) :
  replace "&lt;" "<" (Spec.flat Spec.enc_amp_lt_gt s) = Spec.flat Spec.enc_amp_gt s.
Proof.
  unfold replace. apply replace_go_flat. intros c t.
  unfold Spec.enc_amp_lt_gt, Spec.enc_amp_gt.
  case_char c "&"%char; [decode_char|].
  case_char c "<"%char; [decode_char|].
  case_char c ">"%char; decode_char.
Qed.

Lemma unescape_gt (s : string) :
  replace "&gt;" ">" (Spec.flat Spec.enc_amp_gt s) = Spec.flat Spec.enc_amp s.
Proof.
  unfold replace. apply replace_go_flat. intros c t.
  unfold Spec.enc_amp_gt, Spec.enc_amp.
  case_char c "&"%char; [decode_char|].
  case_char c ">"%char; decode_char.
Qed.

Lemma unescape_amp (s : string) :
  replace "&amp;" "&" (Spec.flat Spec.enc_amp s) = s.
Proof.
  rewrite <- (flat_id s) at 2.
  unfold replace. apply replace_go_flat. intros c t.
  unfold Spec.enc_amp.
  case_char c "&"%char; decode_char.
Qed.

(** C9: [code_unescape] gives back every string [s] from its escaped form,
    where [&] was replaced by [&amp;], then [<] by [&lt;], then [>] by
    [&gt;], as the fallback of [hilite] does before it escapes the quotes:
    decoding [&lt;], [&gt;] and then [&amp;] inverts the escaping. *)
Theorem code_unescape_escape (s : string) :
  CodeHilite.code_unescape
    (Some (replace ">" "&gt;" (replace "<" "&lt;" (replace "&" "&amp;" s))))
  = inr s.
Proof.
  unfold CodeHilite.code_unescape, ret.
  now rewrite escape_is_flat, unescape_lt, unescape_gt, unescape_amp.
Qed.

(** ** [parse_hl_lines] *)

Section ParseHlLines.

Import CodeHilite.

Context {interp : Interpreter}.

(** [int] raises nothing but [ValueError]. *)
Lemma int_result (t : string) : int t = inl ValueError \/ exists z, int t = inr z.
Proof.
  unfold int.
  destruct (match strip int_space t with
            | String "-" r => (true, r)
            | String "+" r => (false, r)
            | _ => (false, strip int_space t)
            end) as [negative body].
  destruct body as [|c r]; [now left|].
  destruct (Re.is_digit c); [|now left].
  destruct (digits_after r) as [ds|]; [|now left].
  destruct (_ && _)%nat; [now left | right; eauto].
Qed.

Lemma map_int_result (ts : list string) :
  map_int ts = inl ValueError \/ exists l, map_int ts = inr l.
Proof.
  induction ts as [|t ts IH]; simpl; [right; now exists []|].
  destruct (int_result t) as [->|[z ->]]; simpl; [now left|].
  destruct IH as [->|[l ->]]; simpl; [now left | right; eauto].
Qed.

(** A token that is no integer makes the whole conversion raise. *)
Lemma map_int_malformed (ts : list string) :
  Exists (fun t => int t = inl ValueError) ts -> map_int ts = inl ValueError.
Proof.
  induction 1 as [t ts Ht | t ts _ IH]; simpl.
  - now rewrite Ht.
  - rewrite IH. destruct (int_result t) as [->|[z ->]]; reflexivity.
Qed.

Lemma int_small_limit (m : nat) : ((0 <? m) && (m <? 1))%nat = false.
Proof. destruct m; reflexivity. Qed.

Lemma parse_hl_lines_returns (expr : option string) :
  exists l, parse_hl_lines expr = inr l.
Proof.
  unfold parse_hl_lines.
  destruct (nonempty expr); simpl; [|now exists []].
  destruct (map_int_result (words (default "" expr))) as [->|[l ->]]; simpl; eauto.
Qed.

(** C7: [parse_hl_lines] gives the lines 2 and 4 for the value [2 4] (also
    when it is read off a header line), the empty list for an empty or
    missing value and for a malformed one, where a token is no integer; and
    it returns a list, it does not raise, whatever its argument. *)
Theorem parse_hl_lines_never_raises :
  parse_hl_lines (Some "2 4") = inr [2%Z; 4%Z]
  /\ (Re.g_hl_lines <$> Re.header_search (":::python hl_lines=" +:+ dq +:+ "2 4" +:+ dq))
     = Some (Some "2 4")
  /\ parse_hl_lines (Some "") = inr []
  /\ parse_hl_lines None = inr []
  /\ parse_hl_lines (Some "2,4") = inr []
  /\ (forall expr : string,
        Exists (fun t => int t = inl ValueError) (words expr) ->
        parse_hl_lines (Some expr) = inr [])
  /\ (forall expr : option string, exists l, parse_hl_lines expr = inr l).
Proof.
  repeat split.
  - unfold parse_hl_lines, int; simpl. unfold int; simpl.
    now rewrite int_small_limit.
  - intros expr Hbad. unfold parse_hl_lines.
    destruct (nonempty (Some expr)); simpl; [|reflexivity].
    now rewrite (map_int_malformed _ Hbad).
  - apply parse_hl_lines_returns.
Qed.

End ParseHlLines.

Lemma parse_hl_lines_never_raises_witness :
  Exists (fun t => @CodeHilite.int Examples.interp_default t = inl ValueError) (words "2 x")
  /\ @CodeHilite.parse_hl_lines Examples.interp_default (Some "2 x") = inr [].
Proof.
  assert (Hbad : Exists (fun t => @CodeHilite.int Examples.interp_default t = inl ValueError)
                   (words "2 x")).
  { apply Exists_cons_tl, Exists_cons_hd. reflexivity. }
  split; [exact Hbad|].
  exact (proj1 (proj2 (proj2 (proj2 (proj2 (proj2
    (@parse_hl_lines_never_raises Examples.interp_default)))))) "2 x" Hbad).
Defined.

(** ** [CodeHilite] *)

Section Hilite.

Import CodeHilite.

Context {interp : Interpreter} {pyg : Pygments}.

Lemma split_cons (c : ascii) (s : string) : exists fl rest, split c s = fl :: rest.
Proof.
  induction s as [|a s [fl [rest IH]]]; simpl; [eauto|].
  destruct (Ascii.eqb a c); [eauto|]. rewrite IH. eauto.
Qed.

Ltac case_lookups :=
  repeat (match goal with
          | |- context [match ?x with Some _ => _ | None => _ end] => destruct x eqn:?
          end; simplify_map_eq; eauto).

Lemma init_has_keys (src : string) (kw : gmap string pyval) :
  Spec.has_keys (__init__ src kw).
Proof.
  unfold Spec.has_keys, __init__, pop. cbn [options].
  split; rewrite lookup_insert_ne by discriminate; case_lookups.
Qed.

Lemma init_lang (src : string) (kw : gmap string pyval) :
  lang (__init__ src kw) = default PNone (kw !! "lang").
Proof. reflexivity. Qed.

Lemma init_src (src0 : string) (kw : gmap string pyval) : src (__init__ src0 kw) = src0.
Proof. reflexivity. Qed.

(** What [_parseHeader] does when the first line matches the pattern. *)
Lemma parseHeader_match (self : CodeHilite) (fl : string) (rest : list string)
  (m : Re.header_match) (v : pyval) :
  split nl (src self) = fl :: rest ->
  Re.header_search fl = Some m ->
  options self !! "linenos" = Some v ->
  exists hl,
    parse_hl_lines (Re.g_hl_lines m) = inr hl /\
    _parseHeader self =
      (set_src (strip is_nl (join (String nl "")
                               (if nonempty (Re.g_path m) then fl :: rest else rest)))
         (set_option "hl_lines" (PInts hl)
            ((if is_None v && nonempty (Re.g_shebang m)
              then set_option "linenos" (PBool true) else id)
               (set_lang (PStr (lower (Re.g_lang m))) self))), inr tt).
Proof.
  intros Hsplit Hm Hv.
  destruct (parse_hl_lines_returns (Re.g_hl_lines m)) as [hl Hhl].
  exists hl. split; [exact Hhl|].
  unfold _parseHeader, mbind, get. rewrite Hsplit, Hm.
  unfold modify, lift, option_of, mret. cbn [options set_lang].
  rewrite Hv. cbn [ret].
  destruct (is_None v && nonempty (Re.g_shebang m)); cbn [options set_option];
    rewrite Hhl; reflexivity.
Qed.

(** And when it does not: the source is only stripped again. *)
Lemma parseHeader_no_match (self : CodeHilite) (fl : string) (rest : list string) :
  split nl (src self) = fl :: rest ->
  Re.header_search fl = None ->
  _parseHeader self =
    (set_src (strip is_nl (join (String nl "") (fl :: rest))) self, inr tt).
Proof.
  intros Hsplit Hm. unfold _parseHeader, mbind, get. now rewrite Hsplit, Hm.
Qed.

(** [_parseHeader] returns, and leaves alone what it does not set. *)
Lemma parseHeader_returns (self : CodeHilite) :
  Spec.has_keys self ->
  exists self',
    _parseHeader self = (self', inr tt)
    /\ Spec.has_keys self'
    /\ use_pygments self' = use_pygments self
    /\ lang_prefix self' = lang_prefix self
    /\ options self' !! "cssclass" = options self !! "cssclass".
Proof.
  intros [[v Hv] Hc].
  destruct (split_cons nl (src self)) as [fl [rest Hsplit]].
  destruct (Re.header_search fl) as [m|] eqn:Hm.
  - destruct (parseHeader_match self fl rest m v Hsplit Hm Hv) as [hl [_ ->]].
    eexists; split; [reflexivity|].
    unfold Spec.has_keys.
    destruct (is_None v && nonempty (Re.g_shebang m)); cbn; simplify_map_eq; eauto 10.
  - rewrite (parseHeader_no_match self fl rest Hsplit Hm).
    eexists; split; [reflexivity|]. unfold Spec.has_keys; cbn; eauto 10.
Qed.

(** [hilite], statement by statement: strip the source, look for a header
    when no language was given, then one of the two branches. *)
Lemma hilite_unfold (self : CodeHilite) (shebang : bool) (tr : list ext_call) :
  hilite shebang (self, tr) =
  let self1 := set_src (strip is_nl (src self)) self in
  let '(self2, r) :=
    if is_None (lang self) && shebang then _parseHeader self1 else (self1, inr tt) in
  match r with
  | inl e => ((self2, tr), inl e)
  | inr _ =>
      if pygments && truthy (use_pygments self2)
      then hilite_pygments (self2, tr)
      else hilite_plain (self2, tr)
  end.
Proof.
  unfold hilite, mbind, on_self, get, modify, mret. cbn [fst snd lang set_src].
  destruct (is_None (lang self) && shebang).
  - cbn [fst snd]. destruct (_parseHeader _) as [self2 [e|u]]; [reflexivity|].
    cbn [fst]. now destruct (pygments && _).
  - cbn [fst]. now destruct (pygments && _).
Qed.

(** The object after the first two statements of [hilite]. *)
Lemma hilite_header (self : CodeHilite) (shebang : bool) :
  Spec.has_keys self ->
  exists self2,
    (if is_None (lang self) && shebang
     then _parseHeader (set_src (strip is_nl (src self)) self)
     else (set_src (strip is_nl (src self)) self, inr tt))
    = (self2, inr tt)
    /\ Spec.has_keys self2
    /\ use_pygments self2 = use_pygments self
    /\ lang_prefix self2 = lang_prefix self
    /\ options self2 !! "cssclass" = options self !! "cssclass".
Proof.
  intros Hk.
  destruct (is_None (lang self) && shebang).
  - apply (parseHeader_returns (set_src (strip is_nl (src self)) self)). exact Hk.
  - eexists; split; [reflexivity|]. cbn. auto.
Qed.

(** The plain branch records no call and returns the markup. *)
Lemma hilite_plain_eq (self : CodeHilite) (tr : list ext_call) (cssclass linenos : pyval) :
  options self !! "cssclass" = Some cssclass ->
  options self !! "linenos" = Some linenos ->
  hilite_plain (self, tr)
  = ((self, tr),
     inr (Spec.fallback_markup (str cssclass) (Spec.code_classes self linenos)
            (Spec.escape_code (src self)))).
Proof.
  intros Hc Hl.
  unfold hilite_plain, mbind, get, lift, option_of, mret. cbn [fst].
  rewrite Hl. cbn [ret]. rewrite Hc. cbn [ret].
  unfold Spec.fallback_markup, Spec.code_classes, Spec.escape_code, dq.
  destruct (truthy (lang self)), (truthy linenos); reflexivity.
Qed.

Lemma hilite_fallback_gen (self : CodeHilite) (shebang : bool) (tr : list ext_call) :
  Spec.has_keys self ->
  pygments && truthy (use_pygments self) = false ->
  exists self' cssclass linenos,
    hilite shebang (self, tr)
    = ((self', tr),
       inr (Spec.fallback_markup (str cssclass) (Spec.code_classes self' linenos)
              (Spec.escape_code (src self'))))
    /\ options self' !! "cssclass" = Some cssclass
    /\ options self' !! "linenos" = Some linenos
    /\ options self' !! "cssclass" = options self !! "cssclass".
Proof.
  intros Hk Hoff.
  destruct (hilite_header self shebang Hk) as [self2 [H2 [[[ln Hln] [cs Hcs]] [Hup [_ Hcss]]]]].
  exists self2, cs, ln. split; [|auto].
  rewrite hilite_unfold. cbv zeta. rewrite H2, Hup, Hoff.
  apply hilite_plain_eq; assumption.
Qed.

Lemma settles_refl (a : CodeHilite) : Spec.settles a a.
Proof. unfold Spec.settles; auto. Qed.

Lemma settles_trans (a b c : CodeHilite) :
  Spec.settles a b -> Spec.settles b c -> Spec.settles a c.
Proof.
  unfold Spec.settles. intros [H1 [H2 H3]] [H4 [H5 H6]].
  repeat split; [congruence | congruence |].
  intros Ht. rewrite H6, H3; auto. rewrite H3; auto.
Qed.

Lemma settling_bind {A B} (m : M (CodeHilite * list ext_call) A)
  (k : A -> M (CodeHilite * list ext_call) B) (st : CodeHilite * list ext_call) :
  Spec.settling m st ->
  (forall a st', m st = (st', inr a) -> Spec.settling (k a) st') ->
  Spec.settling (mbind m k) st.
Proof.
  unfold Spec.settling, mbind. intros Hm Hk.
  destruct (m st) as [st' [e|a]]; [exact Hm|].
  eapply settles_trans; [exact Hm | now apply Hk].
Qed.

Lemma settling_try {A} (m h : M (CodeHilite * list ext_call) A) (c : exn -> bool)
  (st : CodeHilite * list ext_call) :
  Spec.settling m st -> (forall st', Spec.settling h st') -> Spec.settling (mtry m c h) st.
Proof.
  unfold Spec.settling, mtry. intros Hm Hh.
  destruct (m st) as [st' [e|a]]; [|exact Hm].
  destruct (c e); [|exact Hm].
  eapply settles_trans; [exact Hm | apply Hh].
Qed.

Lemma settling_call {A} (c : ext_call) (r : result A) st : Spec.settling (call c r) st.
Proof. apply settles_refl. Qed.

Lemma settling_ret {A} (a : A) st : Spec.settling (mret a) st.
Proof. apply settles_refl. Qed.

Lemma settling_raise {A} (e : exn) st : Spec.settling (A:=A) (mraise e) st.
Proof. apply settles_refl. Qed.

Lemma settling_get_bind {B}
  (k : CodeHilite * list ext_call -> M (CodeHilite * list ext_call) B) st :
  Spec.settling (k st) st -> Spec.settling (mbind get k) st.
Proof. intros H. exact H. Qed.

Create HintDb settle.
#[local] Hint Resolve settling_call settling_ret settling_raise : settle.

(** The branch that calls pygments sets nothing but a language that is
    still unknown. *)
Lemma hilite_pygments_settling (st : CodeHilite * list ext_call) :
  Spec.settling hilite_pygments st.
Proof.
  unfold hilite_pygments.
  apply settling_get_bind. apply settling_bind.
  { repeat (apply settling_try; [|intros ?]); try destruct (truthy _);
      auto with settle. }
  intros lx st1 _. apply settling_get_bind. apply settling_bind.
  { destruct (truthy (lang st1.1)) eqn:Ht; cbn [negb]; [auto with settle|].
    destruct (aliases lx); [auto with settle|].
    unfold Spec.settling, Spec.settles, on_self, modify. cbn.
    rewrite Ht. repeat split; discriminate. }
  intros _ st2 _. apply settling_get_bind. apply settling_bind; [|auto with settle].
  destruct (pygments_formatter st2.1); try (apply settling_try; [|intros ?]);
    auto with settle.
Qed.

Lemma join_cons (sep x y : string) (l : list string) :
  join sep (x :: y :: l) = x +:+ sep +:+ join sep (y :: l).
Proof. reflexivity. Qed.

Lemma join_split (c : ascii) (s : string) : join (String c "") (split c s) = s.
Proof.
  induction s as [|a s IH]; [reflexivity|].
  cbn [split]. destruct (split_cons c s) as [fl [rest Hs]]. rewrite Hs in *.
  destruct (Ascii.eqb_spec a c) as [->|_].
  - rewrite join_cons, IH. reflexivity.
  - destruct rest as [|y rest].
    + cbn [join] in *. now rewrite IH.
    + rewrite join_cons in *. rewrite append_cons. now rewrite IH.
Qed.

Lemma rstrip_idem (p : ascii -> bool) (s : string) : rstrip p (rstrip p s) = rstrip p s.
Proof.
  induction s as [|a s IH]; [reflexivity|].
  cbn [rstrip]. destruct (rstrip p s) as [|b r] eqn:Hr.
  - destruct (p a) eqn:Hp; [reflexivity|]. cbn [rstrip]. now rewrite Hp.
  - cbn [rstrip]. cbn [rstrip] in IH. now rewrite IH.
Qed.

(** Stripping on the right keeps the first character, if one is left. *)
Lemma lstrip_rstrip (p : ascii -> bool) (s : string) :
  lstrip p (rstrip p (lstrip p s)) = rstrip p (lstrip p s).
Proof.
  induction s as [|a s IH]; [reflexivity|].
  cbn [lstrip]. destruct (p a) eqn:Hp; [exact IH|].
  cbn [rstrip]. destruct (rstrip p s); [rewrite Hp|]; cbn [lstrip]; now rewrite Hp.
Qed.

Lemma strip_idem (p : ascii -> bool) (s : string) : strip p (strip p s) = strip p s.
Proof. unfold strip. now rewrite lstrip_rstrip, rstrip_idem. Qed.

(** The object that [hilite] leaves when the first line of the source
    matches the header pattern and names a language. *)
Lemma hilite_state_match (self : CodeHilite) (tr : list ext_call)
  (fl : string) (rest : list string) (m : Re.header_match) (v : pyval) :
  lang self = PNone ->
  options self !! "linenos" = Some v ->
  split nl (strip is_nl (src self)) = fl :: rest ->
  Re.header_search fl = Some m ->
  Re.g_lang m <> "" ->
  exists hl,
    parse_hl_lines (Re.g_hl_lines m) = inr hl /\
    let self' := fst (fst (hilite true (self, tr))) in
    lang self' = PStr (lower (Re.g_lang m))
    /\ src self' = strip is_nl (join (String nl "")
                                 (if nonempty (Re.g_path m) then fl :: rest else rest))
    /\ options self' =
       <["hl_lines" := PInts hl]>
         (if is_None v && nonempty (Re.g_shebang m)
          then <["linenos" := PBool true]> (options self) else options self).
Proof.
  intros Hlang Hv Hsplit Hm Hne.
  destruct (parseHeader_match (set_src (strip is_nl (src self)) self) fl rest m v
              Hsplit Hm Hv) as [hl [Hhl Hph]].
  exists hl. split; [exact Hhl|].
  rewrite hilite_unfold. cbv zeta. rewrite Hlang. cbn [is_None andb].
  rewrite Hph.
  set (self2 := set_src _ _).
  assert (H2 : lang self2 = PStr (lower (Re.g_lang m))
               /\ src self2 = strip is_nl (join (String nl "")
                                (if nonempty (Re.g_path m) then fl :: rest else rest))
               /\ options self2 =
                  <["hl_lines" := PInts hl]>
                    (if is_None v && nonempty (Re.g_shebang m)
                     then <["linenos" := PBool true]> (options self) else options self)).
  { subst self2. destruct (is_None v && nonempty (Re.g_shebang m)); cbn; auto. }
  destruct H2 as [Hl2 [Hs2 Ho2]].
  destruct (pygments && truthy (use_pygments self2)).
  - destruct (hilite_pygments_settling (self2, tr)) as [Hs [Ho Hl]].
    cbn [fst] in Hs, Ho, Hl.
    rewrite Hs, Ho, Hl; [auto|].
    rewrite Hl2. cbn. destruct (Re.g_lang m); [congruence | reflexivity].
  - unfold hilite_plain, mbind, get, lift. cbn [fst].
    destruct (option_of "linenos" self2); [auto|].
    cbn. destruct (option_of "cssclass" self2); auto.
Qed.


(** C4: for a [CodeHilite] without a language, [hilite] reads the first
    line of the source.  [#!python]: the language is [python], the line is
    taken off the source, and line numbering is turned on when [linenos]
    was [None] and left alone otherwise.  [#!/usr/bin/env python]: the
    language is [python] and the source keeps the line.  [:::python]: the
    language is [python], the line is taken off, and [linenos] is what it
    was. *)
Theorem hilite_shebang (src0 : string) (kw : gmap string pyval) (rest : list string)
  (tr : list ext_call) :
  lang (__init__ src0 kw) = PNone ->
  let code := __init__ src0 kw in
  let self' := fst (fst (hilite true (code, tr))) in
  (split nl (strip is_nl src0) = "#!python" :: rest ->
   lang self' = PStr "python"
   /\ src self' = strip is_nl (join (String nl "") rest)
   /\ (options code !! "linenos" = Some PNone ->
       options self' !! "linenos" = Some (PBool true))
   /\ (options code !! "linenos" <> Some PNone ->
       options self' !! "linenos" = options code !! "linenos"))
  /\ (split nl (strip is_nl src0) = "#!/usr/bin/env python" :: rest ->
      lang self' = PStr "python"
      /\ src self' = strip is_nl src0)
  /\ (split nl (strip is_nl src0) = ":::python" :: rest ->
      lang self' = PStr "python"
      /\ src self' = strip is_nl (join (String nl "") rest)
      /\ options self' !! "linenos" = options code !! "linenos").
Proof.
  intros Hlang code self'.
  destruct (init_has_keys src0 kw) as [[v Hv] _]. fold code in Hv.
  split; [|split].
  - intros Hsplit.
    destruct (hilite_state_match code tr _ rest
                {| Re.g_shebang := Some "#!"; Re.g_path := None;
                   Re.g_lang := "python"; Re.g_hl_lines := None |} v
                Hlang Hv Hsplit eq_refl) as [hl [_ [Hl [Hs Ho]]]]; [discriminate|].
    fold self' in Hl, Hs, Ho. cbn in Hl, Hs, Ho.
    repeat split; [exact Hl | exact Hs | |].
    + intros Hnone. rewrite Hv in Hnone. injection Hnone as ->.
      rewrite Ho. cbn. now simplify_map_eq.
    + intros Hset. rewrite Ho, Hv.
      destruct v; [congruence| | | | |]; cbn; now simplify_map_eq.
  - intros Hsplit.
    destruct (hilite_state_match code tr _ rest
                {| Re.g_shebang := Some "#!"; Re.g_path := Some "/usr/bin/env ";
                   Re.g_lang := "python"; Re.g_hl_lines := None |} v
                Hlang Hv Hsplit eq_refl) as [hl [_ [Hl [Hs Ho]]]]; [discriminate|].
    fold self' in Hl, Hs, Ho. cbn [Re.g_lang Re.g_path nonempty] in Hl, Hs.
    split; [exact Hl|].
    rewrite Hs, <- Hsplit, join_split. apply strip_idem.
  - intros Hsplit.
    destruct (hilite_state_match code tr _ rest
                {| Re.g_shebang := None; Re.g_path := None;
                   Re.g_lang := "python"; Re.g_hl_lines := None |} v
                Hlang Hv Hsplit eq_refl) as [hl [_ [Hl [Hs Ho]]]]; [discriminate|].
    fold self' in Hl, Hs, Ho. cbn in Hl, Hs, Ho.
    repeat split; [exact Hl | exact Hs |].
    rewrite Ho. rewrite andb_false_r. now simplify_map_eq.
Qed.

End Hilite.


(** The block [<script>] with pygments turned off: escaped, in the class
    [codehilite], and no call recorded. *)
Example hilite_script_escaped :
  @CodeHilite.hilite Examples.interp_default Examples.pygments_stub true
    (CodeHilite.__init__ "<script>" {["use_pygments" := PBool false]}, [])
  = ((CodeHilite.set_src "<script>"
        (CodeHilite.__init__ "<script>" {["use_pygments" := PBool false]}), []),
     inr ("<pre class=" +:+ Serializers.dq +:+ "codehilite" +:+ Serializers.dq
          +:+ "><code>&lt;script&gt;" +:+ String nl "</code></pre>" +:+ String nl "")).
Proof. vm_compute. reflexivity. Qed.

Lemma hilite_shebang_witness :
  CodeHilite.lang (CodeHilite.__init__ ("#!python" +:+ String nl "print(1)") ∅) = PNone
  /\ split nl (strip is_nl ("#!python" +:+ String nl "print(1)")) = ["#!python"; "print(1)"]
  /\ CodeHilite.lang
       (fst (fst (@CodeHilite.hilite Examples.interp_default Examples.pygments_stub true
                    (CodeHilite.__init__ ("#!python" +:+ String nl "print(1)") ∅, []))))
     = PStr "python"
  /\ CodeHilite.src
       (fst (fst (@CodeHilite.hilite Examples.interp_default Examples.pygments_stub true
                    (CodeHilite.__init__ ("#!python" +:+ String nl "print(1)") ∅, []))))
     = "print(1)".
Proof.
  assert (Hlang : CodeHilite.lang
                    (CodeHilite.__init__ ("#!python" +:+ String nl "print(1)") ∅) = PNone)
    by reflexivity.
  assert (Hsplit : split nl (strip is_nl ("#!python" +:+ String nl "print(1)"))
                   = ["#!python"; "print(1)"]) by reflexivity.
  split; [exact Hlang|]. split; [exact Hsplit|].
  destruct (@hilite_shebang Examples.interp_default Examples.pygments_stub
              ("#!python" +:+ String nl "print(1)") ∅ ["print(1)"] [] Hlang)
    as [H _].
  destruct (H Hsplit) as [Hl [Hs _]].
  split; [exact Hl | exact Hs].
Defined.

(** ** Escaping *)

Section Escaping.

Import Serializers.

Lemma contains_false_cons (c a : ascii) (s : string) :
  contains c (String a s) = false -> a <> c /\ contains c s = false.
Proof.
  simpl. intros H. apply orb_false_iff in H as [H1 H2].
  split; [now apply Ascii.eqb_neq | exact H2].
Qed.

(** The tests [if c in text] only save work. *)
Lemma flat_subst1_absent (c : ascii) (new s : string) :
  contains c s = false -> Spec.flat (Spec.subst1 c new) s = s.
Proof.
  induction s as [|a s IH]; [reflexivity|].
  intros H. apply contains_false_cons in H as [Hne H].
  cbn [Spec.flat]. unfold Spec.subst1 at 1.
  apply Ascii.eqb_neq in Hne. rewrite Hne. now rewrite IH.
Qed.

Lemma replace_char_guard (c : ascii) (new s : string) :
  (if contains c s then replace (String c "") new s else s)
  = replace (String c "") new s.
Proof.
  destruct (contains c s) eqn:H; [reflexivity|].
  now rewrite replace_char, flat_subst1_absent.
Qed.

Lemma RE_AMP_sub_absent (repl s : string) :
  contains "&" s = false -> Re.RE_AMP_sub repl s = s.
Proof.
  induction s as [|a s IH]; [reflexivity|].
  intros H. apply contains_false_cons in H as [Hne H].
  cbn [Re.RE_AMP_sub]. apply Ascii.eqb_neq in Hne. rewrite Hne. cbn [andb].
  now rewrite IH.
Qed.

Lemma RE_AMP_sub_guard (repl s : string) :
  (if contains "&" s then Re.RE_AMP_sub repl s else s) = Re.RE_AMP_sub repl s.
Proof.
  destruct (contains "&" s) eqn:H; [reflexivity|]. now rewrite RE_AMP_sub_absent.
Qed.

Lemma escape_cdata_eq (s : string) :
  _escape_cdata (Some s) = inr (Spec.escape_cdata s).
Proof.
  unfold _escape_cdata, Spec.escape_cdata, ret.
  now rewrite RE_AMP_sub_guard, (replace_char_guard "<").
Qed.

Lemma escape_attrib_html_eq (s : string) :
  _escape_attrib_html s = inr (Spec.escape_attrib_html s).
Proof.
  unfold _escape_attrib_html, Spec.escape_attrib_html, ret, dq.
  now rewrite RE_AMP_sub_guard, (replace_char_guard "<"), (replace_char_guard ">"),
    (replace_char_guard "034").
Qed.

Lemma escape_attrib_eq (s : string) :
  _escape_attrib s = inr (Spec.escape_attrib s).
Proof.
  unfold _escape_attrib, Spec.escape_attrib, Spec.escape_attrib_html, ret, dq.
  now rewrite RE_AMP_sub_guard, (replace_char_guard "<"), (replace_char_guard ">"),
    (replace_char_guard "034"), (replace_char_guard nl).
Qed.

(** *** Counting a character in an escaped string *)

Lemma count_flat_self (c : ascii) (new s : string) :
  count c new = 0 -> count c (Spec.flat (Spec.subst1 c new) s) = 0.
Proof.
  intros Hnew. induction s as [|a s IH]; [reflexivity|].
  cbn [Spec.flat]. rewrite count_app, IH. unfold Spec.subst1.
  destruct (Ascii.eqb a c) eqn:Hac; [lia|]. simpl. now rewrite Hac.
Qed.

Lemma count_flat_other (c x : ascii) (new s : string) :
  x <> c -> count c new = 0 ->
  count c (Spec.flat (Spec.subst1 x new) s) = count c s.
Proof.
  intros Hne Hnew. induction s as [|a s IH]; [reflexivity|].
  cbn [Spec.flat count]. rewrite count_app, IH. unfold Spec.subst1.
  destruct (Ascii.eqb_spec a x) as [->|Hax].
  - rewrite Hnew. apply Ascii.eqb_neq in Hne. now rewrite Hne.
  - simpl. lia.
Qed.

Lemma count_RE_AMP_sub (c : ascii) (s : string) :
  c <> "&"%char -> count c "&amp;" = 0 ->
  count c (Re.RE_AMP_sub "&amp;" s) = count c s.
Proof.
  intros Hne Hnew. induction s as [|a s IH]; [reflexivity|].
  cbn [Re.RE_AMP_sub count].
  destruct (Ascii.eqb_spec a "&"%char) as [->|Ha]; cbn [andb].
  - apply not_eq_sym, Ascii.eqb_neq in Hne. rewrite Hne.
    destruct (negb _); [rewrite count_app, Hnew | cbn [count]; rewrite Hne]; lia.
  - cbn [count]. lia.
Qed.

(** *** References survive the escaping *)

Ltac all_chars c := destruct c as [[] [] [] [] [] [] [] []]; try reflexivity; try discriminate.

Lemma digit_reference_char (c : ascii) :
  Re.is_digit c = true -> Spec.is_reference_char c = true.
Proof. all_chars c. Qed.

Lemma hex_reference_char (c : ascii) :
  Re.is_hex_i c = true -> Spec.is_reference_char c = true.
Proof. all_chars c. Qed.

Lemma alnum_reference_char (c : ascii) :
  Re.is_alnum_i c = true -> Spec.is_reference_char c = true.
Proof. all_chars c. Qed.

Lemma x_reference_char (c : ascii) :
  Re.is_x_i c = true -> Spec.is_reference_char c = true.
Proof. all_chars c. Qed.

Lemma alnum_not_hash (c : ascii) (r : string) :
  Re.is_alnum_i c = true ->
  Re.reference_at (String c r) = Re.run_semi Re.is_alnum_i (String c r).
Proof. all_chars c. Qed.

Lemma run_semi_cons (cls : ascii -> bool) (c : ascii) (r : string) :
  Re.run_semi cls (String c r) = cls c && (Spec.starts_semi r || Re.run_semi cls r).
Proof.
  cbn [Re.run_semi]. f_equal. destruct r as [|d r']; [reflexivity|].
  cbn [Spec.starts_semi]. all_chars d.
Qed.

Section Keeps.

Variable T : string -> string.
Hypothesis HT : Spec.keeps_references T.

Lemma run_semi_keeps (cls : ascii -> bool) (s : string) :
  (forall c, cls c = true -> Spec.is_reference_char c = true) ->
  Re.run_semi cls s = true -> Re.run_semi cls (T s) = true.
Proof.
  intros Hcls. induction s as [|c r IH]; [discriminate|].
  rewrite run_semi_cons. intros H. apply andb_true_iff in H as [Hc Hr].
  rewrite HT by auto. rewrite run_semi_cons, Hc. cbn [andb].
  apply orb_true_iff in Hr as [Hr|Hr].
  - destruct r as [|d r']; [discriminate|]. cbn [Spec.starts_semi] in Hr.
    apply Ascii.eqb_eq in Hr as ->. now rewrite HT.
  - rewrite (IH Hr). apply orb_true_r.
Qed.

Lemma reference_at_keeps (s : string) :
  Re.reference_at s = true -> Re.reference_at (T s) = true.
Proof.
  destruct s as [|c r]; [discriminate|].
  destruct (Ascii.eqb_spec c "#"%char) as [->|Hc].
  - rewrite HT by reflexivity. cbn [Re.reference_at]. intros H.
    apply orb_true_iff in H as [H|H].
    + now rewrite (run_semi_keeps _ _ digit_reference_char H).
    + destruct r as [|x r']; [discriminate|].
      apply andb_true_iff in H as [Hx H].
      rewrite HT by now apply x_reference_char.
      rewrite Hx, (run_semi_keeps _ _ hex_reference_char H). apply orb_true_r.
  - intros H.
    assert (Ha : Re.is_alnum_i c = true).
    { revert H Hc. all_chars c; congruence. }
    rewrite alnum_not_hash in H by exact Ha.
    pose proof (run_semi_keeps _ _ alnum_reference_char H) as H'.
    rewrite HT in * by now apply alnum_reference_char.
    now rewrite alnum_not_hash.
Qed.

End Keeps.

Lemma keeps_app_r (b : string) : Spec.keeps_references (fun s => s +:+ b).
Proof. intros c r _. reflexivity. Qed.

Lemma keeps_RE_AMP_sub (repl : string) : Spec.keeps_references (Re.RE_AMP_sub repl).
Proof.
  intros c r Hc. cbn [Re.RE_AMP_sub].
  destruct (Ascii.eqb_spec c "&"%char) as [->|_]; [discriminate | reflexivity].
Qed.

Lemma keeps_flat (x : ascii) (new : string) :
  Spec.is_reference_char x = false -> Spec.keeps_references (Spec.flat (Spec.subst1 x new)).
Proof.
  intros Hx c r Hc. cbn [Spec.flat]. unfold Spec.subst1 at 1.
  destruct (Ascii.eqb_spec c x) as [->|_]; [congruence | reflexivity].
Qed.

Lemma amp_ok_app (a b : string) :
  Spec.amp_ok a = true -> Spec.amp_ok b = true -> Spec.amp_ok (a +:+ b) = true.
Proof.
  intros Ha Hb. induction a as [|c a IH]; [exact Hb|].
  cbn [Spec.amp_ok] in *. rewrite append_cons. cbn [Spec.amp_ok].
  apply andb_true_iff in Ha as [Hc Ha]. rewrite (IH Ha), andb_true_r.
  destruct (Ascii.eqb c "&"); [|reflexivity].
  now apply (reference_at_keeps _ (keeps_app_r b)).
Qed.

Lemma amp_ok_RE_AMP_sub (s : string) : Spec.amp_ok (Re.RE_AMP_sub "&amp;" s) = true.
Proof.
  induction s as [|c s IH]; [reflexivity|].
  cbn [Re.RE_AMP_sub].
  destruct (Ascii.eqb_spec c "&"%char) as [->|Hc]; cbn [andb].
  - destruct (Re.reference_at s) eqn:Href; cbn [negb].
    + cbn [Spec.amp_ok]. rewrite IH, andb_true_r. cbn.
      now apply (reference_at_keeps _ (keeps_RE_AMP_sub _)).
    + now apply (amp_ok_app "&amp;").
  - cbn [Spec.amp_ok]. apply Ascii.eqb_neq in Hc. now rewrite Hc, IH.
Qed.

Lemma amp_ok_flat (x : ascii) (new s : string) :
  Spec.is_reference_char x = false -> x <> "&"%char -> Spec.amp_ok new = true ->
  Spec.amp_ok s = true -> Spec.amp_ok (Spec.flat (Spec.subst1 x new) s) = true.
Proof.
  intros Hx Hamp Hnew. induction s as [|c s IH]; [reflexivity|].
  cbn [Spec.amp_ok Spec.flat]. intros H. apply andb_true_iff in H as [Hc Hs].
  unfold Spec.subst1 at 1. destruct (Ascii.eqb_spec c x) as [->|Hcx].
  - apply amp_ok_app; auto.
  - rewrite append_cons. cbn [String.append Spec.amp_ok]. rewrite (IH Hs), andb_true_r.
    destruct (Ascii.eqb c "&"); [|reflexivity].
    now apply (reference_at_keeps _ (keeps_flat x new Hx)).
Qed.


Lemma RE_AMP_sub_amp_ok (repl s : string) :
  Spec.amp_ok s = true -> Re.RE_AMP_sub repl s = s.
Proof.
  induction s as [|c s IH]; [reflexivity|].
  cbn [Spec.amp_ok Re.RE_AMP_sub]. intros H. apply andb_true_iff in H as [Hc Hs].
  rewrite (IH Hs). destruct (Ascii.eqb c "&"); [now rewrite Hc | reflexivity].
Qed.

(** *** What the three escaping functions guarantee *)

Lemma escape_cdata_safe (s : string) :
  Spec.amp_ok (Spec.escape_cdata s) = true /\ Spec.count_lt (Spec.escape_cdata s) = 0.
Proof.
  unfold Spec.escape_cdata, Spec.count_lt. rewrite replace_char. split.
  - apply amp_ok_flat; [reflexivity | discriminate | reflexivity | apply amp_ok_RE_AMP_sub].
  - now apply count_flat_self.
Qed.

Lemma escape_attrib_html_safe (s : string) :
  Spec.amp_ok (Spec.escape_attrib_html s) = true
  /\ Spec.count_lt (Spec.escape_attrib_html s) = 0
  /\ Spec.count_gt (Spec.escape_attrib_html s) = 0
  /\ Spec.count_dq (Spec.escape_attrib_html s) = 0
  /\ count nl (Spec.escape_attrib_html s) = count nl s.
Proof.
  unfold Spec.escape_attrib_html, Spec.count_lt, Spec.count_gt, Spec.count_dq, dq.
  rewrite !replace_char. repeat split.
  - repeat (apply amp_ok_flat; [reflexivity | discriminate | reflexivity |]).
    apply amp_ok_RE_AMP_sub.
  - rewrite !count_flat_other by (discriminate || reflexivity).
    now apply count_flat_self.
  - rewrite count_flat_other by (discriminate || reflexivity).
    now apply count_flat_self.
  - now apply count_flat_self.
  - rewrite !count_flat_other by (discriminate || reflexivity).
    now apply count_RE_AMP_sub.
Qed.

Lemma escape_attrib_safe (s : string) :
  Spec.amp_ok (Spec.escape_attrib s) = true
  /\ Spec.count_lt (Spec.escape_attrib s) = 0
  /\ Spec.count_gt (Spec.escape_attrib s) = 0
  /\ Spec.count_dq (Spec.escape_attrib s) = 0
  /\ count nl (Spec.escape_attrib s) = 0.
Proof.
  destruct (escape_attrib_html_safe s) as [Ha [Hl [Hg [Hq _]]]].
  unfold Spec.escape_attrib, Spec.count_lt, Spec.count_gt, Spec.count_dq in *.
  rewrite replace_char. repeat split.
  - now apply amp_ok_flat.
  - now rewrite count_flat_other by (discriminate || reflexivity).
  - now rewrite count_flat_other by (discriminate || reflexivity).
  - now rewrite count_flat_other by (discriminate || reflexivity).
  - now apply count_flat_self.
Qed.

Lemma write_attr_eq (format : format_t) (k : ETree.name_t) (v : string) :
  write_attr format (k, ETree.Str v) =
  inr (if String.eqb (ETree.name_text k) (Spec.escape_attrib_html v) && is_html format
       then " " +:+ Spec.escape_attrib_html v
       else " " +:+ ETree.name_text k +:+ "=" +:+ dq +:+ Spec.escape_attrib_html v +:+ dq).
Proof.
  unfold write_attr. cbn [fst snd]. rewrite escape_attrib_html_eq. cbn [bind].
  now destruct (_ && _).
Qed.

(** C8, as amended: an attribute value that is a [str] is written escaped by
    [_escape_attrib_html] in both modes: every [&] left starts a reference,
    and no [<], [>] or double quote is left; a newline in it is kept, in
    XHTML mode as in HTML mode.  Newlines are escaped by [_escape_attrib],
    which only the namespace of a [QName] tag goes through. *)
Theorem attribute_value_escaping (format : format_t) (k : ETree.name_t) (v : string) :
  let ev := Spec.escape_attrib_html v in
  write_attr format (k, ETree.Str v)
  = inr (if String.eqb (ETree.name_text k) ev && is_html format
         then " " +:+ ev
         else " " +:+ ETree.name_text k +:+ "=" +:+ dq +:+ ev +:+ dq)
  /\ Spec.amp_ok ev = true
  /\ Spec.count_lt ev = 0 /\ Spec.count_gt ev = 0 /\ Spec.count_dq ev = 0
  /\ count nl ev = count nl v
  /\ _escape_attrib v = inr (replace (String nl "") "&#10;" ev)
  /\ count nl (replace (String nl "") "&#10;" ev) = 0.
Proof.
  intros ev. split; [apply write_attr_eq|].
  destruct (escape_attrib_html_safe v) as [Ha [Hl [Hg [Hq Hn]]]].
  destruct (escape_attrib_safe v) as [_ [_ [_ [_ Hn']]]].
  repeat split; auto. apply escape_attrib_eq.
Qed.

End Escaping.

(** C8 as it was stated fails: in XHTML mode the newline of an attribute
    value is written as it is. *)
Lemma xhtml_attribute_newline_kept :
  Serializers.to_xhtml_string Examples.HTML_EMPTY
    (ETree.mkElement (ETree.TagStr "p")
       [(ETree.Str "title", ETree.Str ("a" +:+ String nl "b"))] None None [])
  = inr ("<p title=" +:+ Serializers.dq +:+ "a" +:+ String nl "b" +:+ Serializers.dq
         +:+ "></p>").
Proof. vm_compute. reflexivity. Qed.

(** ** The serializer *)

Section Serializer.

Import ETree Serializers.

Variable HTML_EMPTY : gset string.

Lemma write_attr_str (format : format_t) (item : name_t * name_t) :
  write_attr format item = inr (Spec.attr_str format item).
Proof.
  destruct item as [k [v|q]]; [apply write_attr_eq|].
  unfold write_attr, Spec.attr_str. cbn. now destruct (_ && _).
Qed.

Lemma write_attrs_str (format : format_t) (items : list (name_t * name_t)) :
  write_attrs format items = inr (map (Spec.attr_str format) items).
Proof.
  induction items as [|item items IH]; [reflexivity|].
  cbn [write_attrs map]. now rewrite write_attr_str, IH.
Qed.

Lemma attrs_out_str (format : format_t) (items : list (name_t * name_t)) :
  match items with
  | [] => ret []
  | p :: l => write_attrs format (sorted (p :: l))
  end = inr (Spec.attrs_str format items).
Proof. destruct items; [reflexivity | apply write_attrs_str]. Qed.

Lemma text_out_str (raw : bool) (text : option string) :
  (if nonempty text
   then if raw then ret [default "" text]
        else t <- _escape_cdata text ;; ret [t]
   else ret [])
  = inr (Spec.text_str raw text).
Proof.
  destruct text as [[|c r]|]; try reflexivity.
  cbn [nonempty]. destruct raw; [reflexivity|].
  now rewrite escape_cdata_eq.
Qed.

Lemma xmlns_out_str (ns : option string) :
  (if nonempty ns
   then u <- _escape_attrib (default "" ns) ;; ret [" xmlns=" +:+ dq +:+ u +:+ dq]
   else ret [])
  = inr (Spec.xmlns_str ns).
Proof.
  destruct ns as [[|c r]|]; try reflexivity.
  cbn [nonempty default]. now rewrite escape_attrib_eq.
Qed.

(** One step of [_serialize_html], with the children left to
    [serialize_all]. *)
Lemma serialize_unfold (e : Element) (format : format_t) :
  _serialize_html HTML_EMPTY e format =
  let ordinary := fun (namespace_uri : option string) (tag : string) =>
    w_items <- match attrib e with
               | [] => ret []
               | items => write_attrs format (sorted items)
               end ;;
    w_xmlns <- (if nonempty namespace_uri
                then u <- _escape_attrib (default "" namespace_uri) ;;
                     ret [" xmlns=" +:+ dq +:+ u +:+ dq]
                else ret []) ;;
    w_rest <-
      (if negb (is_html format) && is_empty_tag HTML_EMPTY tag
       then ret [" />"]
       else
         w_text <- (if nonempty (text e)
                    then if is_raw_text_tag tag
                         then ret [default "" (text e)]
                         else t <- _escape_cdata (text e) ;; ret [t]
                    else ret []) ;;
         w_children <- Spec.serialize_all HTML_EMPTY format (children e) ;;
         ret ([">"] ++ w_text ++ w_children
              ++ (if negb (is_empty_tag HTML_EMPTY tag)
                  then ["</" +:+ tag +:+ ">"] else []))%list) ;;
    ret (["<" +:+ tag] ++ w_items ++ w_xmlns ++ w_rest)%list in
  body <-
    match tag e with
    | Comment =>
        t <- _escape_cdata (text e) ;; ret ["<!--" +:+ t +:+ "-->"]
    | ProcessingInstruction =>
        t <- _escape_cdata (text e) ;; ret ["<?" +:+ t +:+ "?>"]
    | TagNone =>
        w_text <- (if nonempty (text e)
                   then t <- _escape_cdata (text e) ;; ret [t]
                   else ret []) ;;
        w_children <- Spec.serialize_all HTML_EMPTY format (children e) ;;
        ret (w_text ++ w_children)%list
    | TagStr s => ordinary None s
    | TagQName t => ns_tag <- split_qname t ;; ordinary (fst ns_tag) (snd ns_tag)
    end ;;
  w_tail <- (if nonempty (tail e)
             then t <- _escape_cdata (tail e) ;; ret [t]
             else ret []) ;;
  ret (body ++ w_tail)%list.
Proof. destruct e. reflexivity. Qed.

(** What an ordinary element writes. *)
Lemma serialize_ordinary (e : Element) (format : format_t) (ns : option string) (t : string) :
  Spec.ordinary_tag (tag e) ns t ->
  _serialize_html HTML_EMPTY e format =
  if negb (is_html format) && is_empty_tag HTML_EMPTY t
  then inr (["<" +:+ t] ++ Spec.attrs_str format (attrib e) ++ Spec.xmlns_str ns
            ++ [" />"] ++ Spec.text_str false (tail e))%list
  else
    ch <- Spec.serialize_all HTML_EMPTY format (children e) ;;
    ret (["<" +:+ t] ++ Spec.attrs_str format (attrib e) ++ Spec.xmlns_str ns
         ++ [">"] ++ Spec.text_str (is_raw_text_tag t) (text e) ++ ch
         ++ (if negb (is_empty_tag HTML_EMPTY t) then ["</" +:+ t +:+ ">"] else [])
         ++ Spec.text_str false (tail e))%list.
Proof.
  intros Htag. rewrite serialize_unfold. cbv zeta.
  transitivity (
    body <- (w_items <- inr (Spec.attrs_str format (attrib e)) ;;
             w_xmlns <- inr (Spec.xmlns_str ns) ;;
             w_rest <- (if negb (is_html format) && is_empty_tag HTML_EMPTY t
                        then ret [" />"]
                        else
                          w_text <- inr (Spec.text_str (is_raw_text_tag t) (text e)) ;;
                          w_children <- Spec.serialize_all HTML_EMPTY format (children e) ;;
                          ret ([">"] ++ w_text ++ w_children
                               ++ (if negb (is_empty_tag HTML_EMPTY t)
                                   then ["</" +:+ t +:+ ">"] else []))%list) ;;
             ret (["<" +:+ t] ++ w_items ++ w_xmlns ++ w_rest)%list) ;;
    w_tail <- inr (Spec.text_str false (tail e)) ;;
    ret (body ++ w_tail)%list).
  { rewrite <- (attrs_out_str format (attrib e)), <- (xmlns_out_str ns),
      <- !text_out_str.
    destruct Htag as [[-> ->] | [q [-> Hq]]]; [reflexivity|].
    rewrite Hq. reflexivity. }
  cbn [bind].
  destruct (negb (is_html format) && is_empty_tag HTML_EMPTY t).
  - cbn [bind ret]. now rewrite <- !List.app_assoc.
  - cbn [bind]. destruct (Spec.serialize_all _ _ _) as [ex|ch]; [reflexivity|].
    cbn [bind ret]. now rewrite <- !List.app_assoc.
Qed.

(** C3, as amended: an element whose tag, in lower case, is in
    [HTML_EMPTY] writes, in XHTML mode, its opening tag closed by [ />] and
    then its tail: no text, no children, no closing tag.  In HTML mode it
    writes the opening tag, then its text and its children when it has any,
    then the tail, and no closing tag. *)
Theorem void_element (e : Element) (ns : option string) (t : string) :
  Spec.ordinary_tag (tag e) ns t ->
  is_empty_tag HTML_EMPTY t = true ->
  _serialize_html HTML_EMPTY e xhtml
  = inr (["<" +:+ t] ++ Spec.attrs_str xhtml (attrib e) ++ Spec.xmlns_str ns
         ++ [" />"] ++ Spec.text_str false (tail e))%list
  /\ _serialize_html HTML_EMPTY e html
     = (ch <- Spec.serialize_all HTML_EMPTY html (children e) ;;
        ret (["<" +:+ t] ++ Spec.attrs_str html (attrib e) ++ Spec.xmlns_str ns
             ++ [">"] ++ Spec.text_str (is_raw_text_tag t) (text e) ++ ch
             ++ Spec.text_str false (tail e))%list).
Proof.
  intros Htag Hvoid.
  rewrite !(serialize_ordinary e _ ns t Htag), Hvoid. cbn [is_html negb andb].
  split; reflexivity.
Qed.

Lemma insert_item_In (x y : name_t * name_t) (l : list (name_t * name_t)) :
  In x (insert_item y l) <-> x = y \/ In x l.
Proof.
  induction l as [|z l IH]; cbn [insert_item]; [simpl; intuition congruence|].
  destruct (item_ltb z y); cbn [In]; [rewrite IH|]; intuition congruence.
Qed.

Lemma sorted_In (x : name_t * name_t) (l : list (name_t * name_t)) :
  In x (sorted l) <-> In x l.
Proof.
  unfold sorted. induction l as [|y l IH]; [reflexivity|].
  cbn [fold_right In]. rewrite insert_item_In, IH. intuition congruence.
Qed.

(** Every attribute of an ordinary element is written, as [attr_str] says. *)
Lemma attribute_written (e : Element) (format : format_t) (ns : option string) (t : string)
  (item : name_t * name_t) (ws : list string) :
  Spec.ordinary_tag (tag e) ns t ->
  In item (attrib e) ->
  _serialize_html HTML_EMPTY e format = inr ws ->
  In (Spec.attr_str format item) ws.
Proof.
  intros Htag Hin. rewrite (serialize_ordinary e format ns t Htag).
  assert (Hattr : In (Spec.attr_str format item) (Spec.attrs_str format (attrib e))).
  { unfold Spec.attrs_str. apply in_map. now apply sorted_In. }
  destruct (_ && _).
  - intros [= <-]. right. apply in_or_app. now left.
  - destruct (Spec.serialize_all _ _ _) as [ex|ch]; [discriminate|].
    intros [= <-]. right. apply in_or_app. now left.
Qed.

(** C5, as amended: an attribute whose key equals its value, where the
    escaping leaves the value as it is (it holds no [<], [>] or double
    quote, and no [&] but those of references), is written as the key alone
    in HTML mode and as [key="key"] in XHTML mode. *)
Theorem boolean_attribute (e : Element) (ns : option string) (t : string) (key : string) :
  Spec.ordinary_tag (tag e) ns t ->
  In (Str key, Str key) (attrib e) ->
  Spec.escape_attrib_html key = key ->
  write_attr html (Str key, Str key) = inr (" " +:+ key)
  /\ write_attr xhtml (Str key, Str key) = inr (" " +:+ key +:+ "=" +:+ dq +:+ key +:+ dq)
  /\ (forall ws, _serialize_html HTML_EMPTY e html = inr ws -> In (" " +:+ key) ws)
  /\ (forall ws, _serialize_html HTML_EMPTY e xhtml = inr ws ->
      In (" " +:+ key +:+ "=" +:+ dq +:+ key +:+ dq) ws).
Proof.
  intros Htag Hin Hplain.
  assert (Hh : Spec.attr_str html (Str key, Str key) = " " +:+ key).
  { unfold Spec.attr_str. cbn [fst snd name_text]. rewrite Hplain, String.eqb_refl.
    reflexivity. }
  assert (Hx : Spec.attr_str xhtml (Str key, Str key)
               = " " +:+ key +:+ "=" +:+ dq +:+ key +:+ dq).
  { unfold Spec.attr_str. cbn [fst snd name_text]. rewrite Hplain, andb_false_r.
    reflexivity. }
  rewrite !write_attr_str, Hh, Hx. repeat split.
  - intros ws Hws. rewrite <- Hh. eapply attribute_written; eauto.
  - intros ws Hws. rewrite <- Hx. eapply attribute_written; eauto.
Qed.

(** A string without the four characters is left as it is. *)
Lemma escape_plain (s : string) :
  contains "&" s = false -> contains "<" s = false -> contains ">" s = false ->
  contains "034" s = false ->
  Spec.escape_attrib_html s = s.
Proof.
  intros Ha Hl Hg Hq. unfold Spec.escape_attrib_html, dq.
  rewrite RE_AMP_sub_absent by exact Ha.
  rewrite !replace_char.
  rewrite (flat_subst1_absent "<") by exact Hl.
  rewrite (flat_subst1_absent ">") by exact Hg.
  now rewrite (flat_subst1_absent "034") by exact Hq.
Qed.

End Serializer.

(** C3 as it was stated fails: in HTML mode a void element writes its text
    and its children. *)
Lemma html_void_element_writes_text :
  Serializers.is_empty_tag Examples.HTML_EMPTY "br" = true
  /\ Serializers.to_html_string Examples.HTML_EMPTY
       (ETree.mkElement (ETree.TagStr "br") [] (Some "x") None
          [ETree.mkElement (ETree.TagStr "b") [] None None []])
     = inr "<br>x<b></b>".
Proof. split; vm_compute; reflexivity. Qed.

Lemma void_element_witness :
  Spec.ordinary_tag (ETree.TagStr "br") None "br"
  /\ Serializers.is_empty_tag Examples.HTML_EMPTY "br" = true
  /\ Serializers._serialize_html Examples.HTML_EMPTY
       (ETree.mkElement (ETree.TagStr "br") [] (Some "x") (Some "y")
          [ETree.mkElement (ETree.TagStr "b") [] None None []]) Serializers.xhtml
     = inr ["<br"; " />"; "y"].
Proof.
  assert (Htag : Spec.ordinary_tag (ETree.TagStr "br") None "br") by (left; split; reflexivity).
  assert (Hvoid : Serializers.is_empty_tag Examples.HTML_EMPTY "br" = true)
    by (vm_compute; reflexivity).
  split; [exact Htag|]. split; [exact Hvoid|].
  exact (proj1 (void_element Examples.HTML_EMPTY
                  (ETree.mkElement (ETree.TagStr "br") [] (Some "x") (Some "y")
                     [ETree.mkElement (ETree.TagStr "b") [] None None []])
                  None "br" Htag Hvoid)).
Defined.

(** C5 as it was stated fails: the key is compared with the escaped value. *)
Lemma html_attribute_escaped_before_compared :
  Serializers.to_html_string Examples.HTML_EMPTY
    (ETree.mkElement (ETree.TagStr "input") [(ETree.Str "a&b", ETree.Str "a&b")]
       None None [])
  = inr ("<input a&b=" +:+ Serializers.dq +:+ "a&amp;b" +:+ Serializers.dq +:+ ">").
Proof. vm_compute. reflexivity. Qed.

Lemma boolean_attribute_witness :
  Spec.ordinary_tag (ETree.TagStr "input") None "input"
  /\ In (ETree.Str "checked", ETree.Str "checked")
       [(ETree.Str "checked", ETree.Str "checked")]
  /\ Spec.escape_attrib_html "checked" = "checked"
  /\ Serializers.write_attr Serializers.html (ETree.Str "checked", ETree.Str "checked")
     = inr " checked"
  /\ Serializers.write_attr Serializers.xhtml (ETree.Str "checked", ETree.Str "checked")
     = inr (" checked=" +:+ Serializers.dq +:+ "checked" +:+ Serializers.dq).
Proof.
  assert (Htag : Spec.ordinary_tag (ETree.TagStr "input") None "input")
    by (left; split; reflexivity).
  assert (Hin : In (ETree.Str "checked", ETree.Str "checked")
                  [(ETree.Str "checked", ETree.Str "checked")]) by (left; reflexivity).
  assert (Hplain : Spec.escape_attrib_html "checked" = "checked") by reflexivity.
  split; [exact Htag|]. split; [exact Hin|]. split; [exact Hplain|].
  destruct (boolean_attribute Examples.HTML_EMPTY
              (ETree.mkElement (ETree.TagStr "input")
                 [(ETree.Str "checked", ETree.Str "checked")] None None [])
              None "input" "checked" Htag Hin Hplain) as [Hh [Hx _]].
  split; [exact Hh | exact Hx].
Defined.

(** ** The serialized tree *)

Section SerializedTree.

Import ETree Serializers.

Variable HTML_EMPTY : gset string.

Lemma Element_induction (P : Element -> Prop) :
  (forall tg attrs text tail kids,
      Forall P kids -> P (mkElement tg attrs text tail kids)) ->
  forall e, P e.
Proof.
  intros H. fix IH 1. intros [tg attrs text tail kids]. apply H.
  induction kids as [|k kids IHk]; constructor; [apply IH | exact IHk].
Qed.














Lemma text_out_plain (text : option string) :
  (if nonempty text then t <- _escape_cdata text ;; ret [t] else ret [])
  = inr (Spec.text_str false text).
Proof. exact (text_out_str false text). Qed.

Lemma tag_name_ordinary (tg : tag_t) (ns : option string) (t : string) :
  Spec.tag_name tg = Some (ns, t) -> Spec.ordinary_tag tg ns t.
Proof.
  destruct tg as [| | |s|q]; try discriminate; cbn [Spec.tag_name].
  - intros [= <- <-]. now left.
  - destruct (split_qname q) as [ex|[ns' t']] eqn:Hq; [discriminate|].
    intros [= <- <-]. right. eauto.
Qed.

Section Format.

Variable format : format_t.





End Format.



End SerializedTree.



(** ** The tree processor *)

Section Processor.

Import ETree CodeHilite.

Context {interp : Interpreter} {pyg : Pygments} {md : Markdown}.

Variable config : gmap string pyval.

Abbreviation is_code_block := Spec.is_code_block.
Abbreviation evolves := (Spec.evolves config).
Abbreviation stashed := (Spec.stashed config).
Abbreviation fragment_of := (Spec.fragment_of config).

Lemma update_same (h : heap) (l : loc) (nd : node) : update h l nd l = nd.
Proof. unfold update. now rewrite Nat.eqb_refl. Qed.

Lemma update_other (h : heap) (l x : loc) (nd : node) : x <> l -> update h l nd x = h x.
Proof. unfold update. intros H. apply Nat.eqb_neq in H. now rewrite H. Qed.

(** The body of the loop: nothing on a block that is no code block; on a
    code block a raise that leaves the elements and the stash alone, or the
    stub and one more fragment in the stash. *)
Lemma loop_body_cases (e : loc) (w w1 : world) (r : result unit) :
  loop_body config e w = (w1, r) ->
  (Spec.is_single_code (elems w) e = false /\ w1 = w /\ r = inr tt)
  \/ (Spec.is_single_code (elems w) e = true
      /\ ((exists ex, r = inl ex)
          /\ elems w1 = elems w /\ rawHtmlBlocks w1 = rawHtmlBlocks w
          \/ r = inr tt
             /\ exists html,
                 Spec.fragment_of config (elems w) e html
                 /\ elems w1
                    = update (elems w) e
                        (Spec.stub (get_placeholder (length (rawHtmlBlocks w))))
                 /\ rawHtmlBlocks w1 = (rawHtmlBlocks w ++ [html])%list)).
Proof.
  unfold loop_body, Spec.is_single_code, mbind, get.
  destruct (n_children (elems w e)) as [|c [|c' cs]] eqn:Hch;
    try (intros [= <- <-]; left; auto).
  destruct (tag_eqb (n_tag (elems w c)) "code") eqn:Hcode;
    [|intros [= <- <-]; left; auto].
  intros H. right. split; [reflexivity|].
  unfold lift in H.
  destruct (code_unescape (n_text (elems w c))) as [ex|text] eqn:Htext.
  { injection H as <- <-. left. eauto. }
  unfold pop in H. cbn [fst snd] in H.
  destruct (keywords _ _) as [ex|kwargs] eqn:Hkw.
  { injection H as <- <-. left. eauto. }
  destruct (CodeHilite_call text kwargs) as [ex|code] eqn:Hcall.
  { injection H as <- <-. left. eauto. }
  unfold hilite_in_world in H.
  destruct (hilite true (code, calls w)) as [[code' calls'] [ex|html]] eqn:Hh.
  { injection H as <- <-. left. eauto. }
  unfold store, set_elem, modify in H. cbn in H. injection H as <- <-.
  right. split; [reflexivity|]. exists html. split; [|split; reflexivity].
  exists c, text, kwargs, code, (calls w), (code', calls'). auto.
Qed.

Lemma stub_not_pre (ph : string) : tag_eqb (n_tag (Spec.stub ph)) "pre" = false.
Proof. reflexivity. Qed.

Lemma stub_not_code (ph : string) : tag_eqb (n_tag (Spec.stub ph)) "code" = false.
Proof. reflexivity. Qed.

Lemma pre_not_code (t : tag_t) :
  tag_eqb t "pre" = true -> tag_eqb t "code" = false.
Proof.
  destruct t as [| | |s|s]; try discriminate; cbn [tag_eqb];
    intros H; apply String.eqb_eq in H; now subst s.
Qed.

Lemma evolves_refl (w : world) : evolves w w.
Proof. split; [now left | exists []; now rewrite List.app_nil_r]. Qed.

(** An element that is a code block later on was one from the start, with
    the same child and the same text in it. *)
Lemma code_block_back (w0 w1 : world) (x : loc) :
  evolves w0 w1 ->
  elems w1 x = elems w0 x ->
  Spec.is_single_code (elems w1) x = true ->
  Spec.is_single_code (elems w0) x = true
  /\ forall c, n_children (elems w0 x) = [c] -> elems w1 c = elems w0 c.
Proof.
  intros [Hev _] Hx. unfold Spec.is_single_code. rewrite Hx.
  destruct (n_children (elems w0 x)) as [|c [|c' cs]]; try discriminate.
  intros Hcode.
  assert (Hc : elems w1 c = elems w0 c).
  { destruct (Hev c) as [Hc | [_ [i [html [Hc _]]]]]; [exact Hc|].
    rewrite Hc, stub_not_code in Hcode. discriminate. }
  rewrite <- Hc. split; [exact Hcode|]. now intros c0 [= <-].
Qed.

Lemma fragment_back (w0 w1 : world) (x : loc) (html : string) :
  evolves w0 w1 ->
  elems w1 x = elems w0 x ->
  Spec.is_single_code (elems w1) x = true ->
  fragment_of (elems w1) x html -> fragment_of (elems w0) x html.
Proof.
  intros Hev Hx Hsc [c [text [kwargs [code [st [st' [Hch [Htext [Hkw [Hcall Hh]]]]]]]]]].
  destruct (code_block_back w0 w1 x Hev Hx Hsc) as [_ Hc].
  rewrite Hx in Hch. rewrite (Hc c Hch) in Htext.
  exists c, text, kwargs, code, st, st'. auto.
Qed.

Lemma stashed_later (w0 w1 w2 : world) (x : loc) :
  stashed w0 w1 x -> evolves w1 w2 -> stashed w0 w2 x.
Proof.
  intros [i [html [Hx [Hi Hf]]]] [Hev [more Hmore]].
  exists i, html. split; [|split; [|exact Hf]].
  - destruct (Hev x) as [H | [Hcb _]]; [congruence|].
    unfold Spec.is_code_block in Hcb. rewrite Hx, stub_not_pre in Hcb. discriminate.
  - rewrite Hmore. now apply lookup_app_l_Some.
Qed.

Lemma evolves_trans (w0 w1 w2 : world) :
  evolves w0 w1 -> evolves w1 w2 -> evolves w0 w2.
Proof.
  intros H01 H12. pose proof H01 as [Hev1 [m1 Hm1]]. pose proof H12 as [Hev2 [m2 Hm2]].
  split.
  - intros x. destruct (Hev2 x) as [H2 | [Hcb2 Hst2]].
    + destruct (Hev1 x) as [H1 | [Hcb1 Hst1]]; [left; congruence|].
      right. split; [exact Hcb1|]. now apply (stashed_later w0 w1 w2).
    + right. destruct (Hev1 x) as [H1 | [Hcb1 Hst1]].
      * unfold Spec.is_code_block in *. apply andb_true_iff in Hcb2 as [Hpre Hsc].
        destruct (code_block_back w0 w1 x H01 H1 Hsc) as [Hsc0 _].
        rewrite H1 in Hpre. rewrite Hpre, Hsc0. split; [reflexivity|].
        destruct Hst2 as [i [html [Hx [Hi Hf]]]]. exists i, html.
        split; [exact Hx|]. split; [exact Hi|].
        now apply (fragment_back w0 w1).
      * destruct Hst1 as [i [html [Hx _]]].
        unfold Spec.is_code_block in Hcb2. rewrite Hx, stub_not_pre in Hcb2.
        discriminate.
  - exists (m1 ++ m2)%list. now rewrite Hm2, Hm1, List.app_assoc.
Qed.

(** The body of the loop, run where the iteration runs it. *)
Lemma loop_body_evolves (e : loc) (w w1 : world) (r : result unit) :
  (if tag_eqb (n_tag (elems w e)) "pre" then loop_body config e else mret tt) w = (w1, r) ->
  evolves w w1
  /\ (r = inr tt -> is_code_block (elems w) e = true ->
      stashed w w1 e /\ n_children (elems w1 e) = [])
  /\ (is_code_block (elems w) e = false -> elems w1 = elems w).
Proof.
  unfold Spec.is_code_block.
  destruct (tag_eqb (n_tag (elems w e)) "pre") eqn:Hpre; cbn [andb].
  - intros H. apply loop_body_cases in H
      as [[Hsc [-> ->]] | [Hsc [[[ex ->] [Hel Hst]] | [-> [html [Hf [Hel Hst]]]]]]].
    + rewrite Hsc. split; [apply evolves_refl|]. split; [discriminate | reflexivity].
    + rewrite Hsc. split; [|split; [discriminate | discriminate]].
      split; [left; now rewrite Hel | exists []; now rewrite List.app_nil_r].
    + rewrite Hsc.
      assert (Hst_e : stashed w w1 e).
      { exists (length (rawHtmlBlocks w)), html. rewrite Hel, update_same, Hst.
        split; [reflexivity|]. split; [|exact Hf].
        rewrite lookup_app_r by lia. now rewrite Nat.sub_diag. }
      split; [|split; [|discriminate]].
      * split; [|exists [html]; exact Hst].
        intros x. destruct (Nat.eq_dec x e) as [->|Hne].
        -- right. unfold Spec.is_code_block. now rewrite Hpre, Hsc.
        -- left. rewrite Hel. now apply update_other.
      * intros _ _. split; [exact Hst_e|]. now rewrite Hel, update_same.
  - intros [= <- <-]. split; [apply evolves_refl|].
    split; [discriminate | reflexivity].
Qed.

Lemma for_each_evolves (visit : loc -> world -> option (world * result unit))
  (cs : list loc) :
  (forall c w w' r, In c cs -> visit c w = Some (w', r) -> evolves w w') ->
  forall w w' r, for_each visit cs w = Some (w', r) -> evolves w w'.
Proof.
  induction cs as [|c cs IH]; intros Hvisit w w' r.
  - intros [= <- <-]. apply evolves_refl.
  - cbn [for_each].
    destruct (visit c w) as [[w1 [ex|u]]|] eqn:Hc; [| |discriminate].
    + intros [= <- <-]. eapply Hvisit; [now left | exact Hc].
    + intros Hrest. eapply evolves_trans.
      * eapply Hvisit; [now left | exact Hc].
      * eapply IH; [|exact Hrest]. intros c' ? ? ? Hin. apply Hvisit. now right.
Qed.

(** The frame of the iteration: whatever it returns, the world has only
    evolved. *)
Lemma iter_pre_evolves (fuel : nat) :
  forall e w w' r, iter_pre config fuel e w = Some (w', r) -> evolves w w'.
Proof.
  induction fuel as [|fuel IH]; intros e w w' r; [discriminate|].
  cbn [iter_pre].
  destruct ((if tag_eqb (n_tag (elems w e)) "pre" then loop_body config e else mret tt) w)
    as [w1 r1] eqn:Hbody.
  destruct (loop_body_evolves e w w1 r1 Hbody) as [Hev _].
  destruct r1 as [ex|u].
  - now intros [= <- <-].
  - intros Hrest. eapply evolves_trans; [exact Hev|].
    eapply for_each_evolves; [|exact Hrest]. intros c ? ? ? _. apply IH.
Qed.

Lemma not_code_block_kept (w w1 : world) (e : loc) :
  evolves w w1 -> is_code_block (elems w) e = false ->
  elems w1 e = elems w e /\ is_code_block (elems w1) e = false.
Proof.
  intros Hev Hn. pose proof Hev as [Hx _].
  destruct (Hx e) as [He | [Hcb _]]; [|congruence].
  split; [exact He|].
  destruct (is_code_block (elems w1) e) eqn:Hcb; [|reflexivity].
  unfold Spec.is_code_block in *. apply andb_true_iff in Hcb as [Hpre Hsc].
  destruct (code_block_back w w1 e Hev He Hsc) as [Hsc0 _].
  rewrite He in Hpre. now rewrite Hpre, Hsc0 in Hn.
Qed.

Lemma visited_later (w w1 : world) (c x : loc) :
  evolves w w1 -> Spec.visited (elems w) c x -> Spec.visited (elems w1) c x.
Proof.
  intros Hev. induction 1 as [e | e c x Hn Hin _ IH]; [constructor|].
  destruct (not_code_block_kept w w1 e Hev Hn) as [He Hn1].
  apply (Spec.visited_below _ e c x); [exact Hn1 | now rewrite He | exact IH].
Qed.

(** A code block of the start is, later on, stashed or still a code
    block. *)
Lemma code_block_later (w w1 : world) (x : loc) :
  evolves w w1 -> is_code_block (elems w) x = true ->
  stashed w w1 x
  \/ (elems w1 x = elems w x /\ is_code_block (elems w1) x = true).
Proof.
  intros Hev Hcb. pose proof Hev as [Hx _].
  destruct (Hx x) as [He | [_ Hst]]; [right | now left].
  split; [exact He|].
  unfold Spec.is_code_block, Spec.is_single_code in *. rewrite He.
  apply andb_true_iff in Hcb as [Hpre Hsc]. rewrite Hpre. cbn [andb].
  destruct (n_children (elems w x)) as [|c [|c' cs]]; try discriminate.
  destruct (Hx c) as [Hc | [Hcbc _]]; [now rewrite Hc|].
  apply andb_true_iff in Hcbc as [Hprec _].
  apply pre_not_code in Hprec. congruence.
Qed.

Lemma stashed_earlier (w w1 w' : world) (x : loc) :
  evolves w w1 -> elems w1 x = elems w x -> is_code_block (elems w1) x = true ->
  Spec.stashed config w1 w' x -> stashed w w' x.
Proof.
  intros Hev He Hcb [i [html [Hx [Hi Hf]]]]. exists i, html.
  split; [exact Hx|]. split; [exact Hi|].
  unfold Spec.is_code_block in Hcb. apply andb_true_iff in Hcb as [_ Hsc].
  now apply (fragment_back w w1).
Qed.

Lemma for_each_covers (visit : loc -> world -> option (world * result unit))
  (cs : list loc) :
  (forall c w w' r, visit c w = Some (w', r) -> evolves w w') ->
  (forall c w w', visit c w = Some (w', inr tt) ->
     forall x, Spec.visited (elems w) c x -> is_code_block (elems w) x = true ->
               stashed w w' x) ->
  forall w w', for_each visit cs w = Some (w', inr tt) ->
    forall c x, In c cs -> Spec.visited (elems w) c x ->
                is_code_block (elems w) x = true -> stashed w w' x.
Proof.
  intros Hev Hcov. induction cs as [|c0 cs IH]; intros w w' Hrun c x Hin Hvis Hcb;
    [destruct Hin|].
  cbn [for_each] in Hrun.
  destruct (visit c0 w) as [[w1 [ex|[]]]|] eqn:Hc0; try discriminate.
  assert (Hev1 : evolves w w1) by (eapply Hev; exact Hc0).
  assert (Hev2 : evolves w1 w').
  { eapply for_each_evolves; [|exact Hrun]. intros ? ? ? ? _. apply Hev. }
  destruct Hin as [<- | Hin].
  - eapply stashed_later; [|exact Hev2]. eapply Hcov; eauto.
  - destruct (code_block_later w w1 x Hev1 Hcb) as [Hst | [He Hcb1]].
    + eapply stashed_later; eauto.
    + eapply stashed_earlier; eauto.
      eapply IH; eauto. now apply (visited_later w w1).
Qed.

(** The iteration stashes every code block it comes to. *)
Lemma iter_pre_covers (fuel : nat) :
  forall e w w', iter_pre config fuel e w = Some (w', inr tt) ->
    forall x, Spec.visited (elems w) e x -> is_code_block (elems w) x = true ->
              stashed w w' x.
Proof.
  induction fuel as [|fuel IH]; intros e w w'; [discriminate|].
  cbn [iter_pre].
  destruct ((if tag_eqb (n_tag (elems w e)) "pre" then loop_body config e else mret tt) w)
    as [w1 r1] eqn:Hbody.
  destruct (loop_body_evolves e w w1 r1 Hbody) as [Hev1 [Hblock Hother]].
  destruct r1 as [ex|[]]; [discriminate|].
  intros Hrest x Hvis Hcb.
  assert (Hev2 : evolves w1 w').
  { eapply for_each_evolves; [|exact Hrest]. intros ? ? ? ? _. apply iter_pre_evolves. }
  destruct (is_code_block (elems w) e) eqn:Hcbe.
  - destruct (Hblock eq_refl eq_refl) as [Hst Hnil].
    inversion Hvis as [e' | e' c x' Hn _ _]; subst; [|congruence].
    eapply stashed_later; eauto.
  - specialize (Hother eq_refl).
    inversion Hvis as [e' | e' c x' Hn Hin Hvis']; subst; [congruence|].
    destruct (code_block_later w w1 x Hev1 Hcb) as [Hst | [He Hcb1]].
    + eapply stashed_later; eauto.
    + eapply stashed_earlier; eauto.
      apply (for_each_covers (iter_pre config fuel) (n_children (elems w1 e))
               (iter_pre_evolves fuel) IH w1 w' Hrest c x).
      * now rewrite Hother.
      * now rewrite Hother.
      * exact Hcb1.
Qed.

(** *** Enough fuel *)

Lemma shallow_later (w w1 : world) (n : nat) (x : loc) :
  evolves w w1 -> Spec.shallow (elems w) n x -> Spec.shallow (elems w1) n x.
Proof.
  intros Hev. induction 1 as [n e _ IH]. constructor. intros c Hin.
  pose proof Hev as [Hx _].
  destruct (Hx e) as [He | [_ [i [html [He _]]]]].
  - apply IH. now rewrite <- He.
  - rewrite He in Hin. destruct Hin.
Qed.

Lemma for_each_returns (visit : loc -> world -> option (world * result unit))
  (n : nat) (cs : list loc) :
  (forall c w w' r, visit c w = Some (w', r) -> evolves w w') ->
  (forall c w, Spec.shallow (elems w) n c -> exists w' r, visit c w = Some (w', r)) ->
  forall w, (forall c, In c cs -> Spec.shallow (elems w) n c) ->
            exists w' r, for_each visit cs w = Some (w', r).
Proof.
  intros Hev Hret. induction cs as [|c cs IH]; intros w Hsh; [cbn; eauto|].
  cbn [for_each].
  destruct (Hret c w (Hsh c (or_introl eq_refl))) as [w1 [r1 Hc]]. rewrite Hc.
  destruct r1 as [ex|u]; [eauto|].
  apply IH. intros c' Hin. apply (shallow_later w w1); [eapply Hev; exact Hc|].
  apply Hsh. now right.
Qed.

(** With fuel for the levels of the tree, the iteration comes to an end. *)
Lemma iter_pre_returns (fuel : nat) :
  forall e w, Spec.shallow (elems w) fuel e ->
              exists w' r, iter_pre config fuel e w = Some (w', r).
Proof.
  induction fuel as [|fuel IH]; intros e w Hsh; [inversion Hsh|].
  inversion Hsh as [n e' Hkids]; subst.
  cbn [iter_pre].
  destruct ((if tag_eqb (n_tag (elems w e)) "pre" then loop_body config e else mret tt) w)
    as [w1 r1] eqn:Hbody.
  destruct (loop_body_evolves e w w1 r1 Hbody) as [Hev _].
  destruct r1 as [ex|u]; [eauto|].
  apply (for_each_returns (iter_pre config fuel) fuel);
    [apply iter_pre_evolves | exact IH |].
  intros c Hin. apply (shallow_later w w1 fuel c Hev). apply Hkids.
  pose proof Hev as [Hx _].
  destruct (Hx e) as [He | [_ [i [html [He _]]]]]; rewrite He in Hin;
    [exact Hin | destruct Hin].
Qed.

(** *** No raise without pygments *)

Lemma keywords_fresh (d : gmap string pyval) (t s : pyval) :
  d !! "tab_length" = None -> d !! "style" = None ->
  keywords [("tab_length", t); ("style", s)] d
  = inr (<["tab_length" := t]> (<["style" := s]> d)).
Proof.
  intros Ht Hs. cbn [keywords bind ret]. rewrite Hs. cbn.
  rewrite lookup_insert_ne by discriminate. now rewrite Ht.
Qed.

(** The call of [CodeHilite] returns the object when the configuration
    holds no [self] and no [src]. *)
Lemma call_fresh (text : string) (t s : pyval) :
  config !! "src" = None -> config !! "self" = None ->
  CodeHilite_call text
    (<["tab_length" := t]> (<["style" := s]> (delete "pygments_style" config)))
  = inr (__init__ text
           (<["tab_length" := t]> (<["style" := s]> (delete "pygments_style" config)))).
Proof.
  intros Hsrc Hself. unfold CodeHilite_call.
  rewrite !lookup_insert_ne, !lookup_delete_ne by discriminate.
  now rewrite Hsrc, Hself.
Qed.

Lemma texts_present_later (w w1 : world) :
  evolves w w1 -> Spec.texts_present (elems w) -> Spec.texts_present (elems w1).
Proof.
  intros Hev Hp x c Hcb Hch.
  pose proof Hev as [Hx _].
  destruct (Hx x) as [He | [_ [i [html [He _]]]]].
  - unfold Spec.is_code_block in Hcb. apply andb_true_iff in Hcb as [Hpre Hsc].
    destruct (code_block_back w w1 x Hev He Hsc) as [Hsc0 Hc].
    rewrite He in Hch, Hpre. rewrite (Hc c Hch).
    apply (Hp x c); [|exact Hch].
    unfold Spec.is_code_block. now rewrite Hpre, Hsc0.
  - unfold Spec.is_code_block in Hcb. rewrite He, stub_not_pre in Hcb. discriminate.
Qed.

Section Plain.

Hypothesis no_pygments : pygments = false.
Hypothesis no_tab_length : config !! "tab_length" = None.
Hypothesis no_style : config !! "style" = None.
Hypothesis no_src : config !! "src" = None.
Hypothesis no_self : config !! "self" = None.

Lemma loop_body_plain (e : loc) (w w1 : world) (r : result unit) :
  Spec.texts_present (elems w) ->
  (if tag_eqb (n_tag (elems w e)) "pre" then loop_body config e else mret tt) w = (w1, r) ->
  r = inr tt.
Proof.
  intros Hp.
  destruct (tag_eqb (n_tag (elems w e)) "pre") eqn:Hpre; [|now intros [= <- <-]].
  unfold loop_body, mbind, get.
  destruct (n_children (elems w e)) as [|c [|c' cs]] eqn:Hch;
    try (now intros [= <- <-]).
  destruct (tag_eqb (n_tag (elems w c)) "code") eqn:Hcode; [|now intros [= <- <-]].
  assert (Htext : n_text (elems w c) <> None).
  { apply (Hp e c); [|exact Hch].
    unfold Spec.is_code_block, Spec.is_single_code. now rewrite Hpre, Hch, Hcode. }
  destruct (n_text (elems w c)) as [text|]; [|congruence].
  unfold lift, code_unescape, ret, pop. cbn [fst snd].
  rewrite keywords_fresh
    by (rewrite lookup_delete_ne by discriminate; assumption).
  rewrite call_fresh by assumption.
  unfold hilite_in_world.
  match goal with
  | |- context [hilite true (?code, calls w)] =>
      destruct (hilite_fallback_gen code true (calls w)) as [self' [cs [ln [Hh _]]]];
      [apply init_has_keys | now rewrite no_pygments | rewrite Hh]
  end.
  unfold store, set_elem, modify. cbn. now intros [= <- <-].
Qed.

Lemma for_each_plain (visit : loc -> world -> option (world * result unit))
  (cs : list loc) :
  (forall c w w' r, visit c w = Some (w', r) -> evolves w w') ->
  (forall c w w' r, Spec.texts_present (elems w) -> visit c w = Some (w', r) -> r = inr tt) ->
  forall w w' r, Spec.texts_present (elems w) ->
                 for_each visit cs w = Some (w', r) -> r = inr tt.
Proof.
  intros Hev Hplain. induction cs as [|c cs IH]; intros w w' r Hp.
  - now intros [= <- <-].
  - cbn [for_each]. destruct (visit c w) as [[w1 r1]|] eqn:Hc; [|discriminate].
    pose proof (Hplain c w w1 r1 Hp Hc) as ->.
    apply IH. apply (texts_present_later w w1); [eapply Hev; exact Hc | exact Hp].
Qed.

Lemma iter_pre_plain (fuel : nat) :
  forall e w w' r, Spec.texts_present (elems w) ->
                   iter_pre config fuel e w = Some (w', r) -> r = inr tt.
Proof.
  induction fuel as [|fuel IH]; intros e w w' r Hp; [discriminate|].
  cbn [iter_pre].
  destruct ((if tag_eqb (n_tag (elems w e)) "pre" then loop_body config e else mret tt) w)
    as [w1 r1] eqn:Hbody.
  pose proof (loop_body_plain e w w1 r1 Hp Hbody) as ->.
  destruct (loop_body_evolves e w w1 _ Hbody) as [Hev _].
  apply (for_each_plain (iter_pre config fuel)); [apply iter_pre_evolves | exact IH |].
  now apply (texts_present_later w w1).
Qed.

End Plain.

(** C10: whatever [run] returns, and also when it raises, an element that
    was not a [pre] with exactly one child of the tag [code] is as it was:
    its tag, attributes, text, tail and children. *)
Theorem run_frame (fuel : nat) (root : loc) (w w' : world) (r : result unit) (x : loc) :
  run config fuel root w = Some (w', r) ->
  is_code_block (elems w) x = false ->
  elems w' x = elems w x.
Proof.
  intros Hrun Hn. apply iter_pre_evolves in Hrun as [Hx _].
  destruct (Hx x) as [He | [Hcb _]]; [exact He | congruence].
Qed.

(** C2, as amended: after [run] returned, every [pre] with exactly one
    child of the tag [code] that the iteration comes to, that is, which is
    not below another such element, is a [p] without children (and without
    attributes and tail) whose text is the placeholder of a fragment in the
    stash: the fragment [hilite] returned for the unescaped text of the
    child.  [run] comes to an end with fuel for the levels of the tree, and
    without pygments it returns when every such child has a text and the
    configuration holds none of the keys that [run] gives itself in the call
    of [CodeHilite]: [tab_length] and [style], by keyword, and [src] and
    [self], by position. *)
Theorem run_stashes_code_blocks (fuel : nat) (root : loc) (w : world) :
  (forall w' x,
      run config fuel root w = Some (w', inr tt) ->
      Spec.visited (elems w) root x ->
      is_code_block (elems w) x = true ->
      exists i html,
        elems w' x = mkNode (TagStr "p") [] (Some (get_placeholder i)) None []
        /\ rawHtmlBlocks w' !! i = Some html
        /\ fragment_of (elems w) x html)
  /\ (Spec.shallow (elems w) fuel root ->
      exists w' r, run config fuel root w = Some (w', r))
  /\ (pygments = false -> config !! "tab_length" = None -> config !! "style" = None ->
      config !! "src" = None -> config !! "self" = None ->
      Spec.texts_present (elems w) -> Spec.shallow (elems w) fuel root ->
      exists w', run config fuel root w = Some (w', inr tt)).
Proof.
  split; [|split].
  - intros w' x Hrun Hvis Hcb.
    exact (iter_pre_covers fuel root w w' Hrun x Hvis Hcb).
  - apply iter_pre_returns.
  - intros Hpyg Ht Hs Hsrc Hself Hp Hsh.
    destruct (iter_pre_returns fuel root w Hsh) as [w' [r Hrun]].
    exists w'. unfold run. rewrite Hrun.
    now rewrite (iter_pre_plain Hpyg Ht Hs Hsrc Hself fuel root w w' r Hp Hrun).
Qed.

End Processor.

(** [run] on the tree of the examples, without pygments. *)
Lemma run_example :
  @CodeHilite.run Examples.interp_default Examples.pygments_missing Examples.md_default
    ∅ 4 0 Spec.world_example
  = Some (Spec.world_after, inr tt).
Proof. vm_compute. reflexivity. Qed.

Lemma run_frame_witness :
  @CodeHilite.run Examples.interp_default Examples.pygments_missing Examples.md_default
    ∅ 4 0 Spec.world_example
  = Some (Spec.world_after, inr tt)
  /\ Spec.is_code_block Spec.heap_example 4 = false
  /\ CodeHilite.elems Spec.world_after 4 = Spec.heap_example 4.
Proof.
  split; [exact run_example|]. split; [reflexivity|].
  exact (@run_frame Examples.interp_default Examples.pygments_missing Examples.md_default
           ∅ 4 0 Spec.world_example Spec.world_after (inr tt) 4 run_example eq_refl).
Defined.

(** C2 as it was stated fails: a code block inside the [code] of a code
    block is left as it was, a [pre] with its child. *)
Lemma run_skips_nested_code_block :
  Spec.is_code_block Spec.heap_example 3 = true
  /\ @CodeHilite.run Examples.interp_default Examples.pygments_missing Examples.md_default
       ∅ 4 0 Spec.world_example
     = Some (Spec.world_after, inr tt)
  /\ CodeHilite.elems Spec.world_after 3
     = CodeHilite.mkNode (ETree.TagStr "pre") [] None None [5].
Proof. split; [reflexivity|]. split; [exact run_example | reflexivity]. Qed.

Lemma run_stashes_code_blocks_witness :
  Spec.visited Spec.heap_example 0 1
  /\ Spec.is_code_block Spec.heap_example 1 = true
  /\ exists i html,
      CodeHilite.elems Spec.world_after 1
      = CodeHilite.mkNode (ETree.TagStr "p") []
          (Some (@CodeHilite.get_placeholder Examples.md_default i)) None []
      /\ CodeHilite.rawHtmlBlocks Spec.world_after !! i = Some html
      /\ @Spec.fragment_of Examples.interp_default Examples.pygments_missing
           Examples.md_default ∅ Spec.heap_example 1 html.
Proof.
  assert (Hvis : Spec.visited Spec.heap_example 0 1).
  { apply (Spec.visited_below _ 0 1 1); [reflexivity | now left | constructor]. }
  split; [exact Hvis|]. split; [reflexivity|].
  exact (proj1 (@run_stashes_code_blocks Examples.interp_default Examples.pygments_missing
                  Examples.md_default ∅ 4 0 Spec.world_example)
           Spec.world_after 1 run_example Hvis eq_refl).
Defined.

(** * Further properties *)

(** A fact about one character, checked on each of the 256. *)
Ltac each_char c :=
  destruct c as [[] [] [] [] [] [] [] []]; try reflexivity; try discriminate.

(** ** The header line *)

Section HeaderLine.

Import CodeHilite.

Lemma span_all (p : ascii -> bool) (s t : string) :
  More.all_in p s = true ->
  match t with "" => True | String c _ => p c = false end ->
  Re.span p (s +:+ t) = (s, t).
Proof.
  intros Hs Ht. induction s as [|a s IH].
  - destruct t as [|c t]; [reflexivity|]. cbn. now rewrite Ht.
  - cbn [More.all_in] in Hs. apply andb_true_iff in Hs as [Ha Hs].
    rewrite append_cons. cbn [Re.span]. now rewrite Ha, (IH Hs).
Qed.

(** No path where the line goes on with a character of a language name. *)
Lemma path_at_lang_char (fuel : nat) (c : ascii) (r : string) :
  Re.is_lang_char c = true -> Re.path_at fuel (String c r) = None.
Proof.
  intros Hc. destruct fuel as [|fuel]; [reflexivity|].
  cbn [Re.path_at]. revert Hc. each_char c.
Qed.

Lemma lang_char_not_colon (c : ascii) :
  Re.is_lang_char c = true -> Ascii.eqb c ":" = false.
Proof. each_char c. Qed.

(** The rest of the pattern on a language name alone. *)
Lemma header_rest_name (shebang : option string) (name : string) :
  More.is_lang_name name = true ->
  Re.header_rest shebang name
  = {| Re.g_shebang := shebang; Re.g_path := None; Re.g_lang := name;
       Re.g_hl_lines := None |}.
Proof.
  unfold More.is_lang_name. intros H. apply andb_true_iff in H as [Hne Hall].
  destruct name as [|c r]; [discriminate|].
  pose proof Hall as Hall'. cbn [More.all_in] in Hall'.
  apply andb_true_iff in Hall' as [Hc _].
  unfold Re.header_rest. rewrite path_at_lang_char by exact Hc.
  rewrite <- (append_nil_r (String c r)) at 1.
  rewrite (span_all Re.is_lang_char (String c r) "" Hall I).
  reflexivity.
Qed.

Lemma until_quote_value (q : ascii) (v t : string) :
  More.is_quotable q v = true -> Re.until_quote q (v +:+ String q t) = Some v.
Proof.
  unfold More.is_quotable. induction v as [|c v IH]; intros H.
  - cbn. now rewrite Ascii.eqb_refl.
  - cbn [More.all_in] in H. apply andb_true_iff in H as [Hc Hv].
    apply andb_true_iff in Hc as [Hq Hn]. apply negb_true_iff in Hq, Hn.
    rewrite append_cons. cbn [Re.until_quote]. now rewrite Hq, Hn, (IH Hv).
Qed.

Lemma substring_whole (s : string) : substring 0 (String.length s) s = s.
Proof. induction s as [|c s IH]; [reflexivity|]. cbn. now rewrite IH. Qed.

Lemma hl_lines_at_value (q : ascii) (v t : string) :
  Ascii.eqb q "034" || Ascii.eqb q "'" = true ->
  More.is_quotable q v = true ->
  Re.hl_lines_at ("hl_lines=" +:+ String q (v +:+ String q t)) = Some v.
Proof.
  intros Hq Hv. unfold Re.hl_lines_at.
  change (String.prefix "hl_lines=" ("hl_lines=" +:+ String q (v +:+ String q t)))
    with (String.prefix "" (String q (v +:+ String q t))).
  cbn [String.prefix].
  change (substring 9 (String.length ("hl_lines=" +:+ String q (v +:+ String q t)) - 9)
            ("hl_lines=" +:+ String q (v +:+ String q t)))
    with (substring 0 (String.length (String q (v +:+ String q t)) - 0)
            (String q (v +:+ String q t))).
  rewrite Nat.sub_0_r, substring_whole, Hq. now apply until_quote_value.
Qed.

(** The rest of the pattern on a name and what may follow it. *)
Lemma header_rest_parts (shebang : option string) (name : string)
  (hl : option (ascii * string)) :
  More.is_header_line None name hl = true ->
  Re.header_rest shebang
    (name +:+ match hl with
              | None => ""
              | Some (q, v) => " hl_lines=" +:+ String q (v +:+ String q "")
              end)
  = {| Re.g_shebang := shebang; Re.g_path := None; Re.g_lang := name;
       Re.g_hl_lines := snd <$> hl |}.
Proof.
  unfold More.is_header_line. cbn [andb]. intros H.
  apply andb_true_iff in H as [Hname Hhl].
  destruct hl as [[q v]|].
  - apply andb_true_iff in Hhl as [Hq Hv].
    pose proof Hname as Hn. unfold More.is_lang_name in Hn.
    apply andb_true_iff in Hn as [Hne Hall].
    destruct name as [|c r]; [discriminate|].
    pose proof Hall as Hall'. cbn [More.all_in] in Hall'.
    apply andb_true_iff in Hall' as [Hc _].
    unfold Re.header_rest. rewrite append_cons, path_at_lang_char by exact Hc.
    rewrite <- append_cons.
    rewrite (span_all Re.is_lang_char (String c r) _ Hall) by reflexivity.
    change (" hl_lines=" +:+ String q (v +:+ String q ""))
      with (" " +:+ ("hl_lines=" +:+ String q (v +:+ String q ""))).
    rewrite (span_all isspace " " _ eq_refl) by reflexivity.
    now rewrite hl_lines_at_value.
  - rewrite append_nil_r. now apply header_rest_name.
Qed.

(** The match of a header line without a path. *)
Lemma header_search_line (colons : option string) (name : string)
  (hl : option (ascii * string)) :
  More.is_header_line colons name hl = true ->
  Re.header_search (More.header_line colons name hl)
  = Some {| Re.g_shebang := match colons with None => Some "#!" | Some _ => None end;
            Re.g_path := None; Re.g_lang := name; Re.g_hl_lines := snd <$> hl |}.
Proof.
  intros H. destruct colons as [cs|].
  - unfold More.is_header_line in H.
    apply andb_true_iff in H as [H Hhl]. apply andb_true_iff in H as [Hcs Hname].
    assert (Hline : More.is_header_line None name hl = true).
    { unfold More.is_header_line. now rewrite Hname, Hhl. }
    unfold More.header_line. cbn [String.append Re.header_search].
    assert (Hstrip : forall t, match t with "" => True
                                       | String c _ => Ascii.eqb ":" c = false end ->
                               lstrip (Ascii.eqb ":") (cs +:+ t) = t).
    { intros t Ht. induction cs as [|c cs IH]; cbn [More.all_in] in Hcs.
      - destruct t as [|c t]; [reflexivity|]. cbn [String.append lstrip]. now rewrite Ht.
      - apply andb_true_iff in Hcs as [Hc Hcs]. rewrite append_cons. cbn [lstrip].
        rewrite Hc. now apply IH. }
    rewrite Hstrip.
    + now rewrite header_rest_parts.
    + unfold More.is_lang_name in Hname. apply andb_true_iff in Hname as [Hne Hall].
      destruct name as [|c r]; [discriminate|]. cbn [More.all_in] in Hall.
      apply andb_true_iff in Hall as [Hc _]. rewrite append_cons.
      rewrite Ascii.eqb_sym. now apply lang_char_not_colon.
  - unfold More.header_line. cbn [String.append Re.header_search].
    now rewrite header_rest_parts.
Qed.

Context {interp : Interpreter} {pyg : Pygments}.

(** X1: a [CodeHilite] without a language whose source starts with a
    header line without a path: [#!] or two or more colons, a language name
    and, if given, [hl_lines] between quotes.  After [hilite] the language
    is the name in lower case, the line is taken off the source, [hl_lines]
    holds what [parse_hl_lines] gives for the value between the quotes,
    line numbering is turned on for [#!] when [linenos] was [None], and
    every other option is what it was. *)
Theorem hilite_header_line (src0 : string) (kw : gmap string pyval)
  (tr : list ext_call) (colons : option string) (name : string)
  (hl : option (ascii * string)) (rest : list string) :
  lang (__init__ src0 kw) = PNone ->
  More.is_header_line colons name hl = true ->
  split nl (strip is_nl src0) = More.header_line colons name hl :: rest ->
  let code := __init__ src0 kw in
  let self' := fst (fst (hilite true (code, tr))) in
  exists lines,
    parse_hl_lines (snd <$> hl) = inr lines
    /\ lang self' = PStr (lower name)
    /\ src self' = strip is_nl (join (String nl "") rest)
    /\ options self' !! "hl_lines" = Some (PInts lines)
    /\ options self' !! "linenos"
       = match colons, options code !! "linenos" with
         | None, Some PNone => Some (PBool true)
         | _, linenos => linenos
         end
    /\ (forall k, k <> "hl_lines" -> k <> "linenos" ->
                  options self' !! k = options code !! k).
Proof.
  intros Hlang Hline Hsplit code self'.
  destruct (init_has_keys src0 kw) as [[v Hv] _]. fold code in Hv.
  assert (Hname : name <> "").
  { intros ->. unfold More.is_header_line, More.is_lang_name in Hline.
    cbn [String.eqb negb andb] in Hline. rewrite andb_false_r in Hline.
    discriminate Hline. }
  destruct (hilite_state_match code tr _ rest _ v Hlang Hv Hsplit
              (header_search_line colons name hl Hline) Hname)
    as [lines [Hhl [Hl [Hs Ho]]]].
  fold self' in Hl, Hs, Ho. cbn [Re.g_lang Re.g_path Re.g_hl_lines Re.g_shebang nonempty]
    in Hhl, Hl, Hs, Ho.
  exists lines. split; [exact Hhl|]. split; [exact Hl|]. split; [exact Hs|].
  rewrite Ho, Hv. split; [apply lookup_insert_eq|]. split.
  - rewrite lookup_insert_ne by discriminate.
    destruct colons as [cs|]; cbn [nonempty].
    + now rewrite andb_false_r.
    + destruct v; cbn [is_None andb]; first [apply lookup_insert_eq | exact Hv].
  - intros k Hk1 Hk2. rewrite lookup_insert_ne by congruence.
    destruct (is_None v && _); [|reflexivity].
    now rewrite lookup_insert_ne by congruence.
Qed.

End HeaderLine.

Lemma hilite_header_line_witness :
  CodeHilite.lang (CodeHilite.__init__ (":::C++ hl_lines='1 3'" +:+ String nl "x") ∅) = PNone
  /\ More.is_header_line (Some ":") "C++" (Some ("'"%char, "1 3")) = true
  /\ split nl (strip is_nl (":::C++ hl_lines='1 3'" +:+ String nl "x"))
     = More.header_line (Some ":") "C++" (Some ("'"%char, "1 3")) :: ["x"]
  /\ exists lines,
      @CodeHilite.parse_hl_lines Examples.interp_default (snd <$> Some ("'"%char, "1 3"))
      = inr lines
      /\ CodeHilite.lang
           (fst (fst (@CodeHilite.hilite Examples.interp_default Examples.pygments_stub true
                        (CodeHilite.__init__ (":::C++ hl_lines='1 3'" +:+ String nl "x") ∅,
                         []))))
         = PStr "c++".
Proof.
  assert (Hlang : CodeHilite.lang
                    (CodeHilite.__init__ (":::C++ hl_lines='1 3'" +:+ String nl "x") ∅)
                  = PNone) by reflexivity.
  assert (Hline : More.is_header_line (Some ":") "C++" (Some ("'"%char, "1 3")) = true)
    by reflexivity.
  assert (Hsplit : split nl (strip is_nl (":::C++ hl_lines='1 3'" +:+ String nl "x"))
                   = More.header_line (Some ":") "C++" (Some ("'"%char, "1 3")) :: ["x"])
    by reflexivity.
  split; [exact Hlang|]. split; [exact Hline|]. split; [exact Hsplit|].
  destruct (@hilite_header_line Examples.interp_default Examples.pygments_stub
              (":::C++ hl_lines='1 3'" +:+ String nl "x") ∅ [] (Some ":") "C++"
              (Some ("'"%char, "1 3")) ["x"] Hlang Hline Hsplit)
    as [lines [Hhl [Hl _]]].
  exists lines. split; [exact Hhl | exact Hl].
Defined.

(** ** A real shebang line *)

Section RealShebang.

Import CodeHilite.

(** No path where the line is at its end, or goes on with a character that
    is neither [/] nor a blank. *)
Lemma path_at_none (fuel : nat) (t : string) :
  match t with
  | "" => True
  | String c _ => Ascii.eqb c "/" || Ascii.eqb c " " = false
  end ->
  Re.path_at fuel t = None.
Proof.
  intros Ht. destruct fuel as [|fuel]; [reflexivity|].
  destruct t as [|c r]; [reflexivity|].
  cbn [Re.path_at]. rewrite Ht.
  apply orb_false_iff in Ht as [Hslash _].
  apply Ascii.eqb_neq in Hslash.
  destruct c as [[] [] [] [] [] [] [] []]; try reflexivity. congruence.
Qed.

Lemma span_rest_all (p q : ascii -> bool) (s : string) :
  More.all_in p s = true -> More.all_in p (snd (Re.span q s)) = true.
Proof.
  induction s as [|c s IH]; [reflexivity|].
  intros Hs. cbn [Re.span]. destruct (q c); [|exact Hs].
  cbn [More.all_in] in Hs. apply andb_true_iff in Hs as [_ Hs].
  specialize (IH Hs). now destruct (Re.span q s).
Qed.

Lemma lang_char_not_sep (c : ascii) :
  Re.is_lang_char c = true -> Ascii.eqb c "/" || Ascii.eqb c " " = false.
Proof. each_char c. Qed.

Lemma sep_not_word (c : ascii) :
  Ascii.eqb c "/" || Ascii.eqb c " " = true -> Re.is_word c = false.
Proof. each_char c. Qed.

(** The last character of a path, before a language name. *)
Lemma path_at_sep (fuel : nat) (sep : ascii) (name : string) :
  Ascii.eqb sep "/" || Ascii.eqb sep " " = true ->
  More.all_in Re.is_lang_char name = true ->
  Re.path_at (S fuel) (String sep name) = Some (String sep "", name).
Proof.
  intros Hsep Hname.
  assert (Hiter : forall s1, sep = "/"%char -> s1 = name ->
            match Re.span Re.is_word s1 with
            | (String a w, s2) =>
                match Re.path_at fuel s2 with
                | Some (p, rest) => Some (String "/" (String a w) +:+ p, rest)
                | None => None
                end
            | _ => None
            end = None).
  { intros s1 _ ->. pose proof (span_rest_all Re.is_lang_char Re.is_word name Hname) as Hrest.
    destruct (Re.span Re.is_word name) as [[|a w] s2]; [reflexivity|].
    cbn [snd] in Hrest. rewrite path_at_none; [reflexivity|].
    destruct s2 as [|c s2]; [exact I|]. cbn [More.all_in] in Hrest.
    apply andb_true_iff in Hrest as [Hc _]. now apply lang_char_not_sep. }
  cbn [Re.path_at]. rewrite Hsep.
  destruct (Ascii.eqb_spec sep "/") as [->|Hne].
  - now rewrite (Hiter name eq_refl eq_refl).
  - destruct sep as [[] [] [] [] [] [] [] []]; try reflexivity. congruence.
Qed.

(** A path starts with a [/] or a blank, which is no word character. *)
Lemma path_of_cons (dirs : list string) (sep : ascii) :
  Ascii.eqb sep "/" || Ascii.eqb sep " " = true ->
  exists c r, More.path_of dirs sep = String c r
              /\ Ascii.eqb c "/" || Ascii.eqb c " " = true.
Proof.
  intros Hsep. destruct dirs as [|d dirs]; cbn; eauto.
Qed.

(** The path of a header line is read whole, given fuel for its
    directories. *)
Lemma path_at_path (dirs : list string) (sep : ascii) (name : string) :
  More.is_path dirs sep = true ->
  More.all_in Re.is_lang_char name = true ->
  forall fuel, length dirs < fuel ->
    Re.path_at fuel (More.path_of dirs sep +:+ name) = Some (More.path_of dirs sep, name).
Proof.
  unfold More.is_path. intros Hpath Hname.
  apply andb_true_iff in Hpath as [Hdirs Hsep].
  induction dirs as [|d dirs IH]; intros fuel Hfuel.
  - destruct fuel as [|fuel]; [inversion Hfuel|].
    apply path_at_sep; assumption.
  - cbn [forallb] in Hdirs. apply andb_true_iff in Hdirs as [Hd Hdirs].
    destruct fuel as [|fuel]; [inversion Hfuel|].
    cbn [length] in Hfuel. apply Nat.succ_lt_mono in Hfuel.
    specialize (IH Hdirs fuel Hfuel).
    unfold More.is_dir in Hd. apply andb_true_iff in Hd as [Hne Hword].
    destruct d as [|a w]; [discriminate|].
    destruct (path_of_cons dirs sep Hsep) as [c [r [Hp Hc]]].
    cbn [More.path_of fold_right]. fold (More.path_of dirs sep).
    cbn [String.append Re.path_at].
    rewrite append_assoc.
    change (String a (w +:+ More.path_of dirs sep +:+ name))
      with (String a w +:+ More.path_of dirs sep +:+ name).
    rewrite (span_all Re.is_word (String a w) _ Hword)
      by (rewrite Hp, append_cons; now apply sep_not_word).
    now rewrite IH.
Qed.

Lemma path_of_length (dirs : list string) (sep : ascii) (name : string) :
  length dirs < S (String.length (More.path_of dirs sep +:+ name)).
Proof.
  induction dirs as [|d dirs IH]; [cbn; lia|].
  cbn [More.path_of fold_right length]. fold (More.path_of dirs sep).
  cbn [String.append String.length]. rewrite append_assoc.
  assert (Hlen : forall a b, String.length b <= String.length (a +:+ b)).
  { intros a b. induction a as [|x a IHa]; cbn; lia. }
  pose proof (Hlen d (More.path_of dirs sep +:+ name)). lia.
Qed.

(** The match of a shebang line with a path. *)
Lemma header_search_path (dirs : list string) (sep : ascii) (name : string) :
  More.is_path dirs sep = true ->
  More.is_lang_name name = true ->
  Re.header_search ("#!" +:+ More.path_of dirs sep +:+ name)
  = Some {| Re.g_shebang := Some "#!"; Re.g_path := Some (More.path_of dirs sep);
            Re.g_lang := name; Re.g_hl_lines := None |}.
Proof.
  intros Hpath Hname. unfold More.is_lang_name in Hname.
  apply andb_true_iff in Hname as [_ Hname].
  cbn [String.append Re.header_search]. unfold Re.header_rest.
  rewrite (path_at_path dirs sep name Hpath Hname) by apply path_of_length.
  rewrite <- (append_nil_r name) at 1.
  now rewrite (span_all Re.is_lang_char name "" Hname I).
Qed.

Context {interp : Interpreter} {pyg : Pygments}.

(** X2: a [CodeHilite] without a language whose source starts with a real
    shebang line: [#!], a path (directories, then a [/] or a blank) and a
    language name.  After [hilite] the language is the name in lower case
    and the source keeps the line; line numbering is turned on when
    [linenos] was [None], as for a mock shebang, and [hl_lines] is
    empty. *)
Theorem hilite_real_shebang (src0 : string) (kw : gmap string pyval)
  (tr : list ext_call) (dirs : list string) (sep : ascii) (name : string)
  (rest : list string) :
  lang (__init__ src0 kw) = PNone ->
  More.is_path dirs sep = true ->
  More.is_lang_name name = true ->
  split nl (strip is_nl src0) = ("#!" +:+ More.path_of dirs sep +:+ name) :: rest ->
  let code := __init__ src0 kw in
  let self' := fst (fst (hilite true (code, tr))) in
  lang self' = PStr (lower name)
  /\ src self' = strip is_nl src0
  /\ options self' !! "linenos"
     = match options code !! "linenos" with
       | Some PNone => Some (PBool true)
       | linenos => linenos
       end
  /\ options self' !! "hl_lines" = Some (PInts []).
Proof.
  intros Hlang Hpath Hname Hsplit code self'.
  destruct (init_has_keys src0 kw) as [[v Hv] _]. fold code in Hv.
  assert (Hne : name <> "").
  { intros ->. discriminate Hname. }
  destruct (hilite_state_match code tr _ rest _ v Hlang Hv Hsplit
              (header_search_path dirs sep name Hpath Hname) Hne)
    as [lines [Hhl [Hl [Hs Ho]]]].
  fold self' in Hl, Hs, Ho.
  cbn [Re.g_lang Re.g_path Re.g_hl_lines Re.g_shebang] in Hhl, Hl, Hs, Ho.
  injection Hhl as <-.
  assert (Hp : nonempty (Some (More.path_of dirs sep)) = true).
  { unfold More.is_path in Hpath. apply andb_true_iff in Hpath as [_ Hsep].
    destruct (path_of_cons dirs sep Hsep) as [c [r [-> _]]]. reflexivity. }
  rewrite Hp in Hs.
  split; [exact Hl|]. split.
  - rewrite Hs, <- Hsplit, join_split. apply strip_idem.
  - rewrite Ho, Hv. split; [|apply lookup_insert_eq].
    rewrite lookup_insert_ne by discriminate.
    destruct v; cbn [is_None andb nonempty]; first [apply lookup_insert_eq | exact Hv].
Qed.

End RealShebang.

Lemma hilite_real_shebang_witness :
  CodeHilite.lang (CodeHilite.__init__ ("#!/usr/bin/python3.8" +:+ String nl "x") ∅) = PNone
  /\ More.is_path ["usr"; "bin"] "/" = true
  /\ More.is_lang_name "python3.8" = true
  /\ split nl (strip is_nl ("#!/usr/bin/python3.8" +:+ String nl "x"))
     = ("#!" +:+ More.path_of ["usr"; "bin"] "/" +:+ "python3.8") :: ["x"]
  /\ CodeHilite.lang
       (fst (fst (@CodeHilite.hilite Examples.interp_default Examples.pygments_stub true
                    (CodeHilite.__init__ ("#!/usr/bin/python3.8" +:+ String nl "x") ∅, []))))
     = PStr "python3.8"
  /\ CodeHilite.src
       (fst (fst (@CodeHilite.hilite Examples.interp_default Examples.pygments_stub true
                    (CodeHilite.__init__ ("#!/usr/bin/python3.8" +:+ String nl "x") ∅, []))))
     = "#!/usr/bin/python3.8" +:+ String nl "x".
Proof.
  assert (Hlang : CodeHilite.lang
                    (CodeHilite.__init__ ("#!/usr/bin/python3.8" +:+ String nl "x") ∅)
                  = PNone) by reflexivity.
  assert (Hpath : More.is_path ["usr"; "bin"] "/" = true) by reflexivity.
  assert (Hname : More.is_lang_name "python3.8" = true) by reflexivity.
  assert (Hsplit : split nl (strip is_nl ("#!/usr/bin/python3.8" +:+ String nl "x"))
                   = ("#!" +:+ More.path_of ["usr"; "bin"] "/" +:+ "python3.8") :: ["x"])
    by reflexivity.
  split; [exact Hlang|]. split; [exact Hpath|]. split; [exact Hname|].
  split; [exact Hsplit|].
  destruct (@hilite_real_shebang Examples.interp_default Examples.pygments_stub
              ("#!/usr/bin/python3.8" +:+ String nl "x") ∅ [] ["usr"; "bin"] "/"
              "python3.8" ["x"] Hlang Hpath Hname Hsplit)
    as [Hl [Hs _]].
  split; [exact Hl | exact Hs].
Defined.

(** ** The source and the options after [hilite] *)

Section HiliteSource.

Import CodeHilite.

Context {interp : Interpreter} {pyg : Pygments}.

(** The fallback leaves the object as it is. *)
Lemma hilite_plain_state (st : CodeHilite * list ext_call) :
  fst (hilite_plain st) = st.
Proof.
  unfold hilite_plain, mbind, get, lift, mret.
  destruct (option_of "linenos" st.1); [reflexivity|].
  now destruct (option_of "cssclass" st.1).
Qed.

(** After the header was looked for, [hilite] keeps the source and the
    options, and a language that is known. *)
Lemma hilite_settles (self self2 : CodeHilite) (shebang : bool) (tr : list ext_call) :
  (if is_None (lang self) && shebang
   then _parseHeader (set_src (strip is_nl (src self)) self)
   else (set_src (strip is_nl (src self)) self, inr tt))
  = (self2, inr tt) ->
  Spec.settles self2 (fst (fst (hilite shebang (self, tr)))).
Proof.
  intros H2. rewrite hilite_unfold. cbv zeta. rewrite H2.
  destruct (pygments && truthy (use_pygments self2)).
  - apply (hilite_pygments_settling (self2, tr)).
  - rewrite hilite_plain_state. apply settles_refl.
Qed.

(** The two ways a header line can start. *)
Lemma header_search_cons (a b : ascii) (r : string) :
  Re.header_search (String a (String b r))
  = if Ascii.eqb a ":" && Ascii.eqb b ":"
    then Some (Re.header_rest None (lstrip (Ascii.eqb ":") r))
    else if Ascii.eqb a "#" && Ascii.eqb b "!"
         then Some (Re.header_rest (Some "#!") r)
         else None.
Proof.
  destruct a as [[] [] [] [] [] [] [] []]; try reflexivity;
    destruct b as [[] [] [] [] [] [] [] []]; reflexivity.
Qed.

(** A line is a header only if it starts with [#!] or with two colons. *)
Lemma header_search_none (fl : string) :
  substring 0 2 fl <> "#!" -> substring 0 2 fl <> "::" ->
  Re.header_search fl = None.
Proof.
  destruct fl as [|a [|b r]]; [reflexivity | |].
  - intros _ _. destruct a as [[] [] [] [] [] [] [] []]; reflexivity.
  - intros H1 H2. rewrite header_search_cons. cbn in H1, H2.
    assert (H0 : substring 0 0 r = "") by now destruct r.
    rewrite H0 in H1, H2.
    destruct (Ascii.eqb a ":" && Ascii.eqb b ":") eqn:E2.
    { apply andb_true_iff in E2 as [Ea Eb]. apply Ascii.eqb_eq in Ea, Eb. subst. congruence. }
    destruct (Ascii.eqb a "#" && Ascii.eqb b "!") eqn:E1; [|reflexivity].
    apply andb_true_iff in E1 as [Ea Eb]. apply Ascii.eqb_eq in Ea, Eb. subst. congruence.
Qed.

(** X3: a [CodeHilite] without a language whose first line starts neither
    with [#!] nor with two colons: [hilite] keeps the source whole, without
    the newlines at its ends, and changes no option. *)
Theorem hilite_no_header (src0 : string) (kw : gmap string pyval)
  (tr : list ext_call) (fl : string) (rest : list string) :
  lang (__init__ src0 kw) = PNone ->
  split nl (strip is_nl src0) = fl :: rest ->
  substring 0 2 fl <> "#!" ->
  substring 0 2 fl <> "::" ->
  let code := __init__ src0 kw in
  let self' := fst (fst (hilite true (code, tr))) in
  src self' = strip is_nl src0 /\ options self' = options code.
Proof.
  intros Hlang Hsplit H1 H2 code self'.
  change (lang code = PNone) in Hlang.
  change (split nl (strip is_nl (src code)) = fl :: rest) in Hsplit.
  pose proof (hilite_settles code
                (set_src (strip is_nl (join (String nl "") (fl :: rest)))
                   (set_src (strip is_nl (src code)) code)) true tr) as Hs.
  fold self' in Hs. destruct Hs as [Hsrc [Hopt _]].
  - rewrite Hlang. cbn [is_None andb].
    apply parseHeader_no_match; [exact Hsplit | now apply header_search_none].
  - split; [|exact Hopt].
    rewrite Hsrc. cbn [src set_src]. rewrite <- Hsplit, join_split. apply strip_idem.
Qed.

(** X4: when a language is given, or [shebang] is false, [hilite] does not
    read the first line, whatever it is: the source is kept whole, without
    the newlines at its ends, no option changes, and a language that is
    not empty stays. *)
Theorem hilite_header_not_read (src0 : string) (kw : gmap string pyval)
  (shebang : bool) (tr : list ext_call) :
  is_None (lang (__init__ src0 kw)) = false \/ shebang = false ->
  let code := __init__ src0 kw in
  let self' := fst (fst (hilite shebang (code, tr))) in
  src self' = strip is_nl src0
  /\ options self' = options code
  /\ (truthy (lang code) = true -> lang self' = lang code).
Proof.
  intros Hskip code self'.
  change (is_None (lang code) = false \/ shebang = false) in Hskip.
  pose proof (hilite_settles code (set_src (strip is_nl (src code)) code) shebang tr) as Hs.
  fold self' in Hs. apply Hs.
  destruct Hskip as [-> | ->]; [reflexivity | now rewrite andb_false_r].
Qed.

(** X5: whatever the source and the options, the source that [hilite]
    highlights has no newline at either end. *)
Theorem hilite_source_stripped (src0 : string) (kw : gmap string pyval)
  (shebang : bool) (tr : list ext_call) :
  let self' := fst (fst (hilite shebang (__init__ src0 kw, tr))) in
  strip is_nl (src self') = src self'.
Proof.
  intros self'. set (code := __init__ src0 kw) in *.
  destruct (init_has_keys src0 kw) as [[v Hv] _]. fold code in Hv.
  assert (H2 : exists self2 s,
             (if is_None (lang code) && shebang
              then _parseHeader (set_src (strip is_nl (src code)) code)
              else (set_src (strip is_nl (src code)) code, inr tt))
             = (self2, inr tt)
             /\ src self2 = strip is_nl s).
  { destruct (is_None (lang code) && shebang); [|eexists _, _; split; reflexivity].
    destruct (split_cons nl (src (set_src (strip is_nl (src code)) code)))
      as [fl [rest Hsplit]].
    destruct (Re.header_search fl) as [m|] eqn:Hm.
    - destruct (parseHeader_match _ fl rest m v Hsplit Hm Hv) as [hl [_ ->]].
      eexists _, _; split; reflexivity.
    - rewrite (parseHeader_no_match _ fl rest Hsplit Hm).
      eexists _, _; split; reflexivity. }
  destruct H2 as [self2 [s [H2 Hsrc]]].
  destruct (hilite_settles code self2 shebang tr H2) as [Hs _].
  fold self' in Hs. rewrite Hs, Hsrc. apply strip_idem.
Qed.

End HiliteSource.

Lemma hilite_no_header_witness :
  CodeHilite.lang (CodeHilite.__init__ ("# !python" +:+ String nl "x" +:+ String nl "") ∅)
  = PNone
  /\ split nl (strip is_nl ("# !python" +:+ String nl "x" +:+ String nl ""))
     = ["# !python"; "x"]
  /\ substring 0 2 "# !python" <> "#!"
  /\ substring 0 2 "# !python" <> "::"
  /\ CodeHilite.src
       (fst (fst (@CodeHilite.hilite Examples.interp_default Examples.pygments_stub true
                    (CodeHilite.__init__
                       ("# !python" +:+ String nl "x" +:+ String nl "") ∅, []))))
     = "# !python" +:+ String nl "x".
Proof.
  assert (Hlang : CodeHilite.lang
                    (CodeHilite.__init__
                       ("# !python" +:+ String nl "x" +:+ String nl "") ∅) = PNone)
    by reflexivity.
  assert (Hsplit : split nl (strip is_nl ("# !python" +:+ String nl "x" +:+ String nl ""))
                   = ["# !python"; "x"]) by reflexivity.
  assert (H1 : substring 0 2 "# !python" <> "#!") by discriminate.
  assert (H2 : substring 0 2 "# !python" <> "::") by discriminate.
  split; [exact Hlang|]. split; [exact Hsplit|]. split; [exact H1|]. split; [exact H2|].
  exact (proj1 (@hilite_no_header Examples.interp_default Examples.pygments_stub
                  ("# !python" +:+ String nl "x" +:+ String nl "") ∅ []
                  "# !python" ["x"] Hlang Hsplit H1 H2)).
Defined.

Lemma hilite_header_not_read_witness :
  (is_None (CodeHilite.lang
              (CodeHilite.__init__ ("#!python" +:+ String nl "x") {["lang" := PStr "text"]}))
   = false \/ true = false)
  /\ CodeHilite.src
       (fst (fst (@CodeHilite.hilite Examples.interp_default Examples.pygments_stub true
                    (CodeHilite.__init__ ("#!python" +:+ String nl "x")
                       {["lang" := PStr "text"]}, []))))
     = "#!python" +:+ String nl "x".
Proof.
  assert (Hskip : is_None (CodeHilite.lang
                             (CodeHilite.__init__ ("#!python" +:+ String nl "x")
                                {["lang" := PStr "text"]})) = false \/ true = false).
  { left. reflexivity. }
  split; [exact Hskip|].
  exact (proj1 (@hilite_header_not_read Examples.interp_default Examples.pygments_stub
                  ("#!python" +:+ String nl "x") {["lang" := PStr "text"]} true []
                  Hskip)).
Defined.

(** ** Escaping twice *)

Section EscapingTwice.

Import Serializers.

Lemma replace_char_absent (c : ascii) (new s : string) :
  count c s = 0 -> replace (String c "") new s = s.
Proof.
  intros H. rewrite replace_char. apply flat_subst1_absent. now apply contains_count.
Qed.

(** Escaped character data, an escaped attribute value and an escaped
    namespace are left as they are by each of the three functions. *)
Lemma escape_cdata_fixed (s : string) :
  Spec.amp_ok s = true -> Spec.count_lt s = 0 -> Spec.escape_cdata s = s.
Proof.
  intros Ha Hl. unfold Spec.escape_cdata.
  rewrite (RE_AMP_sub_amp_ok _ _ Ha). now apply replace_char_absent.
Qed.

Lemma escape_attrib_html_fixed (s : string) :
  Spec.amp_ok s = true -> Spec.count_lt s = 0 -> Spec.count_gt s = 0 ->
  Spec.count_dq s = 0 -> Spec.escape_attrib_html s = s.
Proof.
  unfold Spec.count_lt, Spec.count_gt, Spec.count_dq.
  intros Ha Hl Hg Hq. unfold Spec.escape_attrib_html, dq.
  rewrite (RE_AMP_sub_amp_ok _ _ Ha).
  rewrite (replace_char_absent "<") by exact Hl.
  rewrite (replace_char_absent ">") by exact Hg.
  now apply replace_char_absent.
Qed.

(** X6: escaping is idempotent.  What [_escape_cdata],
    [_escape_attrib_html] or [_escape_attrib] returned is returned as it is
    when the function is applied to it again: text that is already escaped
    is not escaped twice. *)
Theorem escaping_idempotent (s : string) :
  (t <- _escape_cdata (Some s) ;; _escape_cdata (Some t)) = _escape_cdata (Some s)
  /\ (t <- _escape_attrib_html s ;; _escape_attrib_html t) = _escape_attrib_html s
  /\ (t <- _escape_attrib s ;; _escape_attrib t) = _escape_attrib s.
Proof.
  split; [|split].
  - rewrite escape_cdata_eq. cbn [bind]. rewrite escape_cdata_eq. f_equal.
    destruct (escape_cdata_safe s). now apply escape_cdata_fixed.
  - rewrite escape_attrib_html_eq. cbn [bind]. rewrite escape_attrib_html_eq. f_equal.
    destruct (escape_attrib_html_safe s) as [Ha [Hl [Hg [Hq _]]]].
    now apply escape_attrib_html_fixed.
  - rewrite escape_attrib_eq. cbn [bind]. rewrite escape_attrib_eq. f_equal.
    destruct (escape_attrib_safe s) as [Ha [Hl [Hg [Hq Hn]]]].
    unfold Spec.escape_attrib at 1.
    rewrite escape_attrib_html_fixed by assumption.
    now apply replace_char_absent.
Qed.

End EscapingTwice.

(** ** The order of the attributes *)

Section AttributeOrder.

Import ETree Serializers.

Lemma ascii_compare_lt_trans (a b c : ascii) :
  Ascii.compare a b = Lt -> Ascii.compare b c = Lt -> Ascii.compare a c = Lt.
Proof.
  unfold Ascii.compare. rewrite !N.compare_lt_iff. apply N.lt_trans.
Qed.

Lemma ascii_compare_eq (a b : ascii) : Ascii.compare a b = Eq -> a = b.
Proof.
  unfold Ascii.compare. intros H. apply N.compare_eq in H.
  rewrite <- (ascii_N_embedding a), <- (ascii_N_embedding b). now rewrite H.
Qed.

Lemma ascii_compare_refl (a : ascii) : Ascii.compare a a = Eq.
Proof. unfold Ascii.compare. apply N.compare_refl. Qed.

Lemma compare_lt_trans (a b c : string) :
  String.compare a b = Lt -> String.compare b c = Lt -> String.compare a c = Lt.
Proof.
  revert b c. induction a as [|x a IH]; intros [|y b] [|z c]; cbn [String.compare];
    try discriminate; try reflexivity.
  destruct (Ascii.compare x y) eqn:Hxy; try discriminate.
  - apply ascii_compare_eq in Hxy as ->.
    destruct (Ascii.compare y z); try discriminate; [apply IH | reflexivity].
  - intros _. destruct (Ascii.compare y z) eqn:Hyz; try discriminate.
    + apply ascii_compare_eq in Hyz as <-. now rewrite Hxy.
    + now rewrite (ascii_compare_lt_trans x y z Hxy Hyz).
Qed.

Lemma compare_refl (a : string) : String.compare a a = Eq.
Proof.
  induction a as [|x a IH]; [reflexivity|].
  cbn [String.compare]. now rewrite ascii_compare_refl.
Qed.

Lemma ltb_lt (a b : string) : ltb a b = true <-> String.compare a b = Lt.
Proof. unfold ltb, String.ltb. destruct (String.compare a b); intuition discriminate. Qed.

Lemma ltb_irrefl (a : string) : ltb a a = false.
Proof. unfold ltb, String.ltb. now rewrite compare_refl. Qed.

Lemma ltb_trans (a b c : string) : ltb a b = true -> ltb b c = true -> ltb a c = true.
Proof. rewrite !ltb_lt. apply compare_lt_trans. Qed.

(** Of two different strings one is below the other. *)
Lemma ltb_total (a b : string) : a <> b -> ltb a b = false -> ltb b a = true.
Proof.
  intros Hne Hab. apply ltb_lt. rewrite String.compare_antisym.
  destruct (String.compare a b) eqn:Hc; [| |reflexivity].
  - now apply String.compare_eq_iff in Hc.
  - apply ltb_lt in Hc. congruence.
Qed.

Abbreviation key item := (name_text (fst item)) (only parsing).
Abbreviation below a b := (item_ltb a b = true) (only parsing).

Lemma item_ltb_irrefl (a : name_t * name_t) : item_ltb a a = false.
Proof. unfold item_ltb. rewrite String.eqb_refl. apply ltb_irrefl. Qed.

Lemma item_ltb_trans (a b c : name_t * name_t) :
  below a b -> below b c -> below a c.
Proof.
  unfold item_ltb.
  destruct (String.eqb_spec (key a) (key b)) as [Hab|Hab],
           (String.eqb_spec (key b) (key c)) as [Hbc|Hbc].
  - rewrite Hab, Hbc, String.eqb_refl. apply ltb_trans.
  - rewrite Hab. intros _ H. apply String.eqb_neq in Hbc. now rewrite Hbc.
  - rewrite <- Hbc. intros H _. apply String.eqb_neq in Hab. now rewrite Hab.
  - intros H1 H2. pose proof (ltb_trans _ _ _ H1 H2) as H.
    destruct (String.eqb_spec (key a) (key c)) as [Hac|_]; [|exact H].
    rewrite Hac, ltb_irrefl in H. discriminate.
Qed.

Lemma item_ltb_total (a b : name_t * name_t) :
  key a <> key b -> item_ltb a b = false -> below b a.
Proof.
  unfold item_ltb. intros Hne.
  destruct (String.eqb_spec (key a) (key b)) as [|_]; [contradiction|].
  destruct (String.eqb_spec (key b) (key a)) as [|_]; [congruence|].
  now apply ltb_total.
Qed.

#[local] Instance item_ltb_transitive : Transitive (fun a b => below a b).
Proof. intros a b c. apply item_ltb_trans. Qed.

#[local] Instance item_ltb_antisym : AntiSymm eq (fun a b => below a b).
Proof.
  intros a b Hab Hba. pose proof (item_ltb_trans _ _ _ Hab Hba) as H.
  rewrite item_ltb_irrefl in H. discriminate.
Qed.

Lemma insert_item_perm (x : name_t * name_t) (l : list (name_t * name_t)) :
  Permutation (insert_item x l) (x :: l).
Proof.
  induction l as [|y l IH]; [reflexivity|].
  cbn [insert_item]. destruct (item_ltb y x); [|reflexivity].
  rewrite IH. apply perm_swap.
Qed.

Lemma sorted_perm (l : list (name_t * name_t)) : Permutation (sorted l) l.
Proof.
  induction l as [|x l IH]; [reflexivity|].
  cbn [sorted fold_right]. fold (sorted l). rewrite insert_item_perm. now constructor.
Qed.

Lemma insert_item_hd (x y : name_t * name_t) (l : list (name_t * name_t)) :
  below y x -> HdRel (fun a b => below a b) y l ->
  HdRel (fun a b => below a b) y (insert_item x l).
Proof.
  intros Hyx Hhd. destruct l as [|z l]; cbn [insert_item]; [now constructor|].
  destruct (item_ltb z x); constructor; [|exact Hyx]. now inversion Hhd.
Qed.

Lemma insert_item_sorted (x : name_t * name_t) (l : list (name_t * name_t)) :
  Forall (fun y => key x <> key y) l ->
  Sorted (fun a b => below a b) l ->
  Sorted (fun a b => below a b) (insert_item x l).
Proof.
  intros Hx Hs. induction Hs as [|y l Hs IH Hhd]; cbn [insert_item].
  - repeat constructor.
  - inversion Hx as [|? ? Hxy Hxl]; subst.
    destruct (item_ltb y x) eqn:Hyx.
    + constructor; [now apply IH | now apply insert_item_hd].
    + constructor; [now constructor|]. constructor.
      apply item_ltb_total; [congruence | exact Hyx].
Qed.

(** With one attribute for a key, [sorted] gives a list in ascending
    order. *)
Lemma sorted_sorted (l : list (name_t * name_t)) :
  NoDup (map (fun item => key item) l) ->
  Sorted (fun a b => below a b) (sorted l).
Proof.
  induction l as [|x l IH]; [constructor|].
  cbn [map]. intros Hnd. apply NoDup_cons in Hnd as [Hx Hnd].
  cbn [sorted fold_right]. fold (sorted l).
  apply insert_item_sorted; [|now apply IH].
  apply List.Forall_forall. intros y Hy Heq. apply Hx.
  apply (proj1 (sorted_In y l)) in Hy. apply list_elem_of_In, in_map_iff. exists y. split; [now symmetry | exact Hy].
Qed.

Lemma sorted_permutation (l l' : list (name_t * name_t)) :
  Permutation l l' ->
  NoDup (map (fun item => key item) l) ->
  sorted l = sorted l'.
Proof.
  intros Hp Hnd.
  apply (Sorted_unique (fun a b => below a b)).
  - now apply sorted_sorted.
  - apply sorted_sorted. now rewrite <- Hp.
  - now rewrite !sorted_perm.
Qed.

Variable HTML_EMPTY : gset string.

(** X7: the order in which the attributes of an element were set does not
    show in what is written, when no two of them have the same key: they
    are written in the ascending order of the keys. *)
Theorem attribute_order (tg : tag_t) (attrs attrs' : list (name_t * name_t))
  (text tail : option string) (kids : list Element) (format : format_t) :
  Permutation attrs attrs' ->
  NoDup (map (fun item => name_text (fst item)) attrs) ->
  _serialize_html HTML_EMPTY (mkElement tg attrs text tail kids) format
  = _serialize_html HTML_EMPTY (mkElement tg attrs' text tail kids) format
  /\ Sorted (fun a b => item_ltb a b = true) (sorted attrs).
Proof.
  intros Hp Hnd. split; [|now apply sorted_sorted].
  rewrite !serialize_unfold. cbv zeta.
  cbn [ETree.tag ETree.attrib ETree.text ETree.tail ETree.children].
  rewrite !attrs_out_str. unfold Spec.attrs_str.
  now rewrite (sorted_permutation attrs attrs' Hp Hnd).
Qed.

End AttributeOrder.

Lemma attribute_order_witness :
  Permutation [(ETree.Str "id", ETree.Str "x"); (ETree.Str "class", ETree.Str "y")]
    [(ETree.Str "class", ETree.Str "y"); (ETree.Str "id", ETree.Str "x")]
  /\ NoDup (map (fun item => ETree.name_text (fst item))
              [(ETree.Str "id", ETree.Str "x"); (ETree.Str "class", ETree.Str "y")])
  /\ Serializers._serialize_html Examples.HTML_EMPTY
       (ETree.mkElement (ETree.TagStr "p")
          [(ETree.Str "id", ETree.Str "x"); (ETree.Str "class", ETree.Str "y")]
          None None []) Serializers.html
     = Serializers._serialize_html Examples.HTML_EMPTY
         (ETree.mkElement (ETree.TagStr "p")
            [(ETree.Str "class", ETree.Str "y"); (ETree.Str "id", ETree.Str "x")]
            None None []) Serializers.html.
Proof.
  assert (Hp : Permutation
                 [(ETree.Str "id", ETree.Str "x"); (ETree.Str "class", ETree.Str "y")]
                 [(ETree.Str "class", ETree.Str "y"); (ETree.Str "id", ETree.Str "x")])
    by apply perm_swap.
  assert (Hnd : NoDup (map (fun item => ETree.name_text (fst item))
                         [(ETree.Str "id", ETree.Str "x");
                          (ETree.Str "class", ETree.Str "y")])).
  { apply (bool_decide_unpack _). vm_compute. reflexivity. }
  split; [exact Hp|]. split; [exact Hnd|].
  exact (proj1 (attribute_order Examples.HTML_EMPTY (ETree.TagStr "p") _ _ None None []
                  Serializers.html Hp Hnd)).
Defined.

(** ** The two formats *)

Section Formats.

Import ETree Serializers.

Variable HTML_EMPTY : gset string.

(** An attribute that is not boolean is written alike in both formats. *)
Lemma attr_str_formats (item : name_t * name_t) :
  More.is_boolean item = false -> Spec.attr_str html item = Spec.attr_str xhtml item.
Proof.
  unfold More.is_boolean, More.written_value, Spec.attr_str. intros H.
  destruct (snd item); now rewrite H.
Qed.

Lemma attrs_str_formats (attrs : list (name_t * name_t)) :
  forallb (fun item => negb (More.is_boolean item)) attrs = true ->
  Spec.attrs_str html attrs = Spec.attrs_str xhtml attrs.
Proof.
  intros H. unfold Spec.attrs_str. apply map_ext_in. intros item Hin.
  apply attr_str_formats. apply (proj1 (sorted_In item attrs)) in Hin.
  rewrite forallb_forall in H. apply negb_true_iff. now apply H.
Qed.

Lemma serialize_all_formats (kids : list Element) :
  Forall (fun k => More.format_free HTML_EMPTY k = true ->
                   _serialize_html HTML_EMPTY k html = _serialize_html HTML_EMPTY k xhtml)
    kids ->
  forallb (More.format_free HTML_EMPTY) kids = true ->
  Spec.serialize_all HTML_EMPTY html kids = Spec.serialize_all HTML_EMPTY xhtml kids.
Proof.
  induction 1 as [|k kids Hk _ IH]; intros Hf; [reflexivity|].
  cbn [forallb] in Hf. apply andb_true_iff in Hf as [Hf Hfs].
  cbn [Spec.serialize_all]. now rewrite (Hk Hf), (IH Hfs).
Qed.

(** X8: the two formats differ only in the void elements and the boolean
    attributes: a tree that holds neither is serialized alike in HTML and
    in XHTML mode, to the same strings or to the same exception. *)
Theorem formats_agree (e : Element) :
  More.format_free HTML_EMPTY e = true ->
  _serialize_html HTML_EMPTY e html = _serialize_html HTML_EMPTY e xhtml.
Proof.
  induction e as [tg attrs text tail kids IH] using Element_induction.
  intros Hf. cbn [More.format_free] in Hf. apply andb_true_iff in Hf as [Htag Hkids].
  pose proof (serialize_all_formats kids IH Hkids) as Hall.
  destruct (Spec.tag_name tg) as [[ns t]|] eqn:Hname.
  - apply andb_true_iff in Htag as [Hvoid Hattrs]. apply negb_true_iff in Hvoid.
    rewrite !(serialize_ordinary HTML_EMPTY (mkElement tg attrs text tail kids) _ ns t
                (tag_name_ordinary _ _ _ Hname)).
    cbn [ETree.attrib ETree.text ETree.tail ETree.children].
    rewrite Hvoid, !andb_false_r, Hall. now rewrite (attrs_str_formats attrs Hattrs).
  - rewrite !serialize_unfold. cbv zeta.
    cbn [ETree.tag ETree.attrib ETree.text ETree.tail ETree.children].
    destruct tg as [| | |s|q]; cbn [Spec.tag_name] in Hname; try discriminate;
      [reflexivity | reflexivity | now rewrite Hall |].
    destruct (split_qname q) as [ex|p]; [reflexivity | discriminate].
Qed.

End Formats.

Lemma formats_agree_witness :
  More.format_free Examples.HTML_EMPTY
    (ETree.mkElement (ETree.TagStr "p") [(ETree.Str "class", ETree.Str "a<b")]
       (Some "x & y") None
       [ETree.mkElement (ETree.TagStr "em") [] (Some "z") (Some "!") []]) = true
  /\ Serializers._serialize_html Examples.HTML_EMPTY
       (ETree.mkElement (ETree.TagStr "p") [(ETree.Str "class", ETree.Str "a<b")]
          (Some "x & y") None
          [ETree.mkElement (ETree.TagStr "em") [] (Some "z") (Some "!") []])
       Serializers.html
     = Serializers._serialize_html Examples.HTML_EMPTY
         (ETree.mkElement (ETree.TagStr "p") [(ETree.Str "class", ETree.Str "a<b")]
            (Some "x & y") None
            [ETree.mkElement (ETree.TagStr "em") [] (Some "z") (Some "!") []])
         Serializers.xhtml.
Proof.
  assert (Hf : More.format_free Examples.HTML_EMPTY
                 (ETree.mkElement (ETree.TagStr "p")
                    [(ETree.Str "class", ETree.Str "a<b")] (Some "x & y") None
                    [ETree.mkElement (ETree.TagStr "em") [] (Some "z") (Some "!") []])
               = true) by (vm_compute; reflexivity).
  split; [exact Hf|].
  exact (formats_agree Examples.HTML_EMPTY _ Hf).
Defined.

(** ** When the serializer raises *)

Section Raises.

Import ETree Serializers.

Variable HTML_EMPTY : gset string.
Variable format : format_t.

Abbreviation raised r := (r = inl TypeError \/ r = inl ValueError) (only parsing).

Lemma split_qname_raises (q : string) (ex : exn) :
  split_qname q = inl ex -> ex = ValueError.
Proof.
  unfold split_qname. destruct (String.eqb _ _); [|now intros [= <-]].
  destruct (split1 _ _) as [|a [|b [|c l]]]; try discriminate; now intros [= <-].
Qed.

Lemma serialize_all_raises (kids : list Element) :
  Forall (fun k =>
            (More.returns_on HTML_EMPTY format k = true ->
             exists ws, _serialize_html HTML_EMPTY k format = inr ws)
            /\ (More.returns_on HTML_EMPTY format k = false ->
                raised (_serialize_html HTML_EMPTY k format))) kids ->
  (forallb (More.returns_on HTML_EMPTY format) kids = true ->
   exists ch, Spec.serialize_all HTML_EMPTY format kids = inr ch)
  /\ (forallb (More.returns_on HTML_EMPTY format) kids = false ->
      raised (Spec.serialize_all HTML_EMPTY format kids)).
Proof.
  induction 1 as [|k kids [Hret Hraise] _ [IHret IHraise]];
    [split; [now exists [] | discriminate]|].
  cbn [forallb Spec.serialize_all].
  destruct (More.returns_on HTML_EMPTY format k).
  - destruct (Hret eq_refl) as [w ->]. cbn [andb bind]. split; intros Hk.
    + destruct (IHret Hk) as [ch ->]. cbn. eauto.
    + destruct (IHraise Hk) as [-> | ->]; cbn; auto.
  - split; [discriminate|]. intros _.
    destruct (Hraise eq_refl) as [-> | ->]; cbn; auto.
Qed.

(** X9: the serializer raises on a comment or a processing instruction
    without a text, a [TypeError], and on a [QName] tag that holds no
    namespace and local tag, a [ValueError], where it comes to one; on
    every other tree it returns.  It does not come to the children of a
    comment or of a processing instruction, nor, in XHTML mode, to those of
    a void element. *)
Theorem serializer_raises (e : Element) :
  (More.returns_on HTML_EMPTY format e = true ->
   exists ws, _serialize_html HTML_EMPTY e format = inr ws)
  /\ (More.returns_on HTML_EMPTY format e = false ->
      _serialize_html HTML_EMPTY e format = inl TypeError
      \/ _serialize_html HTML_EMPTY e format = inl ValueError).
Proof.
  induction e as [tg attrs text tail kids IH] using Element_induction.
  destruct (serialize_all_raises kids IH) as [Hret Hraise].
  destruct (Spec.tag_name tg) as [[ns t]|] eqn:Hname.
  - assert (Hr : More.returns_on HTML_EMPTY format (mkElement tg attrs text tail kids)
                 = negb (is_html format) && is_empty_tag HTML_EMPTY t
                   || forallb (More.returns_on HTML_EMPTY format) kids).
    { destruct tg; try discriminate; cbn [More.returns_on]; now rewrite Hname. }
    rewrite Hr.
    rewrite (serialize_ordinary HTML_EMPTY (mkElement tg attrs text tail kids) format ns t
               (tag_name_ordinary _ _ _ Hname)).
    cbn [ETree.children].
    destruct (negb (is_html format) && is_empty_tag HTML_EMPTY t); cbn [orb].
    + split; [eauto | discriminate].
    + split; intros Hk.
      * destruct (Hret Hk) as [ch ->]. cbn. eauto.
      * destruct (Hraise Hk) as [-> | ->]; cbn; auto.
  - rewrite serialize_unfold. cbv zeta.
    cbn [ETree.tag ETree.attrib ETree.text ETree.tail ETree.children].
    rewrite !text_out_plain.
    destruct tg as [| | |s|q]; cbn [Spec.tag_name] in Hname; try discriminate;
      cbn [More.returns_on].
    + destruct text as [s|]; [rewrite escape_cdata_eq|]; cbn; split; eauto; discriminate.
    + destruct text as [s|]; [rewrite escape_cdata_eq|]; cbn; split; eauto; discriminate.
    + split; intros Hk.
      * destruct (Hret Hk) as [ch ->]. cbn. eauto.
      * destruct (Hraise Hk) as [-> | ->]; cbn; auto.
    + destruct (split_qname q) as [ex|p] eqn:Hq; [|discriminate].
      unfold Spec.tag_name. rewrite Hq, (split_qname_raises q ex Hq).
      cbn. split; [discriminate | auto].
Qed.

End Raises.

(** ** The tag of a [QName] *)

Section QNameTag.

Import ETree Serializers.

Lemma split1_cons (c : ascii) (s : string) : exists a l, split1 c s = a :: l.
Proof.
  induction s as [|x s [a [l IH]]]; cbn [split1]; [eauto|].
  destruct (Ascii.eqb x c); [eauto|]. rewrite IH. eauto.
Qed.

Lemma split1_join (c : ascii) (a b : string) :
  contains c a = false -> split1 c (a +:+ String c b) = [a; b].
Proof.
  induction a as [|x a IH]; intros H.
  - cbn. now rewrite Ascii.eqb_refl.
  - apply contains_false_cons in H as [Hne H]. apply Ascii.eqb_neq in Hne.
    rewrite append_cons. cbn [split1]. now rewrite Hne, (IH H).
Qed.

Lemma split1_two (c : ascii) (s a b : string) :
  split1 c s = [a; b] -> s = a +:+ String c b /\ contains c a = false.
Proof.
  revert a. induction s as [|x s IH]; intros a; cbn [split1]; [discriminate|].
  destruct (Ascii.eqb_spec x c) as [->|Hne].
  - intros [= <- <-]. now split.
  - destruct (split1_cons c s) as [a' [l Hs]]. rewrite Hs in *.
    intros [= <- ->]. destruct (IH a' eq_refl) as [-> Ha].
    split; [reflexivity|]. cbn [contains]. rewrite Ha.
    apply Ascii.eqb_neq in Hne. now rewrite Hne.
Qed.

(** X10: the tag of a [QName] is read as [{uri}local]: the namespace is
    what stands between the first brace and the first closing brace, the
    local tag is what follows, and the two give the text back.  A text of
    another form is a [ValueError]. *)
Theorem qname_tag (t : string) (ns : option string) (local : string) :
  (split_qname t = inr (ns, local)
   <-> exists uri, ns = Some uri /\ contains "}" uri = false
                   /\ t = "{" +:+ uri +:+ "}" +:+ local)
  /\ (forall ex, split_qname t = inl ex -> ex = ValueError).
Proof.
  split; [split|].
  - unfold split_qname. destruct t as [|x t]; [discriminate|].
    cbn [first1 drop1]. destruct (String.eqb_spec (String x "") "{") as [[= ->]|_];
      [|discriminate].
    destruct (split1 "}" t) as [|a [|b [|c l]]] eqn:Hs; try discriminate.
    intros [= <- <-]. exists a. apply split1_two in Hs as [-> Ha]. auto.
  - intros [uri [-> [Huri ->]]]. unfold split_qname. cbn [String.append first1 drop1].
    cbn [String.eqb Ascii.eqb Bool.eqb]. now rewrite split1_join.
  - intros ex Hex. unfold split_qname in Hex.
    destruct (String.eqb _ _); [|now injection Hex as <-].
    destruct (split1 _ _) as [|a [|b [|c l]]]; try discriminate; now injection Hex as <-.
Qed.

End QNameTag.

(** ** The options of a [CodeHilite] *)

Section InitOptions.

Import CodeHilite.

(** A lookup in a dictionary after an assignment, after [pop], after
    the assignment of a default, and after an alias was resolved. *)
Lemma insert_lookup (o : gmap string pyval) (key : string) (v : pyval) (k : string) :
  <[key := v]> o !! k = if String.eqb k key then Some v else o !! k.
Proof.
  destruct (String.eqb_spec k key) as [->|Hne];
    [apply lookup_insert_eq | now apply lookup_insert_ne].
Qed.

Lemma delete_lookup (o : gmap string pyval) (key k : string) :
  delete key o !! k = if String.eqb k key then None else o !! k.
Proof.
  destruct (String.eqb_spec k key) as [->|Hne];
    [apply lookup_delete_eq | now apply lookup_delete_ne].
Qed.

Lemma default_lookup (o : gmap string pyval) (key : string) (v : pyval) (k : string) :
  match o !! key with Some _ => o | None => <[key := v]> o end !! k
  = if String.eqb k key then Some (default v (o !! key)) else o !! k.
Proof.
  destruct (o !! key) eqn:E; [|apply insert_lookup].
  destruct (String.eqb_spec k key) as [->|Hne]; [exact E | reflexivity].
Qed.

Lemma alias_lookup (o : gmap string pyval) (key alias : string) (dflt : pyval)
  (k : string) :
  match o !! key with
  | Some _ => o
  | None => <[key := default dflt (o !! alias)]> (delete alias o)
  end !! k
  = if String.eqb k key
    then Some (match o !! key with
               | Some v => v
               | None => default dflt (o !! alias)
               end)
    else if String.eqb k alias
         then match o !! key with Some _ => o !! alias | None => None end
         else o !! k.
Proof.
  destruct (o !! key) eqn:E; [|now rewrite insert_lookup, delete_lookup].
  destruct (String.eqb_spec k key) as [->|Hne]; [exact E|].
  now destruct (String.eqb_spec k alias) as [->|_].
Qed.

(** The options after [__init__], key by key. *)
Lemma init_lookup (src0 : string) (kw : gmap string pyval) (k : string) :
  options (__init__ src0 kw) !! k
  = let o0 := delete "pygments_formatter"
                (delete "lang_prefix"
                   (delete "use_pygments" (delete "guess_lang" (delete "lang" kw)))) in
    if String.eqb k "full" then Some (PBool false)
    else if String.eqb k "wrapcode" then Some (default (PBool true) (kw !! "wrapcode"))
    else if String.eqb k "cssclass"
    then Some (match kw !! "cssclass" with
               | Some v => v
               | None => default (PStr "codehilite") (kw !! "css_class")
               end)
    else if String.eqb k "css_class"
    then match kw !! "cssclass" with Some _ => kw !! "css_class" | None => None end
    else if String.eqb k "linenos"
    then Some (match kw !! "linenos" with
               | Some v => v
               | None => default PNone (kw !! "linenums")
               end)
    else if String.eqb k "linenums"
    then match kw !! "linenos" with Some _ => kw !! "linenums" | None => None end
    else o0 !! k.
Proof.
  unfold __init__, pop. cbn [options fst snd].
  set (o0 := delete "pygments_formatter" _).
  assert (H0 : forall x, negb (existsb (String.eqb x)
                                 ["lang"; "guess_lang"; "use_pygments"; "lang_prefix";
                                  "pygments_formatter"]) = true ->
                         o0 !! x = kw !! x).
  { intros x Hx. subst o0. rewrite !delete_lookup. cbn [existsb] in Hx.
    apply negb_true_iff in Hx. repeat (apply orb_false_iff in Hx as [? Hx]).
    now repeat match goal with H : String.eqb x _ = false |- _ => rewrite H; clear H end. }
  set (o1 := match o0 !! "linenos" with Some _ => _ | None => _ end).
  set (o2 := match o1 !! "cssclass" with Some _ => _ | None => _ end).
  set (o3 := match o2 !! "wrapcode" with Some _ => _ | None => _ end).
  assert (H1 : forall x, o1 !! x = _) by (intros x; apply alias_lookup).
  assert (H2 : forall x, o2 !! x = _) by (intros x; apply alias_lookup).
  assert (H3 : forall x, o3 !! x = _) by (intros x; apply default_lookup).
  clearbody o3 o2 o1.
  rewrite insert_lookup, H3.
  destruct (String.eqb k "full"); [reflexivity|].
  destruct (String.eqb_spec k "wrapcode") as [->|_].
  { rewrite H2, !H1. cbn [String.eqb Ascii.eqb Bool.eqb]. now rewrite H0. }
  rewrite H2.
  rewrite (H1 "cssclass"), (H1 "css_class"). cbn [String.eqb Ascii.eqb Bool.eqb].
  rewrite !H0 by reflexivity.
  destruct (String.eqb k "cssclass"); [reflexivity|].
  destruct (String.eqb k "css_class"); [reflexivity|].
  rewrite H1, !H0 by reflexivity. reflexivity.
Qed.

(** X11: the options a [CodeHilite] keeps.  [full] is [False], whatever was
    given.  [linenos] is the option of that name and else [linenums], or
    [None]; [cssclass] is the option of that name and else [css_class], or
    [codehilite]; [wrapcode] is [True] unless given.  An alias is taken out
    of the options only when it was used.  The five options of the object
    itself are taken out, and every other option is kept as it was
    given. *)
Theorem init_options (src0 : string) (kw : gmap string pyval) :
  let o := options (__init__ src0 kw) in
  o !! "full" = Some (PBool false)
  /\ o !! "linenos"
     = Some (match kw !! "linenos" with
             | Some v => v
             | None => default PNone (kw !! "linenums")
             end)
  /\ o !! "cssclass"
     = Some (match kw !! "cssclass" with
             | Some v => v
             | None => default (PStr "codehilite") (kw !! "css_class")
             end)
  /\ o !! "wrapcode" = Some (default (PBool true) (kw !! "wrapcode"))
  /\ o !! "linenums" = match kw !! "linenos" with
                       | Some _ => kw !! "linenums"
                       | None => None
                       end
  /\ o !! "css_class" = match kw !! "cssclass" with
                        | Some _ => kw !! "css_class"
                        | None => None
                        end
  /\ (forall k, In k ["lang"; "guess_lang"; "use_pygments"; "lang_prefix";
                      "pygments_formatter"] -> o !! k = None)
  /\ (forall k, ~ In k ["lang"; "guess_lang"; "use_pygments"; "lang_prefix";
                        "pygments_formatter"; "linenos"; "linenums"; "cssclass";
                        "css_class"; "wrapcode"; "full"] -> o !! k = kw !! k).
Proof.
  intros o. subst o.
  repeat (split; [now rewrite init_lookup|]).
  split; intros k Hk; rewrite init_lookup; cbn [In] in Hk; cbv zeta.
  - rewrite !delete_lookup.
    destruct Hk as [<-|[<-|[<-|[<-|[<-|[]]]]]]; reflexivity.
  - assert (Hne : forall x, In x ["lang"; "guess_lang"; "use_pygments"; "lang_prefix";
                                  "pygments_formatter"; "linenos"; "linenums";
                                  "cssclass"; "css_class"; "wrapcode"; "full"] ->
                            String.eqb k x = false).
    { intros x Hx. apply String.eqb_neq. intros ->. now apply Hk. }
    cbn [In] in Hne. rewrite !delete_lookup. rewrite !Hne by tauto. reflexivity.
Qed.

End InitOptions.

(** ** The calls into pygments *)

Section PygmentsCalls.

Import CodeHilite.

Context {interp : Interpreter} {pyg : Pygments}.

Lemma call_of_settles (a b : CodeHilite) (c : ext_call) :
  Spec.settles a b -> More.call_of a c <-> More.call_of b c.
Proof.
  intros [Hs [Ho _]]. destruct c; cbn [More.call_of]; rewrite ?Hs, ?Ho; reflexivity.
Qed.

Lemma passes_bind {A B} (m : M (CodeHilite * list ext_call) A)
  (k : A -> M (CodeHilite * list ext_call) B) (st : CodeHilite * list ext_call) :
  More.passes m st ->
  (forall a st', m st = (st', inr a) -> More.passes (k a) st') ->
  More.passes (mbind m k) st.
Proof.
  unfold More.passes, mbind. intros [Hs [more [Hm Hall]]] Hk.
  destruct (m st) as [st' [e|a]]; [eauto|].
  destruct (Hk a st' eq_refl) as [Hs' [more' [Hm' Hall']]]. cbn [fst] in *.
  split; [eapply settles_trans; eauto|].
  exists (more ++ more')%list. split; [now rewrite Hm', Hm, List.app_assoc|].
  apply Forall_app. split; [exact Hall|].
  eapply Forall_impl; [exact Hall'|]. intros c Hc. now apply (call_of_settles _ _ c Hs).
Qed.

Lemma passes_try {A} (m h : M (CodeHilite * list ext_call) A) (c : exn -> bool)
  (st : CodeHilite * list ext_call) :
  More.passes m st ->
  (forall st' e, m st = (st', inl e) -> More.passes h st') ->
  More.passes (mtry m c h) st.
Proof.
  unfold More.passes, mtry. intros [Hs [more [Hm Hall]]] Hh.
  destruct (m st) as [st' [e|a]]; [|eauto].
  destruct (c e); [|eauto].
  destruct (Hh st' e eq_refl) as [Hs' [more' [Hm' Hall']]]. cbn [fst] in *.
  split; [eapply settles_trans; eauto|].
  exists (more ++ more')%list. split; [now rewrite Hm', Hm, List.app_assoc|].
  apply Forall_app. split; [exact Hall|].
  eapply Forall_impl; [exact Hall'|]. intros x Hx. now apply (call_of_settles _ _ x Hs).
Qed.

(** After a call the object is what it was. *)
Lemma call_state {A} (c : ext_call) (r r' : result A) (st st' : CodeHilite * list ext_call) :
  call c r st = (st', r') -> fst st' = fst st.
Proof. unfold call. now intros [= <- _]. Qed.

Lemma passes_call {A} (c : ext_call) (r : result A) (st : CodeHilite * list ext_call) :
  More.call_of (fst st) c -> More.passes (call c r) st.
Proof.
  intros Hc. split; [apply settles_refl|]. exists [c]. split; [reflexivity|].
  now constructor.
Qed.

Lemma passes_still {A} (m : M (CodeHilite * list ext_call) A)
  (st : CodeHilite * list ext_call) :
  Spec.settles (fst st) (fst (fst (m st))) -> snd (fst (m st)) = snd st ->
  More.passes m st.
Proof.
  intros Hs Hc. split; [exact Hs|]. exists []. now rewrite app_nil_r.
Qed.

Lemma passes_get_bind {B}
  (k : CodeHilite * list ext_call -> M (CodeHilite * list ext_call) B) st :
  More.passes (k st) st -> More.passes (mbind get k) st.
Proof. intros H. exact H. Qed.

(** The branch that calls pygments gives every call the source and the
    options of the object. *)
Lemma hilite_pygments_passes (st : CodeHilite * list ext_call) :
  More.passes hilite_pygments st.
Proof.
  unfold hilite_pygments.
  apply passes_get_bind. apply passes_bind.
  { apply passes_try; [now apply passes_call|].
    intros st1 e1 H1. apply call_state in H1.
    apply passes_try.
    - destruct (truthy _); apply passes_call; cbn [More.call_of]; rewrite H1; auto.
    - intros st2 e2 H2.
      assert (H2' : fst st2 = fst st1)
        by (destruct (truthy _); now apply call_state in H2).
      apply passes_call. cbn [More.call_of]. now rewrite H2', H1. }
  intros lx st1 _. apply passes_get_bind. apply passes_bind.
  { apply passes_still; [|].
    - destruct (truthy (lang st1.1)) eqn:Ht; cbn [negb]; [apply settles_refl|].
      destruct (aliases lx); [apply settles_refl|].
      unfold Spec.settles, on_self, modify. cbn.
      rewrite Ht. repeat split; discriminate.
    - destruct (truthy (lang st1.1)); cbn [negb]; [reflexivity|].
      now destruct (aliases lx). }
  intros _ st2 _. apply passes_get_bind. apply passes_bind.
  { destruct (pygments_formatter st2.1); try (now apply passes_call).
    apply passes_try; [now apply passes_call|].
    intros st3 e3 H3. apply call_state in H3.
    apply passes_call. cbn [More.call_of]. now rewrite H3. }
  intros fm st3 H3.
  assert (H3' : fst st3 = fst st2).
  { destruct (pygments_formatter st2.1); try (now apply call_state in H3).
    unfold mtry, call in H3.
    destruct (get_formatter_by_name _ _) as [e|f]; [|now injection H3 as <- _].
    destruct (is_ClassNotFound e); now injection H3 as <- _. }
  apply passes_call. cbn [More.call_of]. now rewrite H3'.
Qed.

(** [_parseHeader] sets no option but [linenos] and [hl_lines]. *)
Lemma header_step_options (self : CodeHilite) (shebang : bool) :
  Spec.has_keys self ->
  exists self2,
    (if is_None (lang self) && shebang
     then _parseHeader (set_src (strip is_nl (src self)) self)
     else (set_src (strip is_nl (src self)) self, inr tt))
    = (self2, inr tt)
    /\ use_pygments self2 = use_pygments self
    /\ (forall k, k <> "linenos" -> k <> "hl_lines" ->
                  options self2 !! k = options self !! k).
Proof.
  intros [[v Hv] _].
  destruct (is_None (lang self) && shebang); [|eexists; split; [reflexivity | now split]].
  destruct (split_cons nl (src (set_src (strip is_nl (src self)) self)))
    as [fl [rest Hsplit]].
  destruct (Re.header_search fl) as [m|] eqn:Hm.
  - destruct (parseHeader_match _ fl rest m v Hsplit Hm Hv) as [hl [_ ->]].
    eexists; split; [reflexivity|]. split.
    + now destruct (is_None v && nonempty (Re.g_shebang m)).
    + intros k H1 H2. cbn [options set_src set_option].
      rewrite lookup_insert_ne by congruence.
      destruct (is_None v && nonempty (Re.g_shebang m)); cbn [options set_option set_lang id];
        [now rewrite lookup_insert_ne by congruence | reflexivity].
  - rewrite (parseHeader_no_match _ fl rest Hsplit Hm).
    eexists; split; [reflexivity | now split].
Qed.

Lemma mbind_returns {S A B} (m : M S A) (k : A -> M S B) (st st' : S) (b : B) :
  mbind m k st = (st', inr b) ->
  exists a st1, m st = (st1, inr a) /\ k a st1 = (st', inr b).
Proof.
  unfold mbind. destruct (m st) as [st1 [e|a]]; [discriminate | eauto].
Qed.

(** What the branch that calls pygments returns is what [highlight]
    returned for the source, in the last call. *)
Lemma hilite_pygments_returns (st st' : CodeHilite * list ext_call) (html : string) :
  hilite_pygments st = (st', inr html) ->
  exists lx fm pre,
    highlight (src (fst st')) lx fm = inr html
    /\ snd st' = (pre ++ [Call_highlight (src (fst st'))])%list.
Proof.
  unfold hilite_pygments. intros H.
  apply mbind_returns in H as [st0 [st0' [[= <- <-] H]]].
  apply mbind_returns in H as [lx [st1 [_ H]]].
  apply mbind_returns in H as [st1' [st1'' [[= <- <-] H]]].
  apply mbind_returns in H as [[] [st2 [_ H]]].
  apply mbind_returns in H as [st2' [st2'' [[= <- <-] H]]].
  apply mbind_returns in H as [fm [st3 [Hfm H]]].
  assert (H3 : fst st3 = fst st2).
  { destruct (pygments_formatter st2.1); try (now apply call_state in Hfm).
    unfold mtry, call in Hfm.
    destruct (get_formatter_by_name _ _) as [e|f]; [|now injection Hfm as <- _].
    destruct (is_ClassNotFound e); now injection Hfm as <- _. }
  unfold call in H. injection H as <- Hh. cbn [fst snd]. rewrite H3.
  exists lx, fm, (snd st3). split; [exact Hh | reflexivity].
Qed.

(** X12: [hilite] with pygments.  Every call into pygments it makes is
    given the source and the options that the object holds in the end: the
    source without the newlines at its ends and without a mock header
    line, the options with [full] set to [False].  When [hilite] returns,
    it returns what [highlight] returned for that source, in the last
    call. *)
Theorem hilite_calls (src0 : string) (kw : gmap string pyval) (shebang : bool)
  (tr : list ext_call) :
  let st' := fst (hilite shebang (__init__ src0 kw, tr)) in
  options (fst st') !! "full" = Some (PBool false)
  /\ (exists more, snd st' = (tr ++ more)%list /\ Forall (More.call_of (fst st')) more)
  /\ (forall html,
        pygments && truthy (use_pygments (__init__ src0 kw)) = true ->
        snd (hilite shebang (__init__ src0 kw, tr)) = inr html ->
        exists lx fm pre,
          highlight (src (fst st')) lx fm = inr html
          /\ snd st' = (pre ++ [Call_highlight (src (fst st'))])%list).
Proof.
  intros st'. subst st'. set (code := __init__ src0 kw).
  destruct (header_step_options code shebang (init_has_keys src0 kw))
    as [self2 [H2 [Hup Hopt]]].
  assert (Hfull : options self2 !! "full" = Some (PBool false)).
  { rewrite Hopt by discriminate. apply init_lookup. }
  rewrite hilite_unfold. cbv zeta. rewrite H2, Hup.
  destruct (pygments && truthy (use_pygments code)).
  - destruct (hilite_pygments_passes (self2, tr)) as [Hs [more [Hm Hall]]].
    cbn [fst snd] in Hs, Hm, Hall. split; [|split].
    + destruct Hs as [_ [-> _]]. exact Hfull.
    + exists more. split; [exact Hm|].
      eapply Forall_impl; [exact Hall|]. intros c Hc.
      now apply (call_of_settles self2 _ c Hs).
    + intros html _ Hr.
      destruct (hilite_pygments (self2, tr)) as [st' r] eqn:Hp. cbn [snd] in Hr. subst r.
      exact (hilite_pygments_returns _ _ _ Hp).
  - rewrite hilite_plain_state. cbn [fst snd]. split; [exact Hfull|]. split.
    + exists []. now rewrite app_nil_r.
    + discriminate.
Qed.

End PygmentsCalls.

(** ** More on the tree processor *)

Section ProcessorMore.

Import ETree CodeHilite.

Context {interp : Interpreter} {pyg : Pygments} {md : Markdown}.

Variable config : gmap string pyval.

Abbreviation is_code_block := Spec.is_code_block.
Abbreviation evolves := (Spec.evolves config).
Abbreviation stashed := (Spec.stashed config).

Lemma for_each_still (visit : loc -> world -> option (world * result unit))
  (cs : list loc) (w : world) :
  (forall c, In c cs -> visit c w = Some (w, inr tt)) ->
  for_each visit cs w = Some (w, inr tt).
Proof.
  induction cs as [|c cs IH]; intros H; [reflexivity|].
  cbn [for_each]. rewrite (H c) by now left. apply IH. intros c' Hc'. apply H. now right.
Qed.

(** Where the iteration comes to no code block, it leaves the world as it
    is. *)
Lemma iter_pre_still (fuel : nat) :
  forall e w,
    (forall x, Spec.visited (elems w) e x -> is_code_block (elems w) x = false) ->
    Spec.shallow (elems w) fuel e ->
    iter_pre config fuel e w = Some (w, inr tt).
Proof.
  induction fuel as [|fuel IH]; intros e w Hno Hsh; [inversion Hsh|].
  inversion Hsh as [n e' Hkids]; subst.
  pose proof (Hno e (Spec.visited_here _ e)) as He.
  cbn [iter_pre].
  assert (Hbody : (if tag_eqb (n_tag (elems w e)) "pre" then loop_body config e
                   else mret tt) w = (w, inr tt)).
  { unfold Spec.is_code_block in He.
    destruct (tag_eqb (n_tag (elems w e)) "pre"); [|reflexivity].
    cbn [andb] in He.
    destruct (loop_body config e w) as [w1 r] eqn:Hb.
    apply loop_body_cases in Hb as [[_ [-> ->]] | [Hsc _]]; [reflexivity | congruence]. }
  rewrite Hbody. apply for_each_still. intros c Hc. apply IH; [|now apply Hkids].
  intros x Hx. apply Hno. now apply (Spec.visited_below _ e c x).
Qed.

Lemma visited_trans (h : heap) (a b c : loc) :
  Spec.visited h a b -> Spec.visited h b c -> Spec.visited h a c.
Proof.
  induction 1 as [e | e k x Hn Hin _ IH]; [auto|].
  intros Hc. apply (Spec.visited_below _ e k c); auto.
Qed.

(** After a run that returned, the iteration comes to no code block. *)
Lemma visited_after (fuel : nat) (root : loc) (w w' : world) :
  iter_pre config fuel root w = Some (w', inr tt) ->
  forall e x, Spec.visited (elems w') e x -> Spec.visited (elems w) root e ->
              is_code_block (elems w') x = false.
Proof.
  intros Hrun.
  pose proof (iter_pre_evolves config fuel root w w' _ Hrun) as Hev.
  assert (Hstub : forall y, Spec.visited (elems w) root y ->
                            is_code_block (elems w) y = true ->
                            exists ph, elems w' y = Spec.stub ph).
  { intros y Hy Hcb.
    destruct (iter_pre_covers config fuel root w w' Hrun y Hy Hcb) as [i [html [Hs _]]].
    eauto. }
  induction 1 as [e | e c x Hn Hin _ IH]; intros Hroot.
  - destruct (is_code_block (elems w) e) eqn:Hcb.
    + destruct (Hstub e Hroot Hcb) as [ph Hs].
      unfold Spec.is_code_block. now rewrite Hs.
    + now apply (not_code_block_kept config w w').
  - apply IH. apply (visited_trans _ root e c Hroot).
    destruct (is_code_block (elems w) e) eqn:Hcb.
    + destruct (Hstub e Hroot Hcb) as [ph Hs]. rewrite Hs in Hin. destruct Hin.
    + destruct (not_code_block_kept config w w' e Hev Hcb) as [He _].
      rewrite He in Hin.
      apply (Spec.visited_below _ e c c Hcb Hin). constructor.
Qed.

Lemma for_each_shallow (visit : loc -> world -> option (world * result unit))
  (n : nat) (cs : list loc) :
  (forall c w w' r, visit c w = Some (w', r) -> evolves w w') ->
  (forall c w w', visit c w = Some (w', inr tt) -> Spec.shallow (elems w') n c) ->
  forall w w', for_each visit cs w = Some (w', inr tt) ->
               forall c, In c cs -> Spec.shallow (elems w') n c.
Proof.
  intros Hev Hsh. induction cs as [|c0 cs IH]; intros w w' Hrun c Hin; [destruct Hin|].
  cbn [for_each] in Hrun.
  destruct (visit c0 w) as [[w1 [ex|[]]]|] eqn:Hc0; try discriminate.
  destruct Hin as [<- | Hin]; [|now apply (IH w1 w')].
  apply (shallow_later config w1 w').
  - eapply for_each_evolves; [|exact Hrun]. intros ? ? ? ? _. apply Hev.
  - now apply (Hsh c0 w w1).
Qed.

(** Where the iteration returned, the fuel reaches the leaves of what is
    left of the tree. *)
Lemma iter_pre_shallow (fuel : nat) :
  forall e w w', iter_pre config fuel e w = Some (w', inr tt) ->
                 Spec.shallow (elems w') fuel e.
Proof.
  induction fuel as [|fuel IH]; intros e w w'; [discriminate|].
  cbn [iter_pre].
  destruct ((if tag_eqb (n_tag (elems w e)) "pre" then loop_body config e else mret tt) w)
    as [w1 r1] eqn:Hbody.
  destruct (loop_body_evolves config e w w1 r1 Hbody) as [Hev1 [Hblock Hother]].
  destruct r1 as [ex|[]]; [discriminate|].
  intros Hrest. constructor.
  assert (Hev2 : evolves w1 w').
  { eapply for_each_evolves; [|exact Hrest]. intros ? ? ? ? _. apply iter_pre_evolves. }
  assert (Hkids : n_children (elems w' e) = n_children (elems w1 e)).
  { destruct (is_code_block (elems w) e) eqn:Hcb.
    - destruct (Hblock eq_refl eq_refl) as [Hst Hnil].
      destruct (stashed_later config w w1 w' e Hst Hev2) as [i [html [-> _]]].
      now rewrite Hnil.
    - destruct (not_code_block_kept config w w1 e Hev1 Hcb) as [_ Hcb1].
      now destruct (not_code_block_kept config w1 w' e Hev2 Hcb1) as [-> _]. }
  rewrite Hkids.
  apply (for_each_shallow (iter_pre config fuel) fuel (n_children (elems w1 e))
           (iter_pre_evolves config fuel) IH w1 w' Hrest).
Qed.

(** X13: on a tree in which the iteration comes to no [pre] with a single
    [code] child, [run] changes nothing: not an element, not the stash,
    and it makes no call into pygments. *)
Theorem run_without_code_blocks (fuel : nat) (root : loc) (w : world) :
  (forall x, Spec.visited (elems w) root x -> is_code_block (elems w) x = false) ->
  Spec.shallow (elems w) fuel root ->
  run config fuel root w = Some (w, inr tt).
Proof. apply iter_pre_still. Qed.

(** X14: [run] is idempotent: after a run that returned, a second run over
    the same root returns and changes nothing. *)
Theorem run_twice (fuel : nat) (root : loc) (w w' : world) :
  run config fuel root w = Some (w', inr tt) ->
  run config fuel root w' = Some (w', inr tt).
Proof.
  unfold run. intros Hrun. apply iter_pre_still.
  - intros x Hx. apply (visited_after fuel root w w' Hrun root x Hx). constructor.
  - now apply (iter_pre_shallow fuel root w).
Qed.

(** X15: [run] only adds to the stash, whether it returns or raises: a
    fragment that was in the stash is still there, at its index, so that
    the placeholders handed out before stay good. *)
Theorem run_keeps_stash (fuel : nat) (root : loc) (w w' : world) (r : result unit) :
  run config fuel root w = Some (w', r) ->
  (exists more, rawHtmlBlocks w' = (rawHtmlBlocks w ++ more)%list)
  /\ (forall i html, rawHtmlBlocks w !! i = Some html ->
                     rawHtmlBlocks w' !! i = Some html).
Proof.
  intros Hrun. destruct (iter_pre_evolves config fuel root w w' r Hrun) as [_ [more Hm]].
  split; [eauto|]. intros i html Hi. rewrite Hm. now apply lookup_app_l_Some.
Qed.

(** The keywords of the call of [CodeHilite] are bound only when the
    configuration holds none of them. *)
Lemma keywords_bound (d kwargs : gmap string pyval) (t s : pyval) :
  keywords [("tab_length", t); ("style", s)] d = inr kwargs ->
  d !! "tab_length" = None /\ d !! "style" = None
  /\ kwargs = <["tab_length" := t]> (<["style" := s]> d).
Proof.
  cbn [keywords bind ret]. destruct (d !! "style") eqn:Hs; [discriminate|].
  unfold ret. cbn [bind]. rewrite lookup_insert_ne by discriminate.
  destruct (d !! "tab_length") eqn:Ht; [discriminate|]. now intros [= <-].
Qed.

(** What the call of [CodeHilite] needs of the configuration. *)
Lemma call_returns (text : string) (kwargs : gmap string pyval) (code : CodeHilite) :
  keywords [("tab_length", PInt tab_length);
            ("style", fst (pop "pygments_style" (PStr "default") config))]
    (snd (pop "pygments_style" (PStr "default") config)) = inr kwargs ->
  CodeHilite_call text kwargs = inr code ->
  ~ More.given_twice config.
Proof.
  unfold pop. cbn [fst snd]. intros Hkw Hcall.
  apply keywords_bound in Hkw as [Ht [Hs ->]].
  rewrite lookup_delete_ne in Ht, Hs by discriminate.
  unfold CodeHilite_call in Hcall.
  rewrite !lookup_insert_ne, !lookup_delete_ne in Hcall by discriminate.
  destruct (config !! "self") eqn:Hself; [discriminate|].
  destruct (config !! "src") eqn:Hsrc; [discriminate|].
  intros [[v H] | [[v H] | [[v H] | [v H]]]]; congruence.
Qed.

(** And the other way round: with such a key the body of the loop raises
    before anything is changed. *)
Lemma loop_body_given_twice (e : loc) (w w1 : world) (r : result unit) :
  More.given_twice config ->
  loop_body config e w = (w1, r) ->
  w1 = w /\ forall ex, r = inl ex -> ex = TypeError \/ ex = AttributeError.
Proof.
  intros Hclash. unfold loop_body, mbind, get.
  destruct (n_children (elems w e)) as [|c [|c' cs]];
    try (intros [= <- <-]; split; [reflexivity | discriminate]).
  destruct (tag_eqb (n_tag (elems w c)) "code");
    [|intros [= <- <-]; split; [reflexivity | discriminate]].
  unfold lift.
  destruct (n_text (elems w c)) as [text|]; cbn [code_unescape ret raise];
    [|intros [= <- <-]; split; [reflexivity | intros ex [= <-]; now right]].
  unfold pop. cbn [fst snd].
  destruct (keywords _ _) as [ex|kwargs] eqn:Hkw.
  { intros [= <- <-]. split; [reflexivity|]. intros ex' [= <-]. left.
    revert Hkw. cbn [keywords bind ret].
    destruct (_ !! "style"); [now intros [= <-]|]. unfold ret. cbn [bind].
    destruct (_ !! "tab_length"); [now intros [= <-] | discriminate]. }
  match goal with
  | |- context [CodeHilite_call ?t kwargs] =>
      destruct (CodeHilite_call t kwargs) as [ex|code] eqn:Hcall
  end.
  - intros [= <- <-]. split; [reflexivity|]. intros ex' [= <-]. left.
    revert Hcall. unfold CodeHilite_call.
    destruct (kwargs !! "self"), (kwargs !! "src"); try discriminate; now intros [= <-].
  - destruct (call_returns _ kwargs code Hkw Hcall Hclash).
Qed.

(** Without pygments, and without such a key, the body of the loop raises
    only an [AttributeError], for a [code] without text. *)
Lemma loop_body_textless (e : loc) (w w1 : world) (ex : exn) :
  pygments = false -> ~ More.given_twice config ->
  loop_body config e w = (w1, inl ex) -> ex = AttributeError.
Proof.
  intros Hpyg Hfresh. unfold loop_body, mbind, get.
  destruct (n_children (elems w e)) as [|c [|c' cs]]; try discriminate.
  destruct (tag_eqb (n_tag (elems w c)) "code"); [|discriminate].
  unfold lift.
  destruct (n_text (elems w c)) as [text|]; cbn [code_unescape ret raise];
    [|now intros [= _ <-]].
  unfold pop. cbn [fst snd].
  assert (Hnone : config !! "tab_length" = None /\ config !! "style" = None
                  /\ config !! "src" = None /\ config !! "self" = None).
  { unfold More.given_twice in Hfresh.
    destruct (config !! "tab_length") eqn:H1; [exfalso; apply Hfresh; eauto|].
    destruct (config !! "style") eqn:H2; [exfalso; apply Hfresh; eauto|].
    destruct (config !! "src") eqn:H3; [exfalso; apply Hfresh; eauto 6|].
    destruct (config !! "self") eqn:H4; [exfalso; apply Hfresh; eauto 6|].
    auto. }
  destruct Hnone as [Ht [Hs [Hsrc Hself]]].
  rewrite keywords_fresh by (rewrite lookup_delete_ne by discriminate; assumption).
  rewrite call_fresh by assumption.
  unfold hilite_in_world.
  match goal with
  | |- context [hilite true (?code, calls w)] =>
      destruct (hilite_fallback_gen code true (calls w)) as [self' [cs [ln [Hh _]]]];
      [apply init_has_keys | now rewrite Hpyg | rewrite Hh]
  end.
  unfold store, set_elem, modify. cbn. discriminate.
Qed.

Lemma for_each_raise (P : exn -> Prop)
  (visit : loc -> world -> option (world * result unit)) (cs : list loc) :
  (forall c w w' ex, visit c w = Some (w', inl ex) -> P ex) ->
  forall w w' ex, for_each visit cs w = Some (w', inl ex) -> P ex.
Proof.
  intros Hvisit. induction cs as [|c cs IH]; intros w w' ex; [discriminate|].
  cbn [for_each]. destruct (visit c w) as [[w1 [ex1|u]]|] eqn:Hc; [| |discriminate].
  - intros [= <- <-]. eapply Hvisit; exact Hc.
  - apply IH.
Qed.

(** What the iteration raises was raised by the body of the loop. *)
Lemma iter_pre_raise (P : exn -> Prop) :
  (forall e w w1 ex, loop_body config e w = (w1, inl ex) -> P ex) ->
  forall fuel e w w' ex, iter_pre config fuel e w = Some (w', inl ex) -> P ex.
Proof.
  intros Hbody. induction fuel as [|fuel IH]; intros e w w' ex; [discriminate|].
  cbn [iter_pre].
  destruct (tag_eqb (n_tag (elems w e)) "pre").
  - destruct (loop_body config e w) as [w1 [ex1|u]] eqn:Hb.
    + intros [= <- <-]. eapply Hbody; exact Hb.
    + apply (for_each_raise P (iter_pre config fuel)), IH.
  - apply (for_each_raise P (iter_pre config fuel)), IH.
Qed.

Lemma for_each_same (visit : loc -> world -> option (world * result unit))
  (cs : list loc) :
  (forall c w w' r, visit c w = Some (w', r) -> w' = w) ->
  forall w w' r, for_each visit cs w = Some (w', r) -> w' = w.
Proof.
  intros Hvisit. induction cs as [|c cs IH]; intros w w' r; [now intros [= <- _]|].
  cbn [for_each]. destruct (visit c w) as [[w1 [ex1|u]]|] eqn:Hc; [| |discriminate].
  - intros [= <- _]. eapply Hvisit; exact Hc.
  - intros Hrest. apply IH in Hrest. apply Hvisit in Hc. congruence.
Qed.

Lemma iter_pre_same :
  (forall e w w1 r, loop_body config e w = (w1, r) -> w1 = w) ->
  forall fuel e w w' r, iter_pre config fuel e w = Some (w', r) -> w' = w.
Proof.
  intros Hbody. induction fuel as [|fuel IH]; intros e w w' r; [discriminate|].
  cbn [iter_pre].
  destruct (tag_eqb (n_tag (elems w e)) "pre").
  - destruct (loop_body config e w) as [w1 [ex1|u]] eqn:Hb.
    + intros [= <- _]. eapply Hbody; exact Hb.
    + apply Hbody in Hb as ->. apply (for_each_same (iter_pre config fuel)), IH.
  - apply (for_each_same (iter_pre config fuel)), IH.
Qed.

(** X16: what makes [run] raise.  [run] does not return when the iteration
    comes to a code block whose [code] child has no text, or when it comes
    to a code block and the configuration holds a key that [run] gives
    itself in the call of [CodeHilite] ([tab_length], [style], [src] or
    [self]).  With such a key nothing is ever changed, and what is raised
    is a [TypeError], or an [AttributeError] for a missing text.  Without
    such a key and without pygments, what is raised is an
    [AttributeError].  A code block the iteration could come to is then as
    it was, or stashed: the blocks before the raise stay stashed. *)
Theorem run_raises (fuel : nat) (root : loc) (w w' : world) (r : result unit) :
  run config fuel root w = Some (w', r) ->
  (forall x c,
      Spec.visited (elems w) root x ->
      is_code_block (elems w) x = true ->
      n_children (elems w x) = [c] ->
      n_text (elems w c) = None \/ More.given_twice config ->
      exists ex, r = inl ex)
  /\ (More.given_twice config ->
      w' = w /\ forall ex, r = inl ex -> ex = TypeError \/ ex = AttributeError)
  /\ (pygments = false -> ~ More.given_twice config ->
      forall ex, r = inl ex -> ex = AttributeError)
  /\ (forall x, Spec.visited (elems w) root x ->
                is_code_block (elems w) x = true ->
                elems w' x = elems w x \/ stashed w w' x).
Proof.
  unfold run. intros Hrun. split; [|split; [|split]].
  - intros x c Hvis Hcb Hch Hbad.
    destruct r as [ex|[]]; [eauto|]. exfalso.
    destruct (iter_pre_covers config fuel root w w' Hrun x Hvis Hcb)
      as [i [html [_ [_ [c' [text [kwargs [code [st [st' [Hch' [Htext [Hkw [Hcall _]]]]]]]]]]]]]].
    rewrite Hch in Hch'. injection Hch' as <-.
    destruct Hbad as [Hnone | Hclash].
    + rewrite Hnone in Htext. discriminate.
    + exact (call_returns text kwargs code Hkw Hcall Hclash).
  - intros Hclash. split.
    + apply (iter_pre_same (fun e w0 w1 r0 Hb =>
                              proj1 (loop_body_given_twice e w0 w1 r0 Hclash Hb))
               fuel root w w' r Hrun).
    + intros ex ->.
      apply (iter_pre_raise (fun ex => ex = TypeError \/ ex = AttributeError)
               (fun e w0 w1 ex0 Hb =>
                  proj2 (loop_body_given_twice e w0 w1 _ Hclash Hb) ex0 eq_refl)
               fuel root w w' ex Hrun).
  - intros Hpyg Hfresh ex ->.
    apply (iter_pre_raise (fun ex => ex = AttributeError)
             (fun e w0 w1 ex0 Hb => loop_body_textless e w0 w1 ex0 Hpyg Hfresh Hb)
             fuel root w w' ex Hrun).
  - intros x _ _.
    destruct (iter_pre_evolves config fuel root w w' r Hrun) as [Hx _].
    destruct (Hx x) as [He | [_ Hst]]; [now left | now right].
Qed.

End ProcessorMore.

Lemma run_without_code_blocks_witness :
  (forall x, Spec.visited (CodeHilite.elems More.world_plain) 0 x ->
             Spec.is_code_block (CodeHilite.elems More.world_plain) x = false)
  /\ Spec.shallow (CodeHilite.elems More.world_plain) 2 0
  /\ @CodeHilite.run Examples.interp_default Examples.pygments_stub Examples.md_default
       ∅ 2 0 More.world_plain
     = Some (More.world_plain, inr tt).
Proof.
  assert (Hno : forall x,
             Spec.visited (CodeHilite.elems More.world_plain) 0 x ->
             Spec.is_code_block (CodeHilite.elems More.world_plain) x = false).
  { intros x _. destruct x as [|[|x]]; reflexivity. }
  assert (Hsh : Spec.shallow (CodeHilite.elems More.world_plain) 2 0).
  { constructor. intros c [<-|[<-|[]]]; constructor; intros c' []. }
  split; [exact Hno|]. split; [exact Hsh|].
  exact (@run_without_code_blocks Examples.interp_default Examples.pygments_stub
           Examples.md_default ∅ 2 0 More.world_plain Hno Hsh).
Defined.

Lemma run_twice_witness :
  @CodeHilite.run Examples.interp_default Examples.pygments_missing Examples.md_default
    ∅ 4 0 Spec.world_example
  = Some (Spec.world_after, inr tt)
  /\ @CodeHilite.run Examples.interp_default Examples.pygments_missing Examples.md_default
       ∅ 4 0 Spec.world_after
     = Some (Spec.world_after, inr tt).
Proof.
  split; [exact run_example|].
  exact (@run_twice Examples.interp_default Examples.pygments_missing Examples.md_default
           ∅ 4 0 Spec.world_example Spec.world_after run_example).
Defined.

Lemma run_keeps_stash_witness :
  @CodeHilite.run Examples.interp_default Examples.pygments_missing Examples.md_default
    ∅ 4 0 Spec.world_example
  = Some (Spec.world_after, inr tt)
  /\ exists more,
      CodeHilite.rawHtmlBlocks Spec.world_after
      = (CodeHilite.rawHtmlBlocks Spec.world_example ++ more)%list.
Proof.
  split; [exact run_example|].
  exact (proj1 (@run_keeps_stash Examples.interp_default Examples.pygments_missing
                  Examples.md_default ∅ 4 0 Spec.world_example Spec.world_after (inr tt)
                  run_example)).
Defined.

(** [run] on a tree whose second code block has no text, without pygments:
    it raises when the first block is already stashed. *)
Lemma run_textless_example :
  @CodeHilite.run Examples.interp_default Examples.pygments_missing Examples.md_default
    ∅ 3 0 More.world_textless
  = Some (More.world_textless_after, inl AttributeError).
Proof. vm_compute. reflexivity. Qed.

Lemma run_raises_witness :
  @CodeHilite.run Examples.interp_default Examples.pygments_missing Examples.md_default
    ∅ 3 0 More.world_textless
  = Some (More.world_textless_after, inl AttributeError)
  /\ Spec.visited (CodeHilite.elems More.world_textless) 0 3
  /\ Spec.is_code_block (CodeHilite.elems More.world_textless) 3 = true
  /\ CodeHilite.n_children (CodeHilite.elems More.world_textless 3) = [4]
  /\ CodeHilite.n_text (CodeHilite.elems More.world_textless 4) = None
  /\ (exists ex, inl AttributeError = (inl ex : result unit))
  /\ (CodeHilite.elems More.world_textless_after 1 = CodeHilite.elems More.world_textless 1
      \/ @Spec.stashed Examples.interp_default Examples.pygments_missing
           Examples.md_default ∅ More.world_textless More.world_textless_after 1).
Proof.
  assert (Hvis3 : Spec.visited (CodeHilite.elems More.world_textless) 0 3).
  { apply (Spec.visited_below _ 0 3 3); [reflexivity | right; now left | constructor]. }
  assert (Hvis1 : Spec.visited (CodeHilite.elems More.world_textless) 0 1).
  { apply (Spec.visited_below _ 0 1 1); [reflexivity | now left | constructor]. }
  split; [exact run_textless_example|]. split; [exact Hvis3|].
  split; [reflexivity|]. split; [reflexivity|]. split; [reflexivity|].
  destruct (@run_raises Examples.interp_default Examples.pygments_missing
              Examples.md_default ∅ 3 0 More.world_textless More.world_textless_after
              (inl AttributeError) run_textless_example) as [Hraise [_ [_ Hkept]]].
  split.
  - exact (Hraise 3 4 Hvis3 eq_refl eq_refl (or_introl eq_refl)).
  - exact (Hkept 1 Hvis1 eq_refl).
Defined.

(** ** The code in the markup of the fallback *)

Section FallbackSafe.

Import CodeHilite.

Context {interp : Interpreter} {pyg : Pygments}.

Lemma amp_ok_replace_amp (s : string) :
  Spec.amp_ok (Spec.flat (Spec.subst1 "&" "&amp;") s) = true.
Proof.
  induction s as [|c s IH]; [reflexivity|].
  cbn [Spec.flat]. unfold Spec.subst1 at 1.
  destruct (Ascii.eqb c "&") eqn:Hc; [now apply amp_ok_app|].
  cbn [String.append Spec.amp_ok]. now rewrite Hc, IH.
Qed.

(** The escaping of the fallback leaves no [<], [>] or double quote, and
    every [&] it leaves starts a reference. *)
Lemma escape_code_safe (s : string) :
  Spec.count_lt (Spec.escape_code s) = 0
  /\ Spec.count_gt (Spec.escape_code s) = 0
  /\ Spec.count_dq (Spec.escape_code s) = 0
  /\ Spec.amp_ok (Spec.escape_code s) = true.
Proof.
  unfold Spec.escape_code, Spec.count_lt, Spec.count_gt, Spec.count_dq, Serializers.dq.
  rewrite !replace_char. repeat split.
  - rewrite !count_flat_other by (discriminate || reflexivity).
    now apply count_flat_self.
  - rewrite count_flat_other by (discriminate || reflexivity).
    now apply count_flat_self.
  - now apply count_flat_self.
  - repeat (apply amp_ok_flat; [reflexivity | discriminate | reflexivity |]).
    apply amp_ok_replace_amp.
Qed.

(** X17: the code in the markup of the fallback is safe to put into a page:
    when pygments is missing or turned off, [hilite] returns a [pre] and a
    [code] around a text in which no [<], [>] or double quote is left and
    every [&] starts a character reference. *)
Theorem hilite_fallback_safe (src0 : string) (kw : gmap string pyval)
  (shebang : bool) (tr : list ext_call) :
  pygments = false \/ truthy (use_pygments (__init__ src0 kw)) = false ->
  exists cssclass classes txt,
    snd (hilite shebang (__init__ src0 kw, tr))
    = inr (Spec.fallback_markup cssclass classes txt)
    /\ Spec.count_lt txt = 0 /\ Spec.count_gt txt = 0 /\ Spec.count_dq txt = 0
    /\ Spec.amp_ok txt = true.
Proof.
  intros Hoff.
  destruct (hilite_fallback_gen (__init__ src0 kw) shebang tr (init_has_keys src0 kw))
    as [self' [cssclass [linenos [Hh _]]]].
  { destruct Hoff as [-> | ->]; [reflexivity | apply andb_false_r]. }
  exists (str cssclass), (Spec.code_classes self' linenos), (Spec.escape_code (src self')).
  rewrite Hh. split; [reflexivity | apply escape_code_safe].
Qed.

End FallbackSafe.

Lemma hilite_fallback_safe_witness :
  (@CodeHilite.pygments Examples.pygments_missing = false
   \/ truthy (CodeHilite.use_pygments (CodeHilite.__init__ "a < b && c" ∅)) = false)
  /\ exists cssclass classes txt,
      snd (@CodeHilite.hilite Examples.interp_default Examples.pygments_missing true
             (CodeHilite.__init__ "a < b && c" ∅, []))
      = inr (Spec.fallback_markup cssclass classes txt)
      /\ Spec.count_lt txt = 0 /\ Spec.count_gt txt = 0 /\ Spec.count_dq txt = 0
      /\ Spec.amp_ok txt = true.
Proof.
  assert (Hoff : @CodeHilite.pygments Examples.pygments_missing = false
                 \/ truthy (CodeHilite.use_pygments
                              (CodeHilite.__init__ "a < b && c" ∅)) = false)
    by (left; reflexivity).
  split; [exact Hoff|].
  exact (@hilite_fallback_safe Examples.interp_default Examples.pygments_missing
           "a < b && c" ∅ true [] Hoff).
Defined.

(** ** Numerals *)

Section Numerals.

Import CodeHilite.

Context {interp : Interpreter}.

Abbreviation step := (fun acc d => 10 * acc + d)%Z (only parsing).

(** The digits of a decimal numeral, as [int] reads them: their value is
    the number, and there is one for every character. *)
Lemma digits_of_uint (d : Decimal.uint) :
  exists ds,
    digits_after (NilEmpty.string_of_uint d) = Some ds
    /\ length ds = String.length (NilEmpty.string_of_uint d)
    /\ (forall acc, fold_left step ds (Z.pos acc) = Z.pos (Pos.of_uint_acc d acc))
    /\ fold_left step ds 0%Z = Z.of_N (Pos.of_uint d).
Proof.
  induction d as [|d [ds [Hd [Hlen [Hacc H0]]]]|d [ds [Hd [Hlen [Hacc H0]]]]
                 |d [ds [Hd [Hlen [Hacc H0]]]]|d [ds [Hd [Hlen [Hacc H0]]]]
                 |d [ds [Hd [Hlen [Hacc H0]]]]|d [ds [Hd [Hlen [Hacc H0]]]]
                 |d [ds [Hd [Hlen [Hacc H0]]]]|d [ds [Hd [Hlen [Hacc H0]]]]
                 |d [ds [Hd [Hlen [Hacc H0]]]]|d [ds [Hd [Hlen [Hacc H0]]]]];
    [exists []; repeat split; reflexivity| | | | | | | | | |].
  all: cbn [NilEmpty.string_of_uint digits_after Re.is_digit];
    match goal with
    | |- context [String ?c _] =>
        change (Re.is_digit c) with true; cbv iota; rewrite Hd;
        exists (digit_value c :: ds)
    end;
    (split; [reflexivity|]); (split; [cbn [length String.length]; now rewrite Hlen|]);
    cbn [fold_left Pos.of_uint Pos.of_uint_acc]; split.
  all: try (intros acc; rewrite <- Hacc; f_equal; unfold digit_value; cbn; lia).
  all: try exact H0.
  all: exact (Hacc _).
Qed.

Lemma rstrip_none (p : ascii -> bool) (s : string) :
  More.all_in (fun c => negb (p c)) s = true -> rstrip p s = s.
Proof.
  induction s as [|a s IH]; [reflexivity|].
  cbn [More.all_in]. intros H. apply andb_true_iff in H as [Ha Hs].
  cbn [rstrip]. rewrite (IH Hs). apply negb_true_iff in Ha.
  destruct s; [now rewrite Ha | reflexivity].
Qed.

Lemma strip_none (p : ascii -> bool) (s : string) :
  More.all_in (fun c => negb (p c)) s = true -> strip p s = s.
Proof.
  intros H. unfold strip.
  assert (Hl : lstrip p s = s).
  { destruct s as [|a s]; [reflexivity|]. cbn [More.all_in] in H.
    apply andb_true_iff in H as [Ha _]. apply negb_true_iff in Ha.
    cbn [lstrip]. now rewrite Ha. }
  rewrite Hl. now apply rstrip_none.
Qed.

Lemma uint_no_space (p : ascii -> bool) (d : Decimal.uint) :
  (forall c, Re.is_digit c = true -> p c = false) ->
  More.all_in (fun c => negb (p c)) (NilEmpty.string_of_uint d) = true.
Proof.
  intros Hp. induction d; cbn [NilEmpty.string_of_uint More.all_in];
    [reflexivity|..]; rewrite IHd, andb_true_r; apply negb_true_iff, Hp; reflexivity.
Qed.

Lemma digit_no_space (c : ascii) : Re.is_digit c = true -> int_space c = false.
Proof. each_char c. Qed.

(** [int] reads a decimal numeral, and one with a minus sign before it,
    when the numeral is not longer than the limit allows. *)
Lemma int_uint (d : Decimal.uint) :
  d <> Decimal.Nil ->
  ((0 <? int_max_str_digits)
   && (int_max_str_digits <? String.length (NilEmpty.string_of_uint d)))%nat = false ->
  int (NilEmpty.string_of_uint d) = inr (Z.of_N (Pos.of_uint d))
  /\ int (String "-" (NilEmpty.string_of_uint d)) = inr (- Z.of_N (Pos.of_uint d))%Z.
Proof.
  intros Hnil Hlimit.
  destruct (digits_of_uint d) as [ds_all [Hd [Hlen [_ H0]]]].
  pose proof (uint_no_space int_space d digit_no_space) as Hsp.
  unfold int. rewrite !strip_none by (cbn [More.all_in]; rewrite ?Hsp; reflexivity).
  rewrite <- H0. unfold decimal.
  destruct d; [congruence|..]; cbn [NilEmpty.string_of_uint] in *; cbv iota beta;
    cbn [digits_after] in Hd;
    match goal with
    | |- context [Re.is_digit ?c] =>
        change (Re.is_digit c) with true in *; cbv iota in *
    end;
    destruct (digits_after (NilEmpty.string_of_uint d)) as [ds|]; try discriminate;
    injection Hd as <-; cbn [length String.length] in *;
    injection Hlen as Hlen; rewrite Hlen, Hlimit; split; reflexivity.
Qed.

Lemma string_of_uint_nonnil (d : Decimal.uint) :
  d <> Decimal.Nil -> NilZero.string_of_uint d = NilEmpty.string_of_uint d.
Proof. destruct d; [congruence | reflexivity..]. Qed.

Lemma int_str_of_int (z : Z) :
  int_max_str_digits = 0
  \/ String.length (str_of_int (Z.abs z)) <= int_max_str_digits ->
  int (str_of_int z) = inr z.
Proof.
  intros Hlimit.
  assert (Hl : ((0 <? int_max_str_digits)
                && (int_max_str_digits <? String.length (str_of_int (Z.abs z))))%nat
               = false).
  { destruct Hlimit as [-> | Hle]; [reflexivity|].
    apply andb_false_iff. right. apply Nat.ltb_ge. exact Hle. }
  clear Hlimit. unfold str_of_int in *.
  destruct z as [|p|p];
    [change (Z.abs 0) with 0%Z in Hl
    |change (Z.abs (Z.pos p)) with (Z.pos p) in Hl
    |change (Z.abs (Z.neg p)) with (Z.pos p) in Hl];
    cbn [Z.to_int NilZero.string_of_int] in Hl |- *.
  - exact (proj1 (int_uint (Decimal.D0 Decimal.Nil) ltac:(discriminate) Hl)).
  - pose proof (Unsigned.to_uint_nonnil p) as Hnil.
    rewrite string_of_uint_nonnil in * by exact Hnil.
    now rewrite (proj1 (int_uint _ Hnil Hl)), Unsigned.of_to.
  - pose proof (Unsigned.to_uint_nonnil p) as Hnil.
    rewrite string_of_uint_nonnil in * by exact Hnil.
    now rewrite (proj2 (int_uint _ Hnil Hl)), Unsigned.of_to.
Qed.

(** A numeral is a token: not empty, and without white space. *)
Lemma str_of_int_token (z : Z) :
  str_of_int z <> ""
  /\ More.all_in (fun c => negb (isspace c)) (str_of_int z) = true.
Proof.
  assert (Hd : forall c, Re.is_digit c = true -> isspace c = false) by (intros c; each_char c).
  assert (Hu : forall d, d <> Decimal.Nil ->
                         NilZero.string_of_uint d <> ""
                         /\ More.all_in (fun c => negb (isspace c))
                              (NilZero.string_of_uint d) = true).
  { intros d Hnil. pose proof (uint_no_space isspace d Hd) as Hall.
    destruct d; [congruence|..]; split; try discriminate; exact Hall. }
  unfold str_of_int. destruct z as [|p|p]; cbn [Z.to_int NilZero.string_of_int].
  - split; [discriminate | reflexivity].
  - apply Hu, Unsigned.to_uint_nonnil.
  - destruct (Hu _ (Unsigned.to_uint_nonnil p)) as [_ Hall].
    split; [discriminate|]. cbn [More.all_in]. now rewrite Hall.
Qed.

Lemma words_go_token (t u : string) :
  More.all_in (fun c => negb (isspace c)) t = true ->
  words_go (t +:+ u)
  = match t with
    | "" => words_go u
    | _ => (Some (t +:+ default "" (fst (words_go u))), snd (words_go u))
    end.
Proof.
  induction t as [|a t IH]; [reflexivity|].
  cbn [More.all_in]. intros H. apply andb_true_iff in H as [Ha Ht].
  apply negb_true_iff in Ha.
  rewrite append_cons. cbn [words_go]. rewrite (IH Ht), Ha.
  destruct t; [now destruct (words_go u) | reflexivity].
Qed.

(** [split()] gives back the tokens that were joined by blanks. *)
Lemma words_join (tokens : list string) :
  Forall (fun t => t <> "" /\ More.all_in (fun c => negb (isspace c)) t = true) tokens ->
  words (join " " tokens) = tokens.
Proof.
  induction 1 as [|t tokens [Hne Ht] Hrest IH]; [reflexivity|].
  destruct tokens as [|t2 rest].
  - cbn [join]. unfold words. rewrite <- (append_nil_r t) at 1.
    rewrite (words_go_token t "" Ht). destruct t; [congruence|].
    cbn [words_go fst snd default option_list app]. now rewrite append_nil_r.
  - rewrite join_cons. unfold words in *.
    rewrite (words_go_token t _ Ht). destruct t as [|a t]; [congruence|].
    cbn [String.append words_go].
    change (isspace " ") with true.
    destruct (words_go (join " " (t2 :: rest))) as [cur ws].
    cbn [fst snd default option_list app]. rewrite append_nil_r. now rewrite IH.
Qed.

Lemma map_int_numerals (l : list Z) :
  Forall (fun z => int (str_of_int z) = inr z) l ->
  map_int (map str_of_int l) = inr l.
Proof.
  induction 1 as [|z l Hz _ IH]; [reflexivity|].
  cbn [map map_int]. now rewrite Hz, IH.
Qed.

(** X18: [parse_hl_lines] reads a list of line numbers: for the decimal
    numerals of integers, with a blank between them, it returns these
    integers, in order; the numerals must not be longer than the
    interpreter allows for an [int]. *)
Theorem parse_hl_lines_numerals (l : list Z) :
  int_max_str_digits = 0
  \/ Forall (fun z => String.length (str_of_int (Z.abs z)) <= int_max_str_digits) l ->
  parse_hl_lines (Some (join " " (map str_of_int l))) = inr l.
Proof.
  intros Hlimit. unfold parse_hl_lines.
  destruct l as [|z l]; [reflexivity|].
  assert (Hne : nonempty (Some (join " " (map str_of_int (z :: l)))) = true).
  { destruct (str_of_int_token z) as [Hz _]. cbn [map].
    destruct (map str_of_int l); cbn [join]; destruct (str_of_int z);
      try congruence; reflexivity. }
  rewrite Hne. cbn [negb default id].
  rewrite words_join.
  - rewrite map_int_numerals; [reflexivity|].
    apply List.Forall_forall. intros x Hx. apply int_str_of_int.
    destruct Hlimit as [H0 | Hall]; [now left | right].
    rewrite List.Forall_forall in Hall. now apply Hall.
  - apply List.Forall_forall. intros t Ht. apply in_map_iff in Ht as [x [<- _]].
    apply str_of_int_token.
Qed.

End Numerals.

Lemma parse_hl_lines_numerals_witness :
  (@CodeHilite.int_max_str_digits Examples.interp_default = 0
   \/ Forall (fun z => String.length (str_of_int (Z.abs z))
                       <= @CodeHilite.int_max_str_digits Examples.interp_default)
        [3%Z; 12%Z; 105%Z])
  /\ @CodeHilite.parse_hl_lines Examples.interp_default (Some "3 12 105")
     = inr [3%Z; 12%Z; 105%Z].
Proof.
  assert (Hlimit : @CodeHilite.int_max_str_digits Examples.interp_default = 0
                   \/ Forall (fun z => String.length (str_of_int (Z.abs z))
                                       <= @CodeHilite.int_max_str_digits
                                            Examples.interp_default)
                        [3%Z; 12%Z; 105%Z]).
  { right. do 3 (constructor; [apply Nat.leb_le; vm_compute; reflexivity|]).
    constructor. }
  split; [exact Hlimit|].
  exact (@parse_hl_lines_numerals Examples.interp_default [3%Z; 12%Z; 105%Z] Hlimit).
Defined.
